(** * ssh-kim-cli: the encrypted SSH key record store

    A shallow embedding of [cli/ssh-key-manager.js] (class [SSHKeyManager])
    and the properties of its encrypted record store: the envelope cipher
    ([encryptData] / [decryptData]), the load / cache / save lifecycle
    ([loadKeys] / [saveKeys]), the key type classifier ([detectKeyType]),
    record edition and deletion ([editKey] / [deleteKey]) and the three
    import paths ([importFromFile], [importFromDirectory], [importFromScan]).

    Conventions of the embedding.
    - A JavaScript string is represented by the byte sequence of its UTF-8
      encoding (a Rocq [string]); the ['utf8'] conversions of the [crypto]
      API are therefore the identity on this representation.
    - A [Buffer] is a [list ascii] (one [ascii] per byte).
    - Arrays of records live in a heap and are handled through references,
      because the manager mutates in place the very array it caches.
    - Methods are computations in a state-and-exception monad over [State],
      which gathers the manager instance, the JavaScript heap, the file
      system, the sources of randomness and time, and what was printed.
    - The primitives of the platform that the repository only calls (the AES
      block cipher, SHA-256, [JSON], [String.prototype.trim], [path.join])
      are the fields of the class [Runtime]; what is assumed of them is in
      [RuntimeLaws]. A parsed document is an array of records, an export
      document or one record, and the fields of a record are [undefined],
      [null] or strings.
    - The interactive prompts are answered by parameters of the methods. *)

From stdpp Require Import base option list strings gmap.
From Stdlib Require Import Ascii Bool Lia.

Local Open Scope string_scope.
Local Open Scope list_scope.
Local Open Scope nat_scope.

(** ** JavaScript values and strings *)

(** The values a field of a parsed or stored record takes in this
    development: [undefined], [null] and strings. *)
Inductive jsval : Type :=
| VUndef
| VNull
| VStr (s : string).

#[global] Instance jsval_eq_dec : EqDecision jsval.
Proof. solve_decision. Defined.

(** [ToBoolean]: [undefined], [null] and the empty string are falsy. *)
Definition truthy (v : jsval) : bool :=
  match v with
  | VStr s => negb (String.eqb s EmptyString)
  | _ => false
  end.

(** [a || b] *)
Definition js_or (a b : jsval) : jsval := if truthy a then a else b.

(** [a === b] on the values above. *)
Definition strict_eq (a b : jsval) : bool := bool_decide (a = b).

(** Truthiness of an optional string ([undefined] or a string). *)
Definition truthy_opt (o : option string) : bool :=
  match o with
  | Some s => negb (String.eqb s EmptyString)
  | None => false
  end.

(** [s.includes(pat)]: [pat] occurs in [s] as a contiguous substring. *)
Fixpoint includes (s pat : string) : bool :=
  if String.prefix pat s then true
  else match s with
       | EmptyString => false
       | String _ s' => includes s' pat
       end.

(** [s.endsWith(suf)] *)
Definition endsWith (s suf : string) : bool :=
  let n := String.length s in
  let k := String.length suf in
  (k <=? n)%nat && String.eqb (String.substring (n - k) k s) suf.

(** [s.split(c)] for a one-character separator [c]. *)
Fixpoint js_split (c : ascii) (s : string) : list string :=
  match s with
  | EmptyString => [EmptyString]
  | String a s' =>
      if Ascii.eqb a c then EmptyString :: js_split c s'
      else match js_split c s' with
           | h :: t => String a h :: t
           | [] => [String a EmptyString]
           end
  end.

(** ** KeyTypeClassifier *)

(** [detectKeyType(keyContent)] *)
Definition detectKeyType (keyContent : string) : string :=
  if includes keyContent "ssh-rsa" then "RSA"
  else if includes keyContent "ssh-dss" then "DSA"
  else if includes keyContent "ecdsa-sha2" then "ECDSA"
  else if includes keyContent "ssh-ed25519" then "Ed25519"
  else "Unknown".

(** ** Buffers and their hexadecimal form *)

Definition bytes := list ascii.

(** Bitwise exclusive or of two bytes. *)
Definition xor_ascii (a b : ascii) : ascii :=
  match a, b with
  | Ascii a0 a1 a2 a3 a4 a5 a6 a7, Ascii b0 b1 b2 b3 b4 b5 b6 b7 =>
      Ascii (xorb a0 b0) (xorb a1 b1) (xorb a2 b2) (xorb a3 b3)
            (xorb a4 b4) (xorb a5 b5) (xorb a6 b6) (xorb a7 b7)
  end.

(** Byte-wise exclusive or of two buffers, up to the shorter one. *)
Fixpoint xor_bytes (x y : bytes) : bytes :=
  match x, y with
  | a :: x', b :: y' => xor_ascii a b :: xor_bytes x' y'
  | _, _ => []
  end.

(** The lower-case hexadecimal digit of a value below 16. *)
Definition hex_digit (n : N) : ascii :=
  if (n <? 10)%N then ascii_of_N (48 + n) else ascii_of_N (87 + n).

(** The value of a hexadecimal digit, in either case. *)
Definition hex_val (c : ascii) : option N :=
  let n := N_of_ascii c in
  if (48 <=? n)%N && (n <=? 57)%N then Some (n - 48)%N
  else if (97 <=? n)%N && (n <=? 102)%N then Some (n - 87)%N
  else if (65 <=? n)%N && (n <=? 70)%N then Some (n - 55)%N
  else None.

(** [buf.toString('hex')] *)
Fixpoint hex_encode (b : bytes) : string :=
  match b with
  | [] => EmptyString
  | a :: b' =>
      let n := N_of_ascii a in
      String (hex_digit (n / 16)) (String (hex_digit (n mod 16)) (hex_encode b'))
  end.

(** [Buffer.from(s, 'hex')]: decoding stops at the first pair of characters
    that is not a pair of hexadecimal digits. *)
Fixpoint hex_decode (s : string) : bytes :=
  match s with
  | String h (String l s') =>
      match hex_val h, hex_val l with
      | Some x, Some y => ascii_of_N (16 * x + y) :: hex_decode s'
      | _, _ => []
      end
  | _ => []
  end.

(** ** Exceptions and results *)

(** What a method can throw. *)
Inductive exn : Type :=
| EIO (path : string)        (* a file system call failed on [path] *)
| ECipher                    (* thrown by the [crypto] cipher objects *)
| ESyntax                    (* [JSON.parse]: not a JSON document *)
| ETypeError                 (* a method called on a value that lacks it *)
| EPrompt.                   (* the interactive prompt was rejected *)

Inductive result (A : Type) : Type :=
| Ok (a : A)
| Throw (e : exn).
Arguments Ok {A} a.
Arguments Throw {A} e.

(** ** Records *)

(** A stored key record, and equally the shape of a record read from an
    import document; a field the document lacks is [VUndef]. *)
Record KeyRecord : Type := mkKeyRecord {
  k_id : jsval;
  k_name : jsval;
  k_tag : jsval;
  k_key : jsval;
  k_key_type : jsval;
  k_created : jsval;
  k_last_modified : jsval
}.

#[global] Instance KeyRecord_eq_dec : EqDecision KeyRecord.
Proof. solve_decision. Defined.

(** What [JSON.parse] yields on an import file: an export document
    [{exported_at, total_keys, keys: [...]}], of which only [keys] is read, or
    a single record-shaped object. *)
Inductive ImportDoc : Type :=
| ExportDocument (keys : list KeyRecord)
| SingleKey (k : KeyRecord).

(** ** The platform *)

(** The primitives of Node.js that the manager calls and this development
    does not define. *)
Class Runtime : Type := {
  (** AES-256 on one 16-byte block: [aes_encrypt_block key block]. *)
  aes_encrypt_block : bytes → bytes → bytes;
  aes_decrypt_block : bytes → bytes → bytes;
  (** [crypto.createHash('sha256').update(s).digest()] *)
  sha256 : string → bytes;
  (** [JSON.stringify(keys, null, 2)] on an array of records. *)
  JSON_stringify : list KeyRecord → string;
  (** [JSON.parse] on the decrypted store; [None] when it throws. *)
  JSON_parse : string → option (list KeyRecord);
  (** [JSON.parse] on an import file; [None] when it throws. *)
  JSON_parse_import : string → option ImportDoc;
  (** [String.prototype.trim] *)
  trim : string → string;
  (** [path.join(a, b)] *)
  path_join : string → string → string
}.

(** What is assumed of the block cipher and of the hash: decryption undoes
    encryption on 16-byte blocks under a 32-byte key, blocks stay blocks,
    and a digest has 32 bytes. *)
Class RuntimeLaws `{Runtime} : Prop := {
  aes_encrypt_block_length : ∀ k b,
    length k = 32 → length b = 16 → length (aes_encrypt_block k b) = 16;
  aes_decrypt_encrypt_block : ∀ k b,
    length k = 32 → length b = 16 →
    aes_decrypt_block k (aes_encrypt_block k b) = b;
  sha256_length : ∀ s, length (sha256 s) = 32
}.

(** ** The envelope cipher: aes-256-cbc with PKCS#7 padding *)

(** The first [fuel] blocks of [n] bytes of a buffer (the last one may be
    shorter). *)
Fixpoint chunks (n fuel : nat) (l : bytes) : list bytes :=
  match fuel with
  | O => []
  | S fuel' =>
      match l with
      | [] => []
      | _ :: _ => take n l :: chunks n fuel' (drop n l)
      end
  end.

(** PKCS#7: [n] bytes of value [n] bring the length to the next multiple of
    16, with [1 <= n <= 16]. *)
Definition pkcs7_pad (l : bytes) : bytes :=
  let n := 16 - length l mod 16 in
  l ++ replicate n (ascii_of_nat n).

Definition pkcs7_unpad (l : bytes) : option bytes :=
  match last l with
  | None => None
  | Some b =>
      let n := nat_of_ascii b in
      if (1 <=? n)%nat && (n <=? 16)%nat && (n <=? length l)%nat
         && forallb (Ascii.eqb b) (drop (length l - n) l)
      then Some (take (length l - n) l)
      else None
  end.

Section Cipher.
Context `{Runtime}.

(** Cipher block chaining over whole blocks: [prev] is the initialisation
    vector, then the previous block of ciphertext. *)
Fixpoint cbc_encrypt (key prev : bytes) (blocks : list bytes) : list bytes :=
  match blocks with
  | [] => []
  | b :: blocks' =>
      let c := aes_encrypt_block key (xor_bytes b prev) in
      c :: cbc_encrypt key c blocks'
  end.

Fixpoint cbc_decrypt (key prev : bytes) (blocks : list bytes) : list bytes :=
  match blocks with
  | [] => []
  | c :: blocks' =>
      xor_bytes (aes_decrypt_block key c) prev :: cbc_decrypt key c blocks'
  end.

(** [crypto.createCipheriv('aes-256-cbc', key, iv)] followed by
    [update(data, 'utf8', 'hex') + final('hex')]. The constructor throws
    unless the key has 32 bytes and the vector 16. *)
Definition cipher_hex (key iv : bytes) (data : string) : result string :=
  if bool_decide (length key = 32) && bool_decide (length iv = 16) then
    let padded := pkcs7_pad (String.list_ascii_of_string data) in
    Ok (hex_encode
          (concat (cbc_encrypt key iv (chunks 16 (length padded) padded))))
  else Throw ECipher.

(** [crypto.createDecipheriv('aes-256-cbc', key, iv)] followed by
    [update(encrypted, 'hex', 'utf8') + final('utf8')], where [encrypted] is
    [undefined] when the envelope has no second field. [update] throws on
    [undefined]; [final] throws unless the ciphertext is a positive number
    of whole blocks that ends in a well-formed padding. *)
Definition decipher_utf8 (key iv : bytes) (encrypted : option string)
  : result string :=
  if bool_decide (length key = 32) && bool_decide (length iv = 16) then
    match encrypted with
    | None => Throw ETypeError
    | Some hex =>
        let ct := hex_decode hex in
        if bool_decide (ct ≠ []) && bool_decide (length ct mod 16 = 0) then
          match pkcs7_unpad
                  (concat (cbc_decrypt key iv (chunks 16 (length ct) ct))) with
          | Some pt => Ok (String.string_of_list_ascii pt)
          | None => Throw ECipher
          end
        else Throw ECipher
    end
  else Throw ECipher.

(** The body of [encryptData] once the key and the fresh vector are known:
    [iv.toString('hex') + ':' + encrypted]. *)
Definition encrypt_envelope (key iv : bytes) (data : string) : result string :=
  match cipher_hex key iv data with
  | Ok encrypted => Ok (hex_encode iv +:+ ":" +:+ encrypted)
  | Throw e => Throw e
  end.

(** The body of [decryptData] once the key is known: split at the colons,
    the first field is the vector, the second the ciphertext. *)
Definition decrypt_envelope (key : bytes) (encryptedData : string)
  : result string :=
  let parts := js_split ":" encryptedData in
  let iv := hex_decode (default EmptyString (parts !! 0)) in
  let encrypted := parts !! 1 in
  decipher_utf8 key iv encrypted.

(** ** KeyDerivation *)

(** [deriveKeyFromPassword(password)] *)
Definition deriveKeyFromPassword (password : string) : bytes :=
  sha256 (password +:+ "ssh-kim-password-salt").

(** The body of [getMachineKey] once [getMachineId()] is known. *)
Definition machineKeyOf (machineId : string) : bytes :=
  sha256 (machineId +:+ "ssh-kim-machine-key").

End Cipher.

(** ** The state: manager, heap and world *)

(** A node of the file system. *)
Inductive fnode : Type :=
| File (content : string)
| Dir (entries : list string).

(** What the process can observe of its host. *)
Record Host : Type := mkHost {
  hostname : string;                    (* os.hostname() *)
  homedir : string;                     (* os.homedir() *)
  cwd : string;                         (* process.cwd() *)
  platform : string;                    (* process.platform *)
  scutil_ComputerName : option string;  (* outcome of the [scutil] attempt *)
  env_APPDATA : option string;          (* process.env.APPDATA *)
  env_LOCALAPPDATA : option string      (* process.env.LOCALAPPDATA *)
}.

(** The sources of randomness and time: the [n]-th call of
    [crypto.randomBytes(16)], of [crypto.randomUUID()] and of
    [new Date().toISOString()]. *)
Record Oracle : Type := mkOracle {
  random_iv : nat → bytes;
  random_uuid : nat → string;
  clock : nat → string
}.

(** What the process does to the outside, in order: file system calls and
    lines printed on the console. *)
Inductive event : Type :=
| IoExists (path : string)                      (* fs.existsSync *)
| IoMkdirp (path : string)                      (* fs.mkdirpSync *)
| IoReadFile (path : string)                    (* fs.readFile *)
| IoWriteFile (path : string) (data : string)   (* fs.writeFile *)
| IoReaddir (path : string)                     (* fs.readdir *)
| LogError (context : string) (e : exn)         (* console.error(context, error.message) *)
| LogNotFound (id : string)                     (* Key with ID ... not found. *)
| LogUpdated (name : jsval)                     (* SSH key ... updated successfully! *)
| LogDeleted (name : jsval)                     (* SSH key ... deleted successfully! *)
| LogCancelled                                  (* Deletion cancelled. *)
| LogImported (count : nat)                     (* Imported ... keys successfully! *)
| LogSkippedDuplicates (count : nat)            (* Skipped ... duplicate keys. *)
| LogSkippedFile (file : string) (e : exn)      (* Skipped ...: ... *)
| LogNoPubFiles                                 (* No SSH public key files found in directory. *)
| LogNoKeysFound                                (* No SSH keys found in common locations. *)
| LogNoneSelected.                              (* No keys selected for import. *)

Record State : Type := mkState {
  (* the SSHKeyManager instance *)
  cfg_keysFilePath : option string;        (* config.get('keysFilePath') *)
  cfg_encryptionPassword : option string;  (* config.get('encryptionPassword') *)
  machineKey : bytes;
  passwordKey : option bytes;
  keysCache : option nat;                  (* null, or a reference to an array *)
  (* the arrays of records, by reference *)
  heap : list (list KeyRecord);
  (* the world *)
  host : Host;
  fs : gmap string fnode;
  unreadable : gset string;                (* reading these paths fails *)
  unwritable : gset string;                (* writing or creating these fails *)
  oracle : Oracle;
  n_iv : nat;
  n_uuid : nat;
  n_clock : nat;
  trace : list event
}.

Definition set_keysCache (v : option nat) (st : State) : State :=
  mkState (cfg_keysFilePath st) (cfg_encryptionPassword st) (machineKey st)
    (passwordKey st) v (heap st) (host st) (fs st) (unreadable st)
    (unwritable st) (oracle st) (n_iv st) (n_uuid st) (n_clock st) (trace st).

Definition set_heap (v : list (list KeyRecord)) (st : State) : State :=
  mkState (cfg_keysFilePath st) (cfg_encryptionPassword st) (machineKey st)
    (passwordKey st) (keysCache st) v (host st) (fs st) (unreadable st)
    (unwritable st) (oracle st) (n_iv st) (n_uuid st) (n_clock st) (trace st).

Definition set_fs (v : gmap string fnode) (st : State) : State :=
  mkState (cfg_keysFilePath st) (cfg_encryptionPassword st) (machineKey st)
    (passwordKey st) (keysCache st) (heap st) (host st) v (unreadable st)
    (unwritable st) (oracle st) (n_iv st) (n_uuid st) (n_clock st) (trace st).

Definition set_n_iv (v : nat) (st : State) : State :=
  mkState (cfg_keysFilePath st) (cfg_encryptionPassword st) (machineKey st)
    (passwordKey st) (keysCache st) (heap st) (host st) (fs st) (unreadable st)
    (unwritable st) (oracle st) v (n_uuid st) (n_clock st) (trace st).

Definition set_n_uuid (v : nat) (st : State) : State :=
  mkState (cfg_keysFilePath st) (cfg_encryptionPassword st) (machineKey st)
    (passwordKey st) (keysCache st) (heap st) (host st) (fs st) (unreadable st)
    (unwritable st) (oracle st) (n_iv st) v (n_clock st) (trace st).

Definition set_n_clock (v : nat) (st : State) : State :=
  mkState (cfg_keysFilePath st) (cfg_encryptionPassword st) (machineKey st)
    (passwordKey st) (keysCache st) (heap st) (host st) (fs st) (unreadable st)
    (unwritable st) (oracle st) (n_iv st) (n_uuid st) v (trace st).

Definition set_trace (v : list event) (st : State) : State :=
  mkState (cfg_keysFilePath st) (cfg_encryptionPassword st) (machineKey st)
    (passwordKey st) (keysCache st) (heap st) (host st) (fs st) (unreadable st)
    (unwritable st) (oracle st) (n_iv st) (n_uuid st) (n_clock st) v.

(** ** The monad of methods *)

(** A method runs from a state to a returned value or a thrown exception,
    and a state; what was done before a throw stays done. *)
Definition M (A : Type) : Type := State → result A * State.

Definition ret {A} (a : A) : M A := λ st, (Ok a, st).

Definition throw {A} (e : exn) : M A := λ st, (Throw e, st).

Definition bind {A B} (m : M A) (k : A → M B) : M B :=
  λ st, match m st with
        | (Ok a, st') => k a st'
        | (Throw e, st') => (Throw e, st')
        end.

(** [try { body } catch (error) { handler }] *)
Definition try_catch {A} (body : M A) (handler : exn → M A) : M A :=
  λ st, match body st with
        | (Ok a, st') => (Ok a, st')
        | (Throw e, st') => handler e st'
        end.

Definition lift_result {A} (r : result A) : M A := λ st, (r, st).

Declare Scope js_scope.
Delimit Scope js_scope with js.
Notation "'let!' x ':=' m 'in' k" := (bind m (λ x, k))
  (at level 10, x pattern, m at level 100, k at level 200) : js_scope.
Notation "'do!' m 'in' k" := (bind m (λ _, k))
  (at level 10, m at level 100, k at level 200) : js_scope.
Local Open Scope js_scope.

(** Recording an event: a file system call or a printed line. *)
Definition emit (ev : event) : M unit :=
  λ st, (Ok (), set_trace (trace st ++ [ev]) st).

(** *** Arrays *)

(** A new array. *)
Definition alloc (arr : list KeyRecord) : M nat :=
  λ st, (Ok (length (heap st)), set_heap (heap st ++ [arr]) st).

(** The current content of an array. *)
Definition deref (ref : nat) : M (list KeyRecord) :=
  λ st, (Ok (default [] (heap st !! ref)), st).

(** [arr.push(x)] *)
Definition push (ref : nat) (x : KeyRecord) : M unit :=
  λ st, (Ok (), set_heap (alter (λ arr, arr ++ [x]) ref (heap st)) st).

(** [arr.splice(i, 1)] *)
Definition splice1 (ref : nat) (i : nat) : M unit :=
  λ st, (Ok (), set_heap (alter (delete i) ref (heap st)) st).

(** [Object.assign(arr[i], ...)], as the function [f] on the record. *)
Definition assign_at (ref : nat) (i : nat) (f : KeyRecord → KeyRecord)
  : M unit :=
  λ st, (Ok (), set_heap (alter (alter f i) ref (heap st)) st).

(** [arr.findIndex(p)]: the first index that satisfies [p]; [None] stands
    for [-1]. *)
Fixpoint findIndex {A} (p : A → bool) (l : list A) : option nat :=
  match l with
  | [] => None
  | x :: l' => if p x then Some 0 else S <$> findIndex p l'
  end.

(** *** The file system *)

Definition fs_existsSync (path : string) : M bool :=
  λ st, (Ok (bool_decide (is_Some (fs st !! path))),
         set_trace (trace st ++ [IoExists path]) st).

Definition fs_mkdirpSync (path : string) : M unit :=
  λ st, let st1 := set_trace (trace st ++ [IoMkdirp path]) st in
        if bool_decide (path ∈ unwritable st) then (Throw (EIO path), st1)
        else (Ok (), set_fs (<[path := Dir []]> (fs st)) st1).

Definition fs_readFile (path : string) : M string :=
  λ st, let st1 := set_trace (trace st ++ [IoReadFile path]) st in
        match fs st !! path with
        | Some (File content) =>
            if bool_decide (path ∈ unreadable st) then (Throw (EIO path), st1)
            else (Ok content, st1)
        | _ => (Throw (EIO path), st1)
        end.

Definition fs_writeFile (path data : string) : M unit :=
  λ st, let st1 := set_trace (trace st ++ [IoWriteFile path data]) st in
        match fs st !! path with
        | Some (Dir _) => (Throw (EIO path), st1)
        | _ =>
            if bool_decide (path ∈ unwritable st) then (Throw (EIO path), st1)
            else (Ok (), set_fs (<[path := File data]> (fs st)) st1)
        end.

Definition fs_readdir (path : string) : M (list string) :=
  λ st, let st1 := set_trace (trace st ++ [IoReaddir path]) st in
        match fs st !! path with
        | Some (Dir entries) =>
            if bool_decide (path ∈ unreadable st) then (Throw (EIO path), st1)
            else (Ok entries, st1)
        | _ => (Throw (EIO path), st1)
        end.

(** *** Randomness and time *)

(** [crypto.randomBytes(16)] *)
Definition randomBytes16 : M bytes :=
  λ st, (Ok (random_iv (oracle st) (n_iv st)), set_n_iv (S (n_iv st)) st).

(** [generateId()], that is [crypto.randomUUID()] *)
Definition generateId : M string :=
  λ st, (Ok (random_uuid (oracle st) (n_uuid st)), set_n_uuid (S (n_uuid st)) st).

(** [new Date().toISOString()] *)
Definition now : M string :=
  λ st, (Ok (clock (oracle st) (n_clock st)), set_n_clock (S (n_clock st)) st).

(** ** The manager *)

(** Options of [editKey], as the command line gives them: each is a string
    or [undefined]. *)
Record EditOptions : Type := mkEditOptions {
  opt_name : option string;
  opt_tag : option string;
  opt_content : option string
}.

(** Answers to the prompts of the interactive branch of [editKey]. *)
Record EditAnswers : Type := mkEditAnswers {
  ans_name : string;
  ans_tag : string;
  ans_updateContent : bool;
  ans_content : string
}.

(** The object [updates] of [editKey]: the fields it sets. *)
Record Updates : Type := mkUpdates {
  u_name : option jsval;
  u_tag : option jsval;
  u_key : option jsval
}.

(** An entry of [scanCommonLocations]. *)
Record ScannedKey : Type := mkScannedKey {
  s_name : string;
  s_path : string;
  s_content : string;
  s_type : string
}.

(** [Object.assign(record, updates, { last_modified })] *)
Definition apply_updates (u : Updates) (last_modified : string)
  (k : KeyRecord) : KeyRecord :=
  {| k_id := k_id k;
     k_name := default (k_name k) (u_name u);
     k_tag := default (k_tag k) (u_tag u);
     k_key := default (k_key k) (u_key u);
     k_key_type := k_key_type k;
     k_created := k_created k;
     k_last_modified := VStr last_modified |}.

(** The callback [k => k.id === id] of [editKey] and [deleteKey]. *)
Definition has_id (id : string) (k : KeyRecord) : bool :=
  strict_eq (k_id k) (VStr id).

(** The checkbox prompt of [importFromScan]: the choices that are ticked,
    in the order of the choices. *)
Fixpoint ticked_choices (choices : list ScannedKey) (ticks : list bool)
  : list ScannedKey :=
  match choices, ticks with
  | c :: choices', t :: ticks' =>
      if t then c :: ticked_choices choices' ticks'
      else ticked_choices choices' ticks'
  | _, _ => []
  end.

Section Manager.
Context `{Runtime}.

(** [getMachineId()]: the host name unless empty or [localhost]; on macOS
    the computer name when the attempt to read it succeeds. *)
Definition getMachineId (h : Host) : string :=
  if negb (String.eqb (hostname h) EmptyString)
     && negb (String.eqb (hostname h) "localhost")
  then hostname h
  else
    match (if String.eqb (platform h) "darwin" then scutil_ComputerName h
           else None) with
    | Some out =>
        if negb (String.eqb (trim out) EmptyString) then trim out
        else "unknown-machine"
    | None => "unknown-machine"
    end.

(** [getMachineKey()] *)
Definition getMachineKey (h : Host) : bytes := machineKeyOf (getMachineId h).

(** [getEncryptionKey()]: [this.passwordKey || this.machineKey]. *)
Definition getEncryptionKey (st : State) : bytes :=
  default (machineKey st) (passwordKey st).

(** [getKeysFilePath()] *)
Definition getKeysFilePath : M string :=
  λ st,
    if truthy_opt (cfg_keysFilePath st)
    then (Ok (default EmptyString (cfg_keysFilePath st)), st)
    else
      let appDataDir := path_join (cwd (host st)) "data" in
      (let! found := fs_existsSync appDataDir in
       do! (if negb found then fs_mkdirpSync appDataDir else ret ()) in
       ret (path_join appDataDir "ssh_keys.enc")) st.

(** [encryptData(data)] *)
Definition encryptData (data : string) : M string :=
  λ st,
    let key := getEncryptionKey st in
    (let! iv := randomBytes16 in
     lift_result (encrypt_envelope key iv data)) st.

(** [decryptData(encryptedData)] *)
Definition decryptData (encryptedData : string) : M string :=
  λ st, (decrypt_envelope (getEncryptionKey st) encryptedData, st).

(** [this.keysCache = ref; return this.keysCache] *)
Definition cache_and_return (ref : nat) : M nat :=
  λ st, (Ok ref, set_keysCache (Some ref) st).

(** [JSON.parse] on the decrypted store. *)
Definition parse_store (s : string) : M (list KeyRecord) :=
  match JSON_parse s with
  | Some arr => ret arr
  | None => throw ESyntax
  end.

(** [loadKeys()] *)
Definition loadKeys : M nat :=
  λ st,
    match keysCache st with
    | Some ref => (Ok ref, st)
    | None =>
        (let! filePath := getKeysFilePath in
         let! found := fs_existsSync filePath in
         if negb found then
           let! ref := alloc [] in
           cache_and_return ref
         else
           try_catch
             (let! encryptedData := fs_readFile filePath in
              let! decryptedData := decryptData encryptedData in
              let! parsed := parse_store decryptedData in
              let! ref := alloc parsed in
              cache_and_return ref)
             (λ error,
               do! emit (LogError "Error loading keys:" error) in
               let! ref := alloc [] in
               cache_and_return ref)) st
    end.

(** [saveKeys(keys)] *)
Definition saveKeys (keys : nat) : M unit :=
  let! filePath := getKeysFilePath in
  let! arr := deref keys in
  let data := JSON_stringify arr in
  let! encryptedData := encryptData data in
  do! fs_writeFile filePath encryptedData in
  λ st, (Ok (), set_keysCache (Some keys) st).

(** [detectKeyType] on a field of an imported object: reading [includes]
    off [undefined] or [null] throws. *)
Definition detectKeyType_of (v : jsval) : M jsval :=
  match v with
  | VStr s => ret (VStr (detectKeyType s))
  | _ => throw ETypeError
  end.

(** The object [updates] built by [editKey]. *)
Definition edit_updates (options : EditOptions) (answers : EditAnswers)
  : Updates :=
  if negb (truthy_opt (opt_name options))
     && negb (truthy_opt (opt_tag options))
     && negb (truthy_opt (opt_content options))
  then
    {| u_name := Some (VStr (trim (ans_name answers)));
       u_tag := Some (js_or (VStr (trim (ans_tag answers))) VNull);
       u_key := if ans_updateContent answers
                then Some (VStr (trim (ans_content answers)))
                else None |}
  else
    {| u_name := if truthy_opt (opt_name options)
                 then VStr <$> opt_name options else None;
       u_tag := match opt_tag options with
                | Some t => Some (js_or (VStr t) VNull)
                | None => None
                end;
       u_key := if truthy_opt (opt_content options)
                then VStr <$> opt_content options else None |}.

(** [editKey(id, options)]; [answers] is what the user types when the
    interactive branch prompts. *)
Definition editKey (id : string) (options : EditOptions)
  (answers : EditAnswers) : M unit :=
  try_catch
    (let! keys := loadKeys in
     let! arr := deref keys in
     match findIndex (has_id id) arr with
     | None => emit (LogNotFound id)
     | Some keyIndex =>
         let updates := edit_updates options answers in
         let! last_modified := now in
         do! assign_at keys keyIndex (apply_updates updates last_modified) in
         do! saveKeys keys in
         let! arr' := deref keys in
         emit (LogUpdated (default VUndef (k_name <$> arr' !! keyIndex)))
     end)
    (λ error, emit (LogError "Error updating key:" error)).

(** [deleteKey(id, options)]; [force] is [options.force] and [confirm] the
    answer to the confirmation prompt, asked only without [force]. *)
Definition deleteKey (id : string) (force confirm : bool) : M unit :=
  try_catch
    (let! keys := loadKeys in
     let! arr := deref keys in
     match findIndex (has_id id) arr with
     | None => emit (LogNotFound id)
     | Some keyIndex =>
         let key_name := default VUndef (k_name <$> arr !! keyIndex) in
         if negb force && negb confirm then emit LogCancelled
         else
           do! splice1 keys keyIndex in
           do! saveKeys keys in
           emit (LogDeleted key_name)
     end)
    (λ error, emit (LogError "Error deleting key:" error)).

(** The duplicate rule of [importFromFile]. *)
Definition isDuplicate (existingKeys : list KeyRecord) (keyData : KeyRecord)
  : bool :=
  existsb (λ existing,
             strict_eq (k_key existing) (k_key keyData)
             || strict_eq (k_name existing) (k_name keyData))
          existingKeys.

(** The loop of [importFromFile] over the records of the document. *)
Fixpoint importFromFile_loop (existingKeys : nat) (keys : list KeyRecord)
  (importedCount duplicateCount : nat) : M (nat * nat) :=
  match keys with
  | [] => ret (importedCount, duplicateCount)
  | keyData :: keys' =>
      let! arr := deref existingKeys in
      if negb (isDuplicate arr keyData) then
        let! id := generateId in
        let! key_type :=
          (if truthy (k_key_type keyData) then ret (k_key_type keyData)
           else detectKeyType_of (k_key keyData)) in
        let! created :=
          (if truthy (k_created keyData) then ret (k_created keyData)
           else let! t := now in ret (VStr t)) in
        let! last_modified := now in
        do! push existingKeys
              {| k_id := VStr id;
                 k_name := k_name keyData;
                 k_tag := js_or (k_tag keyData) VNull;
                 k_key := k_key keyData;
                 k_key_type := key_type;
                 k_created := created;
                 k_last_modified := VStr last_modified |} in
        importFromFile_loop existingKeys keys' (S importedCount) duplicateCount
      else
        importFromFile_loop existingKeys keys' importedCount (S duplicateCount)
  end.

(** [data.keys || [data]] *)
Definition doc_keys (data : ImportDoc) : list KeyRecord :=
  match data with
  | ExportDocument keys => keys
  | SingleKey k => [k]
  end.

(** The first statement of [importFromFile]: the content of the file,
    decrypted under the key derived from [password] when one is given. *)
Definition read_import_content (filePath : string) (password : option string)
  : M string :=
  if truthy_opt password then
    let! encryptedData := fs_readFile filePath in
    let tempKey := deriveKeyFromPassword (default EmptyString password) in
    lift_result (decrypt_envelope tempKey encryptedData)
  else fs_readFile filePath.

(** [importFromFile(filePath, password)] *)
Definition importFromFile (filePath : string) (password : option string)
  : M unit :=
  try_catch
    (let! content := read_import_content filePath password in
     let! data :=
       (match JSON_parse_import content with
        | Some data => ret data
        | None => throw ESyntax
        end) in
     let keys := doc_keys data in
     let! existingKeys := loadKeys in
     let! counts := importFromFile_loop existingKeys keys 0 0 in
     do! saveKeys existingKeys in
     do! emit (LogImported (fst counts)) in
     if (0 <? snd counts)%nat then emit (LogSkippedDuplicates (snd counts))
     else ret ())
    (λ error, emit (LogError "Error importing from file:" error)).

(** The loop of [importFromDirectory] over the [.pub] files. *)
Fixpoint importFromDirectory_loop (dirPath : string) (keys : nat)
  (pubFiles : list string) (importedCount : nat) : M nat :=
  match pubFiles with
  | [] => ret importedCount
  | file :: pubFiles' =>
      let filePath := path_join dirPath file in
      let! importedCount' :=
        try_catch
          (let! content := fs_readFile filePath in
           let keyType := detectKeyType content in
           let! id := generateId in
           let! created := now in
           let! last_modified := now in
           do! push keys
                 {| k_id := VStr id;
                    k_name := VStr file;
                    k_tag := VNull;
                    k_key := VStr (trim content);
                    k_key_type := VStr keyType;
                    k_created := VStr created;
                    k_last_modified := VStr last_modified |} in
           ret (S importedCount))
          (λ error,
            do! emit (LogSkippedFile file error) in
            ret importedCount) in
      importFromDirectory_loop dirPath keys pubFiles' importedCount'
  end.

(** [importFromDirectory(dirPath)] *)
Definition importFromDirectory (dirPath : string) : M unit :=
  let! files := fs_readdir dirPath in
  let pubFiles := List.filter (λ file, endsWith file ".pub") files in
  match pubFiles with
  | [] => emit LogNoPubFiles
  | _ :: _ =>
      let! keys := loadKeys in
      let! importedCount := importFromDirectory_loop dirPath keys pubFiles 0 in
      do! saveKeys keys in
      emit (LogImported importedCount)
  end.

(** [getCommonSSHLocations()]; on Windows [path.join] throws when the
    environment variable is not set. *)
Definition getCommonSSHLocations : M (list string) :=
  λ st,
    let h := host st in
    let locations :=
      [path_join (homedir h) ".ssh";
       path_join (homedir h) "ssh";
       path_join (path_join (homedir h) "Documents") "ssh"] in
    if String.eqb (platform h) "win32" then
      match env_APPDATA h, env_LOCALAPPDATA h with
      | Some appdata, Some localappdata =>
          (Ok (locations ++ [path_join appdata "PuTTY";
                             path_join localappdata "ssh"]), st)
      | _, _ => (Throw ETypeError, st)
      end
    else (Ok locations, st).

(** The inner loop of [scanCommonLocations] over the entries of one
    location; a file that cannot be read is skipped silently. *)
Fixpoint scan_files (location : string) (files : list string)
  (foundKeys : list ScannedKey) : M (list ScannedKey) :=
  match files with
  | [] => ret foundKeys
  | file :: files' =>
      if endsWith file ".pub" then
        let filePath := path_join location file in
        let! foundKeys' :=
          try_catch
            (let! content := fs_readFile filePath in
             let keyType := detectKeyType content in
             ret (foundKeys ++ [{| s_name := file;
                                   s_path := filePath;
                                   s_content := trim content;
                                   s_type := keyType |}]))
            (λ _, ret foundKeys) in
        scan_files location files' foundKeys'
      else scan_files location files' foundKeys
  end.

(** The outer loop of [scanCommonLocations]. *)
Fixpoint scan_locations (locations : list string)
  (foundKeys : list ScannedKey) : M (list ScannedKey) :=
  match locations with
  | [] => ret foundKeys
  | location :: locations' =>
      let! found := fs_existsSync location in
      if found then
        let! files := fs_readdir location in
        let! foundKeys' := scan_files location files foundKeys in
        scan_locations locations' foundKeys'
      else scan_locations locations' foundKeys
  end.

(** [scanCommonLocations()] *)
Definition scanCommonLocations : M (list ScannedKey) :=
  let! locations := getCommonSSHLocations in
  scan_locations locations [].

(** The loop of [importFromScan] over the selected keys. *)
Fixpoint importFromScan_loop (keys : nat) (selectedKeys : list ScannedKey)
  (importedCount : nat) : M nat :=
  match selectedKeys with
  | [] => ret importedCount
  | selectedKey :: selectedKeys' =>
      let! id := generateId in
      let! created := now in
      let! last_modified := now in
      do! push keys
            {| k_id := VStr id;
               k_name := VStr (s_name selectedKey);
               k_tag := VNull;
               k_key := VStr (s_content selectedKey);
               k_key_type := VStr (s_type selectedKey);
               k_created := VStr created;
               k_last_modified := VStr last_modified |} in
      importFromScan_loop keys selectedKeys' (S importedCount)
  end.

(** [importFromScan()]; [ticks] is the answer to the checkbox prompt. *)
Definition importFromScan (ticks : list bool) : M unit :=
  let! scannedKeys := scanCommonLocations in
  match scannedKeys with
  | [] => emit LogNoKeysFound
  | _ :: _ =>
      let selectedKeys := ticked_choices scannedKeys ticks in
      match selectedKeys with
      | [] => emit LogNoneSelected
      | _ :: _ =>
          let! keys := loadKeys in
          let! importedCount := importFromScan_loop keys selectedKeys 0 in
          do! saveKeys keys in
          emit (LogImported importedCount)
      end
  end.

(** [new SSHKeyManager()] in a given world, with no cache yet and an empty
    heap. *)
Definition new_SSHKeyManager (keysFilePath encryptionPassword : option string)
  (h : Host) (files : gmap string fnode) (noread nowrite : gset string)
  (o : Oracle) : State :=
  {| cfg_keysFilePath := keysFilePath;
     cfg_encryptionPassword := encryptionPassword;
     machineKey := getMachineKey h;
     passwordKey := if truthy_opt encryptionPassword
                    then deriveKeyFromPassword <$> encryptionPassword
                    else None;
     keysCache := None;
     heap := [];
     host := h;
     fs := files;
     unreadable := noread;
     unwritable := nowrite;
     oracle := o;
     n_iv := 0;
     n_uuid := 0;
     n_clock := 0;
     trace := [] |}.

End Manager.

(** ** A small runtime to run the model *)

(** A block cipher that satisfies the laws of [RuntimeLaws]: exclusive or
    with the first 16 bytes of the key. *)
Definition xor_block_cipher (key block : bytes) : bytes :=
  xor_bytes block (take 16 key).

(** A 32-byte digest: the input cut or filled with zero bytes. *)
Definition fold32 (s : string) : bytes :=
  take 32 (String.list_ascii_of_string s ++ replicate 32 Ascii.zero).

(** [trim] on strings whose white space is the ASCII one: space, tab, line
    feed, vertical tab, form feed, carriage return. *)
Definition is_space (a : ascii) : bool :=
  let n := nat_of_ascii a in
  (n =? 32) || ((9 <=? n) && (n <=? 13)).

Fixpoint trim_start (s : string) : string :=
  match s with
  | EmptyString => EmptyString
  | String a s' => if is_space a then trim_start s' else s
  end.

Fixpoint trim_end (s : string) : string :=
  match s with
  | EmptyString => EmptyString
  | String a s' =>
      match trim_end s' with
      | EmptyString => if is_space a then EmptyString else String a EmptyString
      | r => String a r
      end
  end.

Definition ascii_trim (s : string) : string := trim_end (trim_start s).

(** Documents by table: [docs] lists the import files that parse, by
    content; the store always parses to [stored]. *)
Definition table_runtime (docs : list (string * ImportDoc))
  (stored : list KeyRecord) : Runtime :=
  {| aes_encrypt_block := xor_block_cipher;
     aes_decrypt_block := xor_block_cipher;
     sha256 := fold32;
     JSON_stringify := λ _, "[]";
     JSON_parse := λ _, Some stored;
     JSON_parse_import := λ s, snd <$> List.find (λ d, String.eqb (fst d) s) docs;
     trim := ascii_trim;
     path_join := λ a b, a +:+ "/" +:+ b |}.

(** A host, a source of randomness and time, and an empty manager on it. *)
Definition demo_host : Host :=
  {| hostname := "devbox";
     homedir := "/home/dev";
     cwd := "/work";
     platform := "linux";
     scutil_ComputerName := None;
     env_APPDATA := None;
     env_LOCALAPPDATA := None |}.

Definition demo_oracle : Oracle :=
  {| random_iv := λ n, replicate 16 (ascii_of_nat n);
     random_uuid := λ n, "uuid-" +:+ String (ascii_of_nat (48 + n)) EmptyString;
     clock := λ n, "T" +:+ String (ascii_of_nat (48 + n)) EmptyString |}.

(** The manager on a host whose data directory exists and holds no store. *)
Definition demo_state `{Runtime} : State :=
  new_SSHKeyManager None None demo_host
    {[ "/work/data" := Dir [] ]} ∅ ∅ demo_oracle.

(** A manager that has loaded the collection [arr]: a new array holds it and
    the cache refers to it. *)
Definition with_loaded (arr : list KeyRecord) (st : State) : State :=
  set_keysCache (Some (length (heap st))) (set_heap (heap st ++ [arr]) st).

(** Records for the examples. *)
Definition github_key : KeyRecord :=
  {| k_id := VStr "id-github";
     k_name := VStr "GitHub";
     k_tag := VStr "github";
     k_key := VStr "ssh-ed25519 AAAAC3NzaC1lZDI1NTE5 dev@devbox";
     k_key_type := VStr "Ed25519";
     k_created := VStr "2024-01-01T00:00:00.000Z";
     k_last_modified := VStr "2024-01-01T00:00:00.000Z" |}.

Definition laptop_rsa : KeyRecord :=
  {| k_id := VStr "id-exported-1";
     k_name := VStr "laptop";
     k_tag := VUndef;
     k_key := VStr "ssh-rsa AAAAB3NzaC1yc2E first";
     k_key_type := VStr "RSA";
     k_created := VStr "2020-05-17T10:00:00.000Z";
     k_last_modified := VStr "2020-05-17T10:00:00.000Z" |}.

Definition laptop_ed25519 : KeyRecord :=
  {| k_id := VStr "id-exported-2";
     k_name := VStr "laptop";
     k_tag := VUndef;
     k_key := VStr "ssh-ed25519 AAAAC3NzaC1lZDI1NTE5 second";
     k_key_type := VStr "Ed25519";
     k_created := VStr "2021-03-02T08:30:00.000Z";
     k_last_modified := VStr "2021-03-02T08:30:00.000Z" |}.

(** A runtime whose import parser knows an export document of the two
    records named laptop, and a document that is one bare record. *)
Definition import_runtime : Runtime :=
  table_runtime
    [("export-of-two-laptop-keys",
      ExportDocument [laptop_rsa; laptop_ed25519]);
     ("one-bare-record", SingleKey laptop_rsa)]
    [].

(** A host with an export file, a directory of public keys and a [.ssh]
    directory; [id_broken.pub] is a directory and so cannot be read as a
    file; the files named GitHub.pub hold the key of [github_key] with
    white space around it. *)
Definition demo_files : gmap string fnode :=
  {[ "/work/data" := Dir [];
     "/imports/keys.json" := File "export-of-two-laptop-keys";
     "/imports/one.json" := File "one-bare-record";
     "/keys" := Dir ["GitHub.pub"; "id_broken.pub"; "notes.txt"; "id_rsa.pub"];
     "/keys/GitHub.pub" :=
       File "  ssh-ed25519 AAAAC3NzaC1lZDI1NTE5 dev@devbox  ";
     "/keys/id_broken.pub" := Dir [];
     "/keys/notes.txt" := File "notes";
     "/keys/id_rsa.pub" := File "ssh-rsa AAAAB3NzaC1yc2E dev@devbox";
     "/home/dev/.ssh" := Dir ["GitHub.pub"; "config"];
     "/home/dev/.ssh/GitHub.pub" :=
       File "ssh-ed25519 AAAAC3NzaC1lZDI1NTE5 dev@devbox ";
     "/home/dev/.ssh/config" := File "Host *" ]}.

Definition files_state `{Runtime} : State :=
  new_SSHKeyManager None None demo_host demo_files ∅ ∅ demo_oracle.

(** A manager whose working directory is read-only and has no data
    directory yet. *)
Definition readonly_state `{Runtime} : State :=
  new_SSHKeyManager None None demo_host ∅ ∅ {[ "/work/data" ]} demo_oracle.

(** A manager whose store file cannot be written. *)
Definition unwritable_state `{Runtime} : State :=
  new_SSHKeyManager None None demo_host
    {[ "/work/data" := Dir [] ]} ∅ {[ "/work/data/ssh_keys.enc" ]}
    demo_oracle.

(** ** Vocabulary of the statements *)

(** [pat] occurs in [s] as a contiguous substring. *)
Definition occurs (pat s : string) : Prop :=
  ∃ pre post, s = pre +:+ pat +:+ post.

(** The content of the array behind a reference. *)
Definition array_at (st : State) (ref : nat) : list KeyRecord :=
  default [] (heap st !! ref).

(** The events that write a file. *)
Definition is_write (ev : event) : bool :=
  match ev with
  | IoWriteFile _ _ => true
  | _ => false
  end.

(** The records of the file at [filePath] when it can be read, decrypted
    under the key of the manager and parsed. *)
Definition disk_collection `{Runtime} (st : State) (filePath : string)
  : option (list KeyRecord) :=
  match fs st !! filePath with
  | Some (File encryptedData) =>
      if bool_decide (filePath ∈ unreadable st) then None
      else match decrypt_envelope (getEncryptionKey st) encryptedData with
           | Ok decryptedData => JSON_parse decryptedData
           | Throw _ => None
           end
  | _ => None
  end.

(** Two records match when they have the same key material or the same
    name. *)
Definition matches (existing keyData : KeyRecord) : Prop :=
  k_key existing = k_key keyData ∨ k_name existing = k_name keyData.

(** The content of a readable regular file. *)
Definition readable_file (st : State) (path : string) : option string :=
  match fs st !! path with
  | Some (File content) =>
      if bool_decide (path ∈ unreadable st) then None else Some content
  | _ => None
  end.

(** The cache, when there is one, refers to an array of the heap. *)
Definition cache_valid (st : State) : Prop :=
  ∀ ref, keysCache st = Some ref → is_Some (heap st !! ref).

(** The merge of [importFromFile], one record of the document at a time:
    [import_steps o nu nc arr keys nu' nc' arr' i d] relates the counters of
    the generator of ids and of the clock and the array before the records
    [keys] are examined to the counters and the array afterwards, with the
    number [i] of records imported and the number [d] of duplicates. *)
Inductive import_steps (o : Oracle) :
  nat → nat → list KeyRecord → list KeyRecord →
  nat → nat → list KeyRecord → nat → nat → Prop :=
| import_steps_done nu nc arr :
    import_steps o nu nc arr [] nu nc arr 0 0
| import_steps_duplicate nu nc arr keyData keys nu' nc' arr' i d :
    (∃ existing, existing ∈ arr ∧ matches existing keyData) →
    import_steps o nu nc arr keys nu' nc' arr' i d →
    import_steps o nu nc arr (keyData :: keys) nu' nc' arr' i (S d)
| import_steps_new nu nc arr keyData keys nu' nc' arr' i d newKey nc1 :
    (∀ existing, existing ∈ arr → ¬ matches existing keyData) →
    k_id newKey = VStr (random_uuid o nu) →
    k_name newKey = k_name keyData →
    k_key newKey = k_key keyData →
    k_tag newKey = (if truthy (k_tag keyData) then k_tag keyData else VNull) →
    (if truthy (k_key_type keyData)
     then k_key_type newKey = k_key_type keyData
     else ∃ s, k_key keyData = VStr s
               ∧ k_key_type newKey = VStr (detectKeyType s)) →
    (if truthy (k_created keyData)
     then k_created newKey = k_created keyData ∧ nc1 = nc
     else k_created newKey = VStr (clock o nc) ∧ nc1 = S nc) →
    k_last_modified newKey = VStr (clock o nc1) →
    import_steps o (S nu) (S nc1) (arr ++ [newKey]) keys nu' nc' arr' i d →
    import_steps o nu nc arr (keyData :: keys) nu' nc' arr' (S i) d.

(** The files of [files] that can be read in the directory [dirPath], with
    their content. *)
Definition readable_in `{Runtime} (st : State) (dirPath : string)
  (files : list string) : list (string * string) :=
  omap (λ file, (λ content, (file, content))
                  <$> readable_file st (path_join dirPath file))
       files.

(** What a record says of a key: its name, material and type. *)
Definition key_facts (k : KeyRecord) : jsval * jsval * jsval :=
  (k_name k, k_key k, k_key_type k).

(** The last character of a string. *)
Fixpoint last_char (s : string) : option ascii :=
  match s with
  | EmptyString => None
  | String a EmptyString => Some a
  | String _ s' => last_char s'
  end.

(** ** The rest of the manager *)

(** The methods below print lines for which [event] has no constructor.
    Their model returns a report that says which exit the method took, and
    so what it printed; the lines [event] knows are recorded in the trace as
    before. *)




(** [JSON.stringify(exportData, null, 2)] on the document
    [{exported_at, total_keys, keys}] of [exportKeys]. *)
Class ExportRuntime : Type := {
  JSON_stringify_export : string → nat → list KeyRecord → string
}.

(** Options of [addKey]: [name], [tag] and [content], each a string or
    [undefined]. *)
Record AddOptions : Type := mkAddOptions {
  add_name : option string;
  add_tag : option string;
  add_content : option string
}.

(** The source chosen at the prompt of [addKey]: the content typed in the
    editor, a path to read, or the index of the choice picked among the
    scanned keys. *)
Inductive AddSource : Type :=
| AddManual (content : string)
| AddFromFile (filePath : string)
| AddFromScan (choice : nat).

(** Answers to the prompts of the interactive branch of [addKey]. *)
Record AddAnswers : Type := mkAddAnswers {
  aa_name : string;
  aa_tag : string;
  aa_source : AddSource
}.

(** The exits of [addKey]. *)
Inductive AddReport : Type :=
| AddAdded (newKey : KeyRecord)   (* SSH key ... added successfully! *)
| AddNothingScanned               (* No SSH keys found in common locations. *)
| AddContentRequired              (* Error adding key: Key content is required *)
| AddFailed (e : exn).            (* Error adding key: ... *)

(** Options of [exportKeys]; [options.all] is declared by the command line
    and never read. *)
Record ExportOptions : Type := mkExportOptions {
  exp_id : option string;
  exp_file : option string;
  exp_password : option string
}.

(** The exits of [exportKeys]. *)
Inductive ExportReport : Type :=
| ExportNoKeys                                   (* No keys to export. *)
| ExportNotFound                                 (* Key with ID ... not found. *)
| Exported (count : nat) (outputPath : string) (encrypted : bool)
                                                 (* Exported ... keys to ... *)
| ExportFailed (e : exn).                        (* Error exporting keys: ... *)

(** The exits of [copyKey]; [Copied text name] says that [text] was written
    to the clipboard. *)
Inductive CopyReport : Type :=
| Copied (text : string) (name : jsval)   (* SSH key ... copied to clipboard! *)
| CopyNotFound                            (* Key with ID ... not found. *)
| CopyFailed (e : exn).                   (* Error copying key: ... *)

(** Options of [importKeys]. *)
Record ImportOptions : Type := mkImportOptions {
  imp_file : option string;
  imp_directory : option string;
  imp_password : option string
}.

(** Answers to the prompts of [importKeys]: the kind of import, the path
    typed for a file or a directory, the boxes ticked for a scan. *)
Inductive ImportType : Type :=
| ImportTypeFile
| ImportTypeDirectory
| ImportTypeScan.

Record ImportAnswers : Type := mkImportAnswers {
  ia_importType : ImportType;
  ia_path : string;
  ia_ticks : list bool
}.




(** The exits of [scanKeys]. *)
Inductive ScanReport : Type :=
| ScanNothing                             (* No SSH keys found in common locations. *)
| ScanFound (foundKeys : list ScannedKey) (* Found ... SSH keys: ... *)
| ScanFailed (e : exn).                   (* Error scanning keys: ... *)

Section ManagerRest.
Context `{Runtime} `{ExportRuntime}.

(** The first part of [addKey]: the name, the tag and the content of the
    key, from the options when [name] and [content] are both given and from
    the prompts otherwise; [None] when the scan found nothing and the
    method returns. *)
Definition addKey_input (options : AddOptions) (answers : AddAnswers)
  : M (option (string * option string * string)) :=
  if negb (truthy_opt (add_name options))
     || negb (truthy_opt (add_content options))
  then
    let name := aa_name answers in
    let tag := if truthy_opt (Some (aa_tag answers))
               then Some (aa_tag answers) else None in
    match aa_source answers with
    | AddManual content => ret (Some (name, tag, trim content))
    | AddFromFile filePath =>
        let! keyContent := fs_readFile filePath in
        ret (Some (name, tag, keyContent))
    | AddFromScan choice =>
        let! scannedKeys := scanCommonLocations in
        match scannedKeys with
        | [] => do! emit LogNoKeysFound in ret None
        | _ :: _ =>
            match scannedKeys !! choice with
            | Some selectedKey => ret (Some (name, tag, s_content selectedKey))
            | None => throw EPrompt
            end
        end
    end
  else
    ret (Some (default EmptyString (add_name options),
               add_tag options,
               default EmptyString (add_content options))).

(** [addKey(options)]; the error thrown on an empty content is caught by
    the method itself, which prints it. *)
Definition addKey (options : AddOptions) (answers : AddAnswers)
  : M AddReport :=
  try_catch
    (let! input := addKey_input options answers in
     match input with
     | None => ret AddNothingScanned
     | Some (name, tag, keyContent) =>
         if String.eqb keyContent EmptyString
            || String.eqb (trim keyContent) EmptyString
         then ret AddContentRequired
         else
           let keyType := detectKeyType keyContent in
           let! created := now in
           let! id := generateId in
           let newKey :=
             {| k_id := VStr id;
                k_name := VStr (trim name);
                k_tag := if truthy_opt tag
                         then VStr (trim (default EmptyString tag))
                         else VNull;
                k_key := VStr (trim keyContent);
                k_key_type := VStr keyType;
                k_created := VStr created;
                k_last_modified := VStr created |} in
           let! keys := loadKeys in
           do! push keys newKey in
           do! saveKeys keys in
           ret (AddAdded newKey)
     end)
    (λ error,
      do! emit (LogError "Error adding key:" error) in
      ret (AddFailed error)).

(** [copyKey(id)]; [clipboard_ok] says whether the clipboard accepts the
    write. *)
Definition copyKey (id : string) (clipboard_ok : bool) : M CopyReport :=
  try_catch
    (let! keys := loadKeys in
     let! arr := deref keys in
     match List.find (has_id id) arr with
     | None => do! emit (LogNotFound id) in ret CopyNotFound
     | Some key =>
         match k_key key with
         | VStr text =>
             if clipboard_ok then ret (Copied text (k_name key))
             else throw (EIO "clipboard")
         | _ => throw ETypeError
         end
     end)
    (λ error,
      do! emit (LogError "Error copying key:" error) in
      ret (CopyFailed error)).

(** [scanKeys(options)]: the loops of [scanCommonLocations], written out
    a second time in the source, inside a [try]; [options.path] is declared
    by the command line and never read. *)
Definition scanKeys : M ScanReport :=
  try_catch
    (let! locations := getCommonSSHLocations in
     let! foundKeys := scan_locations locations [] in
     match foundKeys with
     | [] => ret ScanNothing
     | _ :: _ => ret (ScanFound foundKeys)
     end)
    (λ error,
      do! emit (LogError "Error scanning keys:" error) in
      ret (ScanFailed error)).

(** [importKeys(options)]; [answers] is what the user picks and types when
    neither a file nor a directory is given. *)
Definition importKeys (options : ImportOptions) (answers : ImportAnswers)
  : M unit :=
  try_catch
    (if truthy_opt (imp_file options) then
       importFromFile (default EmptyString (imp_file options))
         (imp_password options)
     else if truthy_opt (imp_directory options) then
       importFromDirectory (default EmptyString (imp_directory options))
     else
       match ia_importType answers with
       | ImportTypeFile => importFromFile (ia_path answers) None
       | ImportTypeDirectory => importFromDirectory (ia_path answers)
       | ImportTypeScan => importFromScan (ia_ticks answers)
       end)
    (λ error, emit (LogError "Error importing keys:" error)).

(** [exportKeys(options)]; [answer_filePath] is the path typed when no file
    is given, at a prompt whose default reads the clock. *)
Definition exportKeys (options : ExportOptions) (answer_filePath : string)
  : M ExportReport :=
  try_catch
    (let! keys := loadKeys in
     let! arr := deref keys in
     match arr with
     | [] => ret ExportNoKeys
     | _ :: _ =>
         let! keysToExport :=
           (if truthy_opt (exp_id options) then
              match List.find (has_id (default EmptyString (exp_id options)))
                      arr with
              | None =>
                  do! emit (LogNotFound (default EmptyString (exp_id options)))
                  in ret None
              | Some key => ret (Some [key])
              end
            else ret (Some arr)) in
         match keysToExport with
         | None => ret ExportNotFound
         | Some keysToExport =>
             let! outputPath :=
               (if truthy_opt (exp_file options)
                then ret (default EmptyString (exp_file options))
                else let! today := now in ret answer_filePath) in
             let! exported_at := now in
             let data :=
               JSON_stringify_export exported_at (length keysToExport)
                 keysToExport in
             if truthy_opt (exp_password options) then
               let tempKey :=
                 deriveKeyFromPassword
                   (default EmptyString (exp_password options)) in
               let! iv := randomBytes16 in
               let! encryptedData :=
                 lift_result (encrypt_envelope tempKey iv data) in
               do! fs_writeFile outputPath encryptedData in
               ret (Exported (length keysToExport) outputPath true)
             else
               do! fs_writeFile outputPath data in
               ret (Exported (length keysToExport) outputPath false)
         end
     end)
    (λ error,
      do! emit (LogError "Error exporting keys:" error) in
      ret (ExportFailed error)).





End ManagerRest.

(** ** Vocabulary of the further properties *)

(** No two records of the list match: names are pairwise distinct, and so
    is the key material. *)
Definition no_match_pairs (l : list KeyRecord) : Prop :=
  ∀ i j a b, l !! i = Some a → l !! j = Some b → matches a b → i = j.

(** The name and the key material of a record. *)
Definition name_and_key (k : KeyRecord) : jsval * jsval := (k_name k, k_key k).

(** A record on which the loop of [importFromFile] throws when it comes to
    import it: it has no usable [key_type] and its [key] is not a string. *)
Definition untyped_record (keyData : KeyRecord) : Prop :=
  truthy (k_key_type keyData) = false ∧ ∀ s, k_key keyData ≠ VStr s.

(** The entry that a scan makes of a file and its content. *)
Definition scanned_entry `{Runtime} (location : string)
  (fc : string * string) : ScannedKey :=
  {| s_name := fc.1;
     s_path := path_join location fc.1;
     s_content := trim fc.2;
     s_type := detectKeyType fc.2 |}.

(** The keys of one location: the [.pub] entries of the directory that can
    be read as files, in the order of the directory. *)
Definition location_keys `{Runtime} (st : State) (location : string)
  : list ScannedKey :=
  match fs st !! location with
  | Some (Dir entries) =>
      scanned_entry location
        <$> readable_in st location
              (List.filter (λ file, endsWith file ".pub") entries)
  | _ => []
  end.

(** A location that a scan can go through: it does not exist, or it is a
    directory that can be listed. *)
Definition scannable (st : State) (location : string) : Prop :=
  match fs st !! location with
  | Some (Dir _) => location ∉ unreadable st
  | Some (File _) => False
  | None => True
  end.

(** Two states that differ at most by their trace. *)
Definition same_but_trace (st st' : State) : Prop :=
  ∃ evs, st' = set_trace (trace st ++ evs) st.

(** The record that [addKey] builds from a name, a tag and a content, with
    the id and the date it drew. *)
Definition added_record `{Runtime} (name : string) (tag : option string)
  (keyContent id created : string) : KeyRecord :=
  {| k_id := VStr id;
     k_name := VStr (trim name);
     k_tag := if truthy_opt tag then VStr (trim (default EmptyString tag))
              else VNull;
     k_key := VStr (trim keyContent);
     k_key_type := VStr (detectKeyType keyContent);
     k_created := VStr created;
     k_last_modified := VStr created |}.

(** Two states of a manager with the same configuration and keys, on the
    same host, with the same permissions and the same source of randomness
    and time, read as far. *)
Definition same_setup (st st' : State) : Prop :=
  cfg_keysFilePath st' = cfg_keysFilePath st
  ∧ cfg_encryptionPassword st' = cfg_encryptionPassword st
  ∧ machineKey st' = machineKey st
  ∧ passwordKey st' = passwordKey st
  ∧ host st' = host st
  ∧ unreadable st' = unreadable st
  ∧ unwritable st' = unwritable st
  ∧ oracle st' = oracle st
  ∧ n_iv st' = n_iv st
  ∧ n_uuid st' = n_uuid st
  ∧ n_clock st' = n_clock st.

(** The records that [exportKeys] selects in a store: the first record that
    has the id when an id is given, all of them otherwise. *)
Definition export_selection (options : ExportOptions) (arr : list KeyRecord)
  : option (list KeyRecord) :=
  if truthy_opt (exp_id options)
  then (λ key, [key])
         <$> List.find (has_id (default EmptyString (exp_id options))) arr
  else Some arr.

(** The path that [exportKeys] writes. *)
Definition export_path (options : ExportOptions) (answer_filePath : string)
  : string :=
  if truthy_opt (exp_file options) then default EmptyString (exp_file options)
  else answer_filePath.

(** The keys of a manager are the ones its configuration and its host give:
    the machine key is the key of the host, and the password key is derived
    from the configured password when there is one. *)
Definition key_follows_config `{Runtime} (st : State) : Prop :=
  machineKey st = getMachineKey (host st)
  ∧ passwordKey st
    = (if truthy_opt (cfg_encryptionPassword st)
       then deriveKeyFromPassword <$> cfg_encryptionPassword st
       else None).

(** *** Runtimes and hosts for the examples of the further properties *)

(** A runtime whose store parser reads the one record [github_key]. *)
Definition github_runtime : Runtime := table_runtime [] [github_key].




(** A manager whose store file holds what is no envelope. *)
Definition garbage_state `{Runtime} : State :=
  new_SSHKeyManager None None demo_host
    {[ "/work/data" := Dir [];
       "/work/data/ssh_keys.enc" := File "not an envelope" ]}
    ∅ ∅ demo_oracle.

(** A host where [ssh] in the home directory is a file. *)
Definition blocked_state `{Runtime} : State :=
  new_SSHKeyManager None None demo_host
    (<["/home/dev/ssh" := File "not a directory"]> demo_files)
    ∅ ∅ demo_oracle.

(** Another host, with another name. *)
Definition other_host : Host :=
  {| hostname := "otherbox";
     homedir := "/home/ops";
     cwd := "/srv";
     platform := "linux";
     scutil_ComputerName := None;
     env_APPDATA := None;
     env_LOCALAPPDATA := None |}.

(** A serialisation of export documents that keeps the date only. *)
Definition demo_export : ExportRuntime :=
  {| JSON_stringify_export := λ exported_at _ _, "export-at-" +:+ exported_at |}.

(** *** Listing *)

(** [s.toLowerCase()] *)
Class TextRuntime : Type := {
  toLowerCase : string → string
}.

(** Options of [listKeys]. *)
Record ListOptions : Type := mkListOptions {
  lo_search : option string;
  lo_tag : option string;
  lo_type : option string
}.

(** The exits of [listKeys]. The lines printed for the records that come
    before the one on which the display throws are not recorded. *)
Inductive ListReport : Type :=
| ListEmpty                             (* No SSH keys found. *)
| ListNoMatch                           (* No keys match the specified criteria. *)
| Listed (shown : list KeyRecord)       (* SSH Keys (... found): ... *)
| ListFailed (e : exn).                 (* Error listing keys: ... *)

(** [arr.filter(callback)] for a callback that may throw. *)
Fixpoint filter_throwing (callback : KeyRecord → result bool)
  (arr : list KeyRecord) : result (list KeyRecord) :=
  match arr with
  | [] => Ok []
  | key :: arr' =>
      match callback key with
      | Throw e => Throw e
      | Ok keep =>
          match filter_throwing callback arr' with
          | Throw e => Throw e
          | Ok kept => Ok (if keep then key :: kept else kept)
          end
      end
  end.

Section ManagerList.
Context `{Runtime} `{TextRuntime}.

(** The callback of the search filter:
    [key.name.toLowerCase().includes(searchTerm) ||
     (key.tag && key.tag.toLowerCase().includes(searchTerm)) ||
     key.key_type.toLowerCase().includes(searchTerm)];
    reading [toLowerCase] off [undefined] or [null] throws. *)
Definition search_callback (searchTerm : string) (key : KeyRecord)
  : result bool :=
  match k_name key with
  | VStr name =>
      if includes (toLowerCase name) searchTerm then Ok true
      else if match k_tag key with
              | VStr tag =>
                  truthy (k_tag key) && includes (toLowerCase tag) searchTerm
              | _ => false
              end
      then Ok true
      else match k_key_type key with
           | VStr key_type => Ok (includes (toLowerCase key_type) searchTerm)
           | _ => Throw ETypeError
           end
  | _ => Throw ETypeError
  end.

(** The callback of the tag filter:
    [key.tag && key.tag.toLowerCase() === options.tag.toLowerCase()]. *)
Definition tag_callback (tag : string) (key : KeyRecord) : bool :=
  match k_tag key with
  | VStr key_tag =>
      truthy (k_tag key) && String.eqb (toLowerCase key_tag) (toLowerCase tag)
  | _ => false
  end.

(** The callback of the type filter:
    [key.key_type.toLowerCase() === options.type.toLowerCase()]. *)
Definition type_callback (type : string) (key : KeyRecord) : result bool :=
  match k_key_type key with
  | VStr key_type => Ok (String.eqb (toLowerCase key_type) (toLowerCase type))
  | _ => Throw ETypeError
  end.

(** The display of one record: the template strings and [new Date(...)]
    accept any value; [key.key.substring(0, 50)] throws unless the key is a
    string. *)
Definition display_callback (key : KeyRecord) : result bool :=
  match k_key key with
  | VStr _ => Ok true
  | _ => Throw ETypeError
  end.

(** [listKeys(options)] *)
Definition listKeys (options : ListOptions) : M ListReport :=
  try_catch
    (let! keys := loadKeys in
     let! arr := deref keys in
     match arr with
     | [] => ret ListEmpty
     | _ :: _ =>
         let! searched :=
           (if truthy_opt (lo_search options) then
              let searchTerm :=
                toLowerCase (default EmptyString (lo_search options)) in
              lift_result (filter_throwing (search_callback searchTerm) arr)
            else ret arr) in
         let tagged :=
           if truthy_opt (lo_tag options)
           then List.filter
                  (tag_callback (default EmptyString (lo_tag options)))
                  searched
           else searched in
         let! filteredKeys :=
           (if truthy_opt (lo_type options) then
              lift_result
                (filter_throwing
                   (type_callback (default EmptyString (lo_type options)))
                   tagged)
            else ret tagged) in
         match filteredKeys with
         | [] => ret ListNoMatch
         | _ :: _ =>
             let! shown :=
               lift_result (filter_throwing display_callback filteredKeys) in
             ret (Listed shown)
         end
     end)
    (λ error,
      do! emit (LogError "Error listing keys:" error) in
      ret (ListFailed error)).

End ManagerList.

(** *** Vocabulary of the listing *)

(** A record whose name, type and key are strings. *)
Definition well_formed (key : KeyRecord) : Prop :=
  (∃ s, k_name key = VStr s) ∧ (∃ s, k_key_type key = VStr s)
  ∧ (∃ s, k_key key = VStr s).

(** The tag of a record as a string; no tag, an empty tag and [null] give
    the empty string. *)
Definition tag_text (key : KeyRecord) : string :=
  match k_tag key with
  | VStr tag => tag
  | _ => EmptyString
  end.

(** The text of a field that holds a string. *)
Definition text_of (v : jsval) : string :=
  match v with
  | VStr s => s
  | _ => EmptyString
  end.

(** The criteria of [listKeys], as the options of the command describe
    them: the search term occurs, whatever the case, in the name, in the tag
    or in the type; the tag is the one asked for, whatever the case; the
    type is the one asked for, whatever the case. *)
Definition wanted `{TextRuntime} (options : ListOptions) (key : KeyRecord)
  : bool :=
  (if truthy_opt (lo_search options) then
     let term := toLowerCase (default EmptyString (lo_search options)) in
     includes (toLowerCase (text_of (k_name key))) term
     || (negb (String.eqb (tag_text key) EmptyString)
         && includes (toLowerCase (tag_text key)) term)
     || includes (toLowerCase (text_of (k_key_type key))) term
   else true)
  && (if truthy_opt (lo_tag options) then
        negb (String.eqb (tag_text key) EmptyString)
        && String.eqb (toLowerCase (tag_text key))
             (toLowerCase (default EmptyString (lo_tag options)))
      else true)
  && (if truthy_opt (lo_type options) then
        String.eqb (toLowerCase (text_of (k_key_type key)))
          (toLowerCase (default EmptyString (lo_type options)))
      else true).

(** *** A runtime for the examples of the listing *)

(** [toLowerCase] on ASCII text. *)
Definition lower_ascii (a : ascii) : ascii :=
  let n := nat_of_ascii a in
  if (65 <=? n) && (n <=? 90) then ascii_of_nat (n + 32) else a.

Fixpoint ascii_lower (s : string) : string :=
  match s with
  | EmptyString => EmptyString
  | String a s' => String (lower_ascii a) (ascii_lower s')
  end.

Definition demo_text : TextRuntime := {| toLowerCase := ascii_lower |}.

(** * Properties *)

(** ** Strings *)

Lemma prefix_spec (p s : string) :
  String.prefix p s = true ↔ ∃ post, s = p +:+ post.
Proof.
  revert s. induction p as [|a p IH]; intros s.
  - destruct s; simpl; (split; [intros _; eauto | done]).
  - destruct s as [|b s]; simpl.
    + split; [done | intros [post Hpost]; discriminate].
    + destruct (ascii_dec a b) as [->|Hne].
      * rewrite IH. split; intros [post Hpost]; exists post.
        -- by rewrite Hpost.
        -- by injection Hpost.
      * split; [done | intros [post Hpost]; injection Hpost; congruence].
Qed.

Lemma includes_unfold (s pat : string) :
  includes s pat =
  if String.prefix pat s then true
  else match s with
       | EmptyString => false
       | String _ s' => includes s' pat
       end.
Proof. by destruct s. Qed.

Lemma includes_spec (s pat : string) :
  includes s pat = true ↔ occurs pat s.
Proof.
  induction s as [|a s IH]; rewrite includes_unfold.
  - destruct (String.prefix pat EmptyString) eqn:Hp.
    + split; [intros _ | done].
      apply prefix_spec in Hp as [post Hpost]. by exists EmptyString, post.
    + split; [done |].
      intros [pre [post Heq]]. destruct pre; [|discriminate].
      assert (String.prefix pat EmptyString = true) as Hp'
        by (apply prefix_spec; eauto).
      congruence.
  - destruct (String.prefix pat (String a s)) eqn:Hp.
    + split; [intros _ | done].
      apply prefix_spec in Hp as [post Hpost]. by exists EmptyString, post.
    + rewrite IH. split.
      * intros [pre [post Heq]]. exists (String a pre), post.
        by rewrite Heq.
      * intros [pre [post Heq]]. destruct pre as [|b pre].
        -- assert (String.prefix pat (String a s) = true) as Hp'
             by (apply prefix_spec; eauto).
           congruence.
        -- injection Heq as _ Heq. by exists pre, post.
Qed.

Lemma includes_false_spec (s pat : string) :
  includes s pat = false ↔ ¬ occurs pat s.
Proof.
  rewrite <- includes_spec. destruct (includes s pat); split; congruence.
Qed.

(** ** KeyTypeClassifier *)

(** C7. [detectKeyType] is a function defined on every string, and its
    value is fixed by which of the four markers occur in the string as
    substrings, tried in the order ssh-rsa, ssh-dss, ecdsa-sha2,
    ssh-ed25519: the answer is the family of the first marker that occurs,
    and Unknown when none occurs. *)
Theorem detectKeyType_first_marker (keyContent : string) :
  (occurs "ssh-rsa" keyContent ∧ detectKeyType keyContent = "RSA")
  ∨ (¬ occurs "ssh-rsa" keyContent ∧ occurs "ssh-dss" keyContent
     ∧ detectKeyType keyContent = "DSA")
  ∨ (¬ occurs "ssh-rsa" keyContent ∧ ¬ occurs "ssh-dss" keyContent
     ∧ occurs "ecdsa-sha2" keyContent
     ∧ detectKeyType keyContent = "ECDSA")
  ∨ (¬ occurs "ssh-rsa" keyContent ∧ ¬ occurs "ssh-dss" keyContent
     ∧ ¬ occurs "ecdsa-sha2" keyContent
     ∧ occurs "ssh-ed25519" keyContent
     ∧ detectKeyType keyContent = "Ed25519")
  ∨ (¬ occurs "ssh-rsa" keyContent ∧ ¬ occurs "ssh-dss" keyContent
     ∧ ¬ occurs "ecdsa-sha2" keyContent
     ∧ ¬ occurs "ssh-ed25519" keyContent
     ∧ detectKeyType keyContent = "Unknown").
Proof.
  unfold detectKeyType.
  destruct (includes keyContent "ssh-rsa") eqn:Hrsa.
  { left. apply includes_spec in Hrsa. done. }
  right. apply includes_false_spec in Hrsa.
  destruct (includes keyContent "ssh-dss") eqn:Hdss.
  { left. apply includes_spec in Hdss. done. }
  right. apply includes_false_spec in Hdss.
  destruct (includes keyContent "ecdsa-sha2") eqn:Hec.
  { left. apply includes_spec in Hec. done. }
  right. apply includes_false_spec in Hec.
  destruct (includes keyContent "ssh-ed25519") eqn:Hed.
  { left. apply includes_spec in Hed. done. }
  right. apply includes_false_spec in Hed. done.
Qed.

(** The examples of the classifier. *)
Example detectKeyType_rsa :
  detectKeyType "ssh-rsa AAAAB3NzaC1yc2EAAAADAQABAAABAQC..." = "RSA".
Proof. reflexivity. Qed.

Example detectKeyType_ed25519 :
  detectKeyType "ssh-ed25519 AAAAC3NzaC1lZDI1NTE5AAAAI..." = "Ed25519".
Proof. reflexivity. Qed.

Example detectKeyType_ecdsa :
  detectKeyType "ecdsa-sha2-nistp256 AAAAE2VjZHNhLXNoYTItbmlzdHAyNTYAAAAI" = "ECDSA".
Proof. reflexivity. Qed.

Example detectKeyType_garbage : detectKeyType "garbage" = "Unknown".
Proof. reflexivity. Qed.

(** The order matters when two markers occur. *)
Example detectKeyType_priority :
  detectKeyType "ssh-ed25519 AAAA comment ssh-rsa" = "RSA".
Proof. reflexivity. Qed.

(** ** Buffers *)

Lemma xor_ascii_cancel (a b : ascii) : xor_ascii (xor_ascii a b) b = a.
Proof.
  destruct a as [a0 a1 a2 a3 a4 a5 a6 a7], b as [b0 b1 b2 b3 b4 b5 b6 b7].
  simpl. by rewrite !xorb_assoc, !xorb_nilpotent, !xorb_false_r.
Qed.

Lemma xor_bytes_length (x y : bytes) :
  length x = length y → length (xor_bytes x y) = length x.
Proof.
  revert y. induction x as [|a x IH]; intros [|b y] Hlen; simpl in *;
    try done. f_equal. apply IH. lia.
Qed.

Lemma xor_bytes_cancel (x y : bytes) :
  length x = length y → xor_bytes (xor_bytes x y) y = x.
Proof.
  revert y. induction x as [|a x IH]; intros [|b y] Hlen; simpl in *;
    try done. rewrite xor_ascii_cancel. f_equal. apply IH. lia.
Qed.

Lemma hex_byte_roundtrip (a : ascii) :
  hex_val (hex_digit (N_of_ascii a / 16)) = Some (N_of_ascii a / 16)%N
  ∧ hex_val (hex_digit (N_of_ascii a mod 16)) = Some (N_of_ascii a mod 16)%N
  ∧ ascii_of_N (16 * (N_of_ascii a / 16) + N_of_ascii a mod 16) = a.
Proof.
  destruct a as [[] [] [] [] [] [] [] []]; vm_compute; done.
Qed.

Lemma hex_digit_not_colon (a : ascii) :
  hex_digit (N_of_ascii a / 16) ≠ ":"%char
  ∧ hex_digit (N_of_ascii a mod 16) ≠ ":"%char.
Proof.
  destruct a as [[] [] [] [] [] [] [] []]; vm_compute; done.
Qed.

Lemma hex_decode_encode (b : bytes) : hex_decode (hex_encode b) = b.
Proof.
  induction b as [|a b IH]; [done|]. simpl.
  destruct (hex_byte_roundtrip a) as (-> & -> & ->). by rewrite IH.
Qed.

Lemma js_split_hex_encode (b : bytes) :
  js_split ":" (hex_encode b) = [hex_encode b].
Proof.
  induction b as [|a b IH]; [done|]. simpl.
  destruct (hex_digit_not_colon a) as [Hhi Hlo].
  apply Ascii.eqb_neq in Hhi, Hlo. rewrite Hhi, Hlo, IH. done.
Qed.

Lemma js_split_envelope (iv ct : bytes) :
  js_split ":" (hex_encode iv +:+ ":" +:+ hex_encode ct)
  = [hex_encode iv; hex_encode ct].
Proof.
  induction iv as [|a iv IH].
  - change (js_split ":" (String ":" (hex_encode ct))
            = [EmptyString; hex_encode ct]).
    simpl. by rewrite js_split_hex_encode.
  - change (js_split ":"
              (String (hex_digit (N_of_ascii a / 16))
                 (String (hex_digit (N_of_ascii a mod 16))
                    (hex_encode iv +:+ ":" +:+ hex_encode ct)))
            = [hex_encode (a :: iv); hex_encode ct]).
    simpl. destruct (hex_digit_not_colon a) as [Hhi Hlo].
    apply Ascii.eqb_neq in Hhi, Hlo. rewrite Hhi, Hlo, IH. done.
Qed.

(** ** Blocks *)

Lemma chunks_concat (n fuel : nat) (l : bytes) :
  0 < n → length l ≤ fuel → concat (chunks n fuel l) = l.
Proof.
  intros Hn. revert l. induction fuel as [|fuel IH]; intros l Hlen.
  - destruct l; [done | simpl in Hlen; lia].
  - destruct l as [|a l]; [done|].
    cbn [chunks concat]. rewrite IH.
    + apply take_drop.
    + rewrite length_drop. simpl in *. lia.
Qed.

Lemma chunks_S (n fuel : nat) (l : bytes) :
  l ≠ [] → chunks n (S fuel) l = take n l :: chunks n fuel (drop n l).
Proof. by destruct l. Qed.

Lemma chunks_blocks (fuel : nat) (blocks : list bytes) :
  Forall (λ b, length b = 16) blocks →
  length blocks ≤ fuel →
  chunks 16 fuel (concat blocks) = blocks.
Proof.
  revert blocks. induction fuel as [|fuel IH]; intros blocks Hall Hlen.
  - destruct blocks; [done | simpl in Hlen; lia].
  - destruct blocks as [|b blocks]; [done|].
    inversion Hall as [|? ? Hb Hall']; subst.
    simpl concat. rewrite chunks_S.
    + rewrite <- Hb at 1 3.
      rewrite take_app_length, drop_app_length. f_equal.
      apply IH; [done | simpl in Hlen; lia].
    + intros Heq. apply (f_equal length) in Heq.
      rewrite length_app in Heq. simpl in Heq. lia.
Qed.

Lemma chunks_Forall_length (fuel : nat) (l : bytes) :
  length l mod 16 = 0 →
  Forall (λ b, length b = 16) (chunks 16 fuel l).
Proof.
  revert l. induction fuel as [|fuel IH]; intros l Hmod; [constructor|].
  destruct l as [|a l]; [constructor|].
  assert (16 ≤ length (a :: l)) as Hge.
  { destruct (Nat.lt_ge_cases (length (a :: l)) 16) as [Hlt|]; [|done].
    rewrite Nat.mod_small in Hmod by done. simpl in Hmod. lia. }
  cbn [chunks]. constructor.
  - rewrite length_take. lia.
  - apply IH. rewrite length_drop.
    replace (length (a :: l)) with ((length (a :: l) - 16) + 1 * 16) in Hmod
      by lia.
    by rewrite Nat.Div0.mod_add in Hmod.
Qed.

Lemma chunks_length_le (fuel : nat) (l : bytes) :
  length (chunks 16 fuel l) ≤ fuel.
Proof.
  revert l. induction fuel as [|fuel IH]; intros l; [done|].
  destruct l; simpl; [lia|]. specialize (IH (drop 16 (a :: l))). 
  simpl in IH. lia.
Qed.

Lemma concat_blocks_length (blocks : list bytes) :
  Forall (λ b, length b = 16) blocks →
  length (concat blocks) = 16 * length blocks.
Proof.
  induction 1 as [|b blocks Hb _ IH]; [done|].
  simpl. rewrite length_app, IH. lia.
Qed.

(** ** PKCS#7 *)

Lemma pkcs7_pad_length (l : bytes) : length (pkcs7_pad l) mod 16 = 0.
Proof.
  unfold pkcs7_pad. rewrite length_app, length_replicate.
  pose proof (Nat.mod_upper_bound (length l) 16 ltac:(lia)) as Hlt.
  pose proof (Nat.div_mod_eq (length l) 16) as Hdiv.
  replace (length l + (16 - length l mod 16))
    with ((length l `div` 16 + 1) * 16) by lia.
  apply Nat.Div0.mod_mul.
Qed.

Lemma pkcs7_pad_nonempty (l : bytes) : pkcs7_pad l ≠ [].
Proof.
  unfold pkcs7_pad. intros Heq. apply (f_equal length) in Heq.
  rewrite length_app, length_replicate in Heq.
  pose proof (Nat.mod_upper_bound (length l) 16 ltac:(lia)). simpl in Heq. lia.
Qed.

Lemma forallb_eqb_replicate (c : ascii) (n : nat) :
  forallb (Ascii.eqb c) (replicate n c) = true.
Proof. induction n; simpl; [done|]. by rewrite Ascii.eqb_refl. Qed.

Lemma pkcs7_unpad_pad (l : bytes) : pkcs7_unpad (pkcs7_pad l) = Some l.
Proof.
  unfold pkcs7_unpad, pkcs7_pad.
  pose proof (Nat.mod_upper_bound (length l) 16 ltac:(lia)) as Hlt.
  set (n := 16 - length l mod 16). assert (1 ≤ n ≤ 16) as Hn by lia.
  assert (last (l ++ replicate n (ascii_of_nat n)) = Some (ascii_of_nat n))
    as ->.
  { destruct n as [|n]; [lia|]. rewrite replicate_S_end.
    rewrite app_assoc. apply last_snoc. }
  rewrite nat_ascii_embedding by lia.
  rewrite length_app, length_replicate.
  replace (length l + n - n) with (length l) by lia.
  rewrite drop_app_length, take_app_length, forallb_eqb_replicate.
  assert ((1 <=? n)%nat = true) as -> by (apply Nat.leb_le; lia).
  assert ((n <=? 16)%nat = true) as -> by (apply Nat.leb_le; lia).
  assert ((n <=? length l + n)%nat = true) as -> by (apply Nat.leb_le; lia).
  done.
Qed.

(** ** Cipher block chaining *)

Section CipherProofs.
Context `{RuntimeLaws}.

Lemma cbc_encrypt_blocks (key prev : bytes) (blocks : list bytes) :
  length key = 32 → length prev = 16 →
  Forall (λ b, length b = 16) blocks →
  Forall (λ b, length b = 16) (cbc_encrypt key prev blocks)
  ∧ length (cbc_encrypt key prev blocks) = length blocks.
Proof.
  intros Hkey Hprev Hall. revert prev Hprev.
  induction Hall as [|b blocks Hb _ IH]; intros prev Hprev; [done|].
  simpl.
  assert (length (aes_encrypt_block key (xor_bytes b prev)) = 16) as Hc.
  { apply aes_encrypt_block_length; [done|].
    rewrite xor_bytes_length; congruence. }
  destruct (IH _ Hc) as [IH1 IH2]. split; [by constructor | by rewrite IH2].
Qed.

Lemma cbc_decrypt_encrypt (key prev : bytes) (blocks : list bytes) :
  length key = 32 → length prev = 16 →
  Forall (λ b, length b = 16) blocks →
  cbc_decrypt key prev (cbc_encrypt key prev blocks) = blocks.
Proof.
  intros Hkey Hprev Hall. revert prev Hprev.
  induction Hall as [|b blocks Hb _ IH]; intros prev Hprev; [done|].
  simpl.
  assert (length (xor_bytes b prev) = 16) as Hx
    by (rewrite xor_bytes_length; congruence).
  rewrite aes_decrypt_encrypt_block by done.
  rewrite xor_bytes_cancel by congruence. f_equal.
  apply IH. by apply aes_encrypt_block_length.
Qed.

End CipherProofs.

(** ** The envelope *)

Section EnvelopeProofs.
Context `{RuntimeLaws}.

Lemma decipher_cipher (key iv : bytes) (data : string) :
  length key = 32 → length iv = 16 →
  ∃ ct, cipher_hex key iv data = Ok (hex_encode ct)
        ∧ decipher_utf8 key iv (Some (hex_encode ct)) = Ok data.
Proof.
  intros Hkey Hiv. unfold cipher_hex, decipher_utf8.
  rewrite !bool_decide_eq_true_2 by done. cbn [andb].
  set (padded := pkcs7_pad (String.list_ascii_of_string data)).
  set (blocks := chunks 16 (length padded) padded).
  assert (Forall (λ b, length b = 16) blocks) as Hblocks
    by apply chunks_Forall_length, pkcs7_pad_length.
  destruct (cbc_encrypt_blocks key iv blocks Hkey Hiv Hblocks)
    as [Hcblocks Hclen].
  set (ct := concat (cbc_encrypt key iv blocks)).
  exists ct. split; [done|].
  rewrite hex_decode_encode.
  assert (concat blocks = padded) as Hpadded
    by (apply chunks_concat; lia).
  assert (length ct = 16 * length blocks) as Hctlen
    by (unfold ct; rewrite concat_blocks_length by done; lia).
  assert (blocks ≠ []) as Hne.
  { intros Heq. rewrite Heq in Hpadded. simpl in Hpadded.
    by apply (pkcs7_pad_nonempty (String.list_ascii_of_string data)). }
  assert (ct ≠ []) as Hctne.
  { intros Heq. rewrite Heq in Hctlen. destruct blocks; [done|].
    simpl in Hctlen. lia. }
  assert (length ct mod 16 = 0) as Hctmod.
  { rewrite Hctlen, Nat.mul_comm. apply Nat.Div0.mod_mul. }
  rewrite !bool_decide_eq_true_2 by done. cbn [andb].
  assert (chunks 16 (length ct) ct = cbc_encrypt key iv blocks) as ->.
  { apply chunks_blocks; [done|]. rewrite Hctlen, Hclen. lia. }
  rewrite cbc_decrypt_encrypt, Hpadded by done.
  unfold padded. rewrite pkcs7_unpad_pad.
  by rewrite String.string_of_list_ascii_of_string.
Qed.

(** Decrypting an envelope made under the same key gives the plaintext
    back, whatever the initialisation vector. *)
Lemma decrypt_encrypt_envelope (key iv : bytes) (data : string) :
  length key = 32 → length iv = 16 →
  ∃ envelope, encrypt_envelope key iv data = Ok envelope
              ∧ decrypt_envelope key envelope = Ok data.
Proof.
  intros Hkey Hiv.
  destruct (decipher_cipher key iv data Hkey Hiv) as (ct & Henc & Hdec).
  exists (hex_encode iv +:+ ":" +:+ hex_encode ct). split.
  - unfold encrypt_envelope. by rewrite Henc.
  - unfold decrypt_envelope. rewrite js_split_envelope. simpl.
    by rewrite hex_decode_encode.
Qed.


End EnvelopeProofs.

(** The small runtime satisfies the laws. *)
Lemma table_runtime_laws (docs : list (string * ImportDoc))
  (stored : list KeyRecord) : @RuntimeLaws (table_runtime docs stored).
Proof.
  split; simpl.
  - intros k b Hk Hb. unfold xor_block_cipher.
    rewrite xor_bytes_length; [done|]. rewrite length_take. lia.
  - intros k b Hk Hb. unfold xor_block_cipher.
    apply xor_bytes_cancel. rewrite length_take. lia.
  - intros s. unfold fold32. rewrite length_take, length_app, length_replicate.
    lia.
Qed.


(** ** The store: load, cache, save *)

(** Take apart a hypothesis on the run of a computation. *)
Ltac inv_run :=
  let Heq := fresh in intros Heq; inversion Heq; subst; clear Heq.

Section StoreProofs.
Context `{Runtime}.

(** What resolving the path leaves alone. *)
Lemma getKeysFilePath_frame (st st' : State) (r : result string) :
  getKeysFilePath st = (r, st') →
  keysCache st' = keysCache st ∧ heap st' = heap st
  ∧ oracle st' = oracle st ∧ n_iv st' = n_iv st
  ∧ n_uuid st' = n_uuid st ∧ n_clock st' = n_clock st
  ∧ getEncryptionKey st' = getEncryptionKey st
  ∧ ∃ evs, trace st' = trace st ++ evs
           ∧ List.filter is_write evs = [].
Proof.
  unfold getKeysFilePath. destruct (truthy_opt (cfg_keysFilePath st)).
  - inv_run. repeat split; try done. exists []. by rewrite app_nil_r.
  - unfold bind, fs_existsSync, fs_mkdirpSync, ret. simpl.
    repeat (case_bool_decide; simpl); inv_run; repeat split; try done;
      simpl; rewrite <- ?app_assoc; eexists; split; try done; done.
Qed.

(** The outcome of [saveKeys]: the heap is never touched; the cache is
    assigned exactly when the file was written. *)
Lemma saveKeys_outcome (keys : nat) (st st' : State) (r : result unit) :
  saveKeys keys st = (r, st') →
  heap st' = heap st
  ∧ oracle st' = oracle st ∧ n_uuid st' = n_uuid st ∧ n_clock st' = n_clock st
  ∧ match r with
    | Ok _ =>
        keysCache st' = Some keys
        ∧ ∃ filePath data evs,
            trace st' = trace st ++ evs ++ [IoWriteFile filePath data]
            ∧ List.filter is_write evs = []
            ∧ fs st' !! filePath = Some (File data)
    | Throw _ => keysCache st' = keysCache st
    end.
Proof.
  unfold saveKeys, bind.
  destruct (getKeysFilePath st) as [[filePath|e1] st1] eqn:Hpath;
    apply getKeysFilePath_frame in Hpath
      as (Hc & Hh & Ho & Hiv & Hu & Hck & Hk & evs & Ht & Hw).
  2: { inv_run. done. }
  unfold deref, encryptData, bind, randomBytes16, lift_result.
  destruct (encrypt_envelope _ _ _) as [encryptedData|e2]; simpl.
  2: { inv_run. done. }
  unfold fs_writeFile. simpl.
  destruct (fs st1 !! filePath) as [[|]|]; repeat (case_bool_decide; simpl);
    inv_run; simpl; repeat split; try done.
  all: exists filePath, encryptedData, evs; rewrite Ht, <- app_assoc;
    repeat split; try done; apply lookup_insert_eq.
Qed.

(** C8. When [saveKeys] fails, whatever the step that throws and in
    particular when the write of the file throws, the cache is left as it
    was (the same reference to the same content); the cache is assigned the
    new collection only once the file has been written. *)
Theorem saveKeys_failure_keeps_cache (keys : nat) (st st' : State)
  (r : result unit) :
  saveKeys keys st = (r, st') →
  match r with
  | Throw _ => keysCache st' = keysCache st ∧ heap st' = heap st
  | Ok _ =>
      keysCache st' = Some keys
      ∧ ∃ filePath data,
          last (trace st') = Some (IoWriteFile filePath data)
          ∧ fs st' !! filePath = Some (File data)
  end.
Proof.
  intros Hsave. apply saveKeys_outcome in Hsave as (Hh & _ & _ & _ & Hr).
  destruct r as [[]|e]; [|done].
  destruct Hr as (Hc & filePath & data & evs & Ht & _ & Hfs).
  split; [done|]. exists filePath, data. split; [|done].
  by rewrite Ht, app_assoc, last_snoc.
Qed.

(** C4. After a successful [saveKeys(c)], [loadKeys()] returns the very
    reference [c]: the state is left as it is, so that nothing is read from
    the file system, and the array still has the content that was saved. *)
Theorem loadKeys_after_saveKeys (keys : nat) (st st' : State) :
  saveKeys keys st = (Ok (), st') →
  loadKeys st' = (Ok keys, st')
  ∧ array_at st' keys = array_at st keys.
Proof.
  intros Hsave. apply saveKeys_outcome in Hsave as (Hh & _ & _ & _ & Hc & _).
  split.
  - unfold loadKeys. by rewrite Hc.
  - unfold array_at. by rewrite Hh.
Qed.

(** What [loadKeys] leaves on a manager without cache once the path of the
    store is known. *)
Lemma loadKeys_from_disk (st st1 : State) (filePath : string) :
  keysCache st = None →
  getKeysFilePath st = (Ok filePath, st1) →
  ∃ st',
    loadKeys st = (Ok (length (heap st)), st')
    ∧ keysCache st' = Some (length (heap st))
    ∧ heap st' = heap st ++ [default [] (disk_collection st1 filePath)]
    ∧ (is_Some (fs st1 !! filePath) →
       disk_collection st1 filePath = None →
       ∃ e, last (trace st') = Some (LogError "Error loading keys:" e)).
Proof.
  intros Hnone Hpath. unfold loadKeys, bind. rewrite Hnone, Hpath.
  apply getKeysFilePath_frame in Hpath as (_ & Hh & _).
  unfold fs_existsSync, disk_collection. simpl.
  case_bool_decide as Hfound; simpl.
  - unfold try_catch, bind, fs_readFile. simpl.
    destruct (fs st1 !! filePath) as [[encryptedData|entries]|] eqn:Hnode;
      [| |by destruct Hfound].
    + case_bool_decide; simpl.
      * eexists. rewrite Hh. repeat split; try done.
        intros _ _. eexists. apply last_snoc.
      * unfold decryptData. simpl.
        change (getEncryptionKey (set_trace _ (set_trace _ st1)))
          with (getEncryptionKey st1).
        destruct (decrypt_envelope _ encryptedData) as [decryptedData|e];
          simpl.
        -- unfold parse_store.
           destruct (JSON_parse decryptedData) as [parsed|]; simpl.
           ++ eexists. rewrite Hh. repeat split; try done.
           ++ eexists. rewrite Hh. repeat split; try done.
              intros _ _. eexists. apply last_snoc.
        -- eexists. rewrite Hh. repeat split; try done.
           intros _ _. eexists. apply last_snoc.
    + simpl. eexists. rewrite Hh. repeat split; try done.
      intros _ _. eexists. apply last_snoc.
  - destruct (fs st1 !! filePath) as [node|] eqn:Hnode.
    { destruct Hfound. by exists node. }
    eexists. rewrite Hh. by repeat split.
Qed.

(** [loadKeys] throws only what resolving the path throws. *)
Lemma loadKeys_throw (st st' : State) (e : exn) :
  loadKeys st = (Throw e, st') →
  keysCache st = None ∧ getKeysFilePath st = (Throw e, st').
Proof.
  intros Hload. destruct (keysCache st) as [ref|] eqn:Hcache.
  { unfold loadKeys in Hload. rewrite Hcache in Hload. done. }
  split; [done|].
  destruct (getKeysFilePath st) as [[filePath|e1] st1] eqn:Hpath.
  - destruct (loadKeys_from_disk st st1 filePath Hcache Hpath)
      as (st2 & Hload2 & _). congruence.
  - unfold loadKeys, bind in Hload. rewrite Hcache, Hpath in Hload.
    by injection Hload as -> ->.
Qed.

(** Resolving the path may create the data directory; it leaves every file
    that exists as it is. *)
Lemma getKeysFilePath_fs (st st' : State) (r : result string) :
  getKeysFilePath st = (r, st') → fs st ⊆ fs st'.
Proof.
  unfold getKeysFilePath. destruct (truthy_opt (cfg_keysFilePath st)).
  - by inv_run.
  - unfold bind, fs_existsSync, fs_mkdirpSync, ret. simpl.
    case_bool_decide as Hfound; simpl; [by inv_run|].
    case_bool_decide; simpl; inv_run; simpl; [done|].
    apply insert_subseteq.
    destruct (fs st !! path_join (cwd (host st)) "data") eqn:Hnode; [|done].
    destruct Hfound. by eexists.
Qed.

(** So does [loadKeys]. *)
Lemma loadKeys_fs (st st1 : State) (r : result nat) :
  loadKeys st = (r, st1) → fs st ⊆ fs st1.
Proof.
  unfold loadKeys. destruct (keysCache st) as [ref|]; [by inv_run|].
  unfold bind.
  destruct (getKeysFilePath st) as [[filePath|e] st0] eqn:Hpath;
    apply getKeysFilePath_fs in Hpath.
  2: { by inv_run. }
  unfold fs_existsSync. simpl. case_bool_decide; simpl.
  - unfold try_catch, bind, fs_readFile. simpl.
    destruct (fs st0 !! filePath) as [[encryptedData|entries]|]; simpl.
    + case_bool_decide; simpl; [by inv_run|].
      unfold decryptData. simpl.
      destruct (decrypt_envelope _ encryptedData) as [decryptedData|e];
        simpl; [|by inv_run].
      unfold parse_store.
      destruct (JSON_parse decryptedData) as [parsed|]; simpl; by inv_run.
    + by inv_run.
    + by inv_run.
  - by inv_run.
Qed.

(** C2, as amended. [loadKeys] raises only when resolving the path of the
    store raises (no custom path is configured and the data directory is
    missing and cannot be created). Otherwise: a cache that is present is
    returned and nothing else happens, so there is no file I/O; without
    cache, [loadKeys] returns a new array which it caches, and that array
    holds the records of the file when the file exists, can be read,
    decrypts and parses, and is empty in every other case: the file is
    absent, or reading, decrypting or parsing it failed, which is then
    reported on the console. *)
Theorem loadKeys_degrades_to_empty (st : State) :
  (∀ ref, keysCache st = Some ref → loadKeys st = (Ok ref, st))
  ∧ (∀ filePath st1,
       keysCache st = None →
       getKeysFilePath st = (Ok filePath, st1) →
       ∃ st',
         loadKeys st = (Ok (length (heap st)), st')
         ∧ keysCache st' = Some (length (heap st))
         ∧ heap st' = heap st ++ [default [] (disk_collection st1 filePath)]
         ∧ (fs st1 !! filePath = None →
            array_at st' (length (heap st)) = [])
         ∧ (is_Some (fs st1 !! filePath) →
            disk_collection st1 filePath = None →
            array_at st' (length (heap st)) = []
            ∧ ∃ e, last (trace st') = Some (LogError "Error loading keys:" e)))
  ∧ (∀ e st',
       loadKeys st = (Throw e, st') →
       keysCache st = None ∧ getKeysFilePath st = (Throw e, st')).
Proof.
  split; [|split].
  - intros ref Hcache. unfold loadKeys. by rewrite Hcache.
  - intros filePath st1 Hcache Hpath.
    destruct (loadKeys_from_disk st st1 filePath Hcache Hpath)
      as (st' & Hload & Hc & Hheap & Hlog).
    exists st'. split_and!; try done.
    + intros Habsent. unfold array_at. rewrite Hheap.
      rewrite lookup_app_r, Nat.sub_diag by done. simpl.
      unfold disk_collection. by rewrite Habsent.
    + intros Hsome Hnone. split; [|by apply Hlog].
      unfold array_at. rewrite Hheap.
      rewrite lookup_app_r, Nat.sub_diag by done. simpl. by rewrite Hnone.
  - intros e st'. apply loadKeys_throw.
Qed.

End StoreProofs.

(** ** Arrays *)

Lemma findIndex_Some {A} (p : A → bool) (l : list A) (i : nat) :
  findIndex p l = Some i →
  ∃ x, l !! i = Some x ∧ p x = true.
Proof.
  revert i. induction l as [|y l IH]; intros i; simpl; [done|].
  destruct (p y) eqn:Hp.
  - intros [= <-]. by exists y.
  - destruct (findIndex p l) as [j|]; simpl; [|done].
    intros [= <-]. by apply IH.
Qed.

Lemma findIndex_None {A} (p : A → bool) (l : list A) :
  findIndex p l = None ↔ ∀ j x, l !! j = Some x → p x = false.
Proof.
  induction l as [|y l IH]; simpl; [done|].
  destruct (p y) eqn:Hp.
  - split; [done|]. intros Hall. specialize (Hall 0 y eq_refl). congruence.
  - destruct (findIndex p l) as [j|] eqn:Hfind; simpl.
    + split; [done|]. intros Hall.
      apply findIndex_Some in Hfind as (x & Hx & Hpx).
      specialize (Hall (S j) x Hx). congruence.
    + split; [|done]. intros _ [|j] x; simpl.
      * by intros [= <-].
      * by apply IH.
Qed.

Lemma findIndex_delete_only {A} (p : A → bool) (l : list A) (i : nat) :
  (∀ j x, l !! j = Some x → p x = true → j = i) →
  findIndex p (delete i l) = None.
Proof.
  intros Honly. apply findIndex_None. intros j x Hx.
  destruct (p x) eqn:Hp; [|done]. exfalso.
  destruct (decide (j < i)) as [Hlt|Hge].
  - rewrite list_lookup_delete_lt in Hx by done.
    specialize (Honly j x Hx Hp). lia.
  - rewrite list_lookup_delete_ge in Hx by lia.
    specialize (Honly (S j) x Hx Hp). lia.
Qed.

Lemma array_at_alter (st st' : State) (ref : nat)
  (f : list KeyRecord → list KeyRecord) :
  heap st' = alter f ref (heap st) →
  f [] = [] →
  array_at st' ref = f (array_at st ref).
Proof.
  intros Hheap Hnil. unfold array_at. rewrite Hheap, list_lookup_alter_eq.
  by destruct (heap st !! ref).
Qed.

Section EditProofs.
Context `{Runtime}.

Lemma loadKeys_ok_cache (st st1 : State) (keys : nat) :
  loadKeys st = (Ok keys, st1) → keysCache st1 = Some keys.
Proof.
  intros Hload. destruct (keysCache st) as [ref|] eqn:Hcache.
  { unfold loadKeys in Hload. rewrite Hcache in Hload. by inversion Hload; subst. }
  destruct (getKeysFilePath st) as [[filePath|e] st0] eqn:Hpath.
  - destruct (loadKeys_from_disk st st0 filePath Hcache Hpath)
      as (st' & Hload' & Hc & _).
    rewrite Hload in Hload'. by inversion Hload'; subst.
  - unfold loadKeys, bind in Hload. by rewrite Hcache, Hpath in Hload.
Qed.

(** An edit or a deletion of an id that no record holds only reports it. *)
Lemma editKey_absent (st st1 : State) (id : string) (keys : nat)
  (options : EditOptions) (answers : EditAnswers) :
  loadKeys st = (Ok keys, st1) →
  findIndex (has_id id) (array_at st1 keys) = None →
  editKey id options answers st
  = (Ok (), set_trace (trace st1 ++ [LogNotFound id]) st1).
Proof.
  intros Hload Hfind. unfold editKey, try_catch, bind. rewrite Hload.
  unfold deref. simpl. fold (array_at st1 keys). by rewrite Hfind.
Qed.

Lemma deleteKey_absent (st st1 : State) (id : string) (keys : nat)
  (force confirm : bool) :
  loadKeys st = (Ok keys, st1) →
  findIndex (has_id id) (array_at st1 keys) = None →
  deleteKey id force confirm st
  = (Ok (), set_trace (trace st1 ++ [LogNotFound id]) st1).
Proof.
  intros Hload Hfind. unfold deleteKey, try_catch, bind. rewrite Hload.
  unfold deref. simpl. fold (array_at st1 keys). by rewrite Hfind.
Qed.

(** A deletion, forced or confirmed, of a record that is there removes it
    from the cached array, whether the save that follows succeeds or not. *)
Lemma deleteKey_present (st st1 : State) (id : string) (keys i : nat)
  (force confirm : bool) :
  loadKeys st = (Ok keys, st1) →
  findIndex (has_id id) (array_at st1 keys) = Some i →
  force || confirm = true →
  ∃ st',
    deleteKey id force confirm st = (Ok (), st')
    ∧ keysCache st' = Some keys
    ∧ array_at st' keys = delete i (array_at st1 keys).
Proof.
  intros Hload Hfind Hgo. unfold deleteKey, try_catch, bind. rewrite Hload.
  unfold deref. simpl. fold (array_at st1 keys). rewrite Hfind. simpl.
  assert (negb force && negb confirm = false) as ->
    by (by destruct force, confirm).
  pose proof (loadKeys_ok_cache _ _ _ Hload) as Hcache.
  set (st2 := set_heap (alter (delete i) keys (heap st1)) st1).
  assert (array_at st2 keys = delete i (array_at st1 keys)) as Harr
    by (by apply array_at_alter).
  unfold splice1. fold st2.
  destruct (saveKeys keys st2) as [[[]|e] st3] eqn:Hsave;
    apply saveKeys_outcome in Hsave as (Hh & _ & _ & _ & Hc); simpl.
  - eexists. split; [done|]. simpl. split; [by destruct Hc|].
    unfold array_at in *. simpl. by rewrite Hh.
  - eexists. split; [done|]. simpl. split; [by rewrite Hc|].
    unfold array_at in *. simpl. by rewrite Hh.
Qed.

(** C5, as amended. An edit or a deletion that names an id held by no
    record of the collection does not raise: it prints that the key with
    this id was not found and returns. The operation is aborted there: what
    is left is the state as [loadKeys] left it plus the printed line, and
    [loadKeys] leaves a manager that has a cache as it is and every file as
    it is; so neither the cached collection nor the file is mutated. In
    particular, after the deletion of the one record that holds an id,
    deleting that id again prints that it was not found. *)
Theorem absent_id_reported_not_raised (st st1 : State) (id : string)
  (keys : nat) :
  loadKeys st = (Ok keys, st1) →
  (fs st ⊆ fs st1 ∧ ∀ ref, keysCache st = Some ref → st1 = st)
  ∧ (findIndex (has_id id) (array_at st1 keys) = None →
   (∀ options answers,
      editKey id options answers st
      = (Ok (), set_trace (trace st1 ++ [LogNotFound id]) st1))
   ∧ (∀ force confirm,
        deleteKey id force confirm st
        = (Ok (), set_trace (trace st1 ++ [LogNotFound id]) st1)))
  ∧ (∀ i force confirm,
       findIndex (has_id id) (array_at st1 keys) = Some i →
       (∀ j k, array_at st1 keys !! j = Some k → has_id id k = true → j = i) →
       force || confirm = true →
       ∃ st',
         deleteKey id force confirm st = (Ok (), st')
         ∧ ∀ force' confirm',
             deleteKey id force' confirm' st'
             = (Ok (), set_trace (trace st' ++ [LogNotFound id]) st')).
Proof.
  intros Hload. split; [|split].
  - split; [by apply loadKeys_fs in Hload|].
    intros ref Hcache. unfold loadKeys in Hload. rewrite Hcache in Hload.
    by inversion Hload.
  - intros Hfind. split; intros.
    + by apply editKey_absent with keys.
    + by apply deleteKey_absent with keys.
  - intros i force confirm Hfind Honly Hgo.
    destruct (deleteKey_present st st1 id keys i force confirm Hload Hfind Hgo)
      as (st' & Hdel & Hcache & Harr).
    exists st'. split; [done|]. intros force' confirm'.
    apply deleteKey_absent with keys.
    + unfold loadKeys. by rewrite Hcache.
    + rewrite Harr. by apply findIndex_delete_only.
Qed.

(** C6. For a record that is there, [editKey] overwrites the name, the tag
    and the key material as the update names them and nothing else: the
    name when [options.name] is given, the tag when [options.tag] is not
    undefined (an empty tag becomes null), the key material when
    [options.content] is given; when none is given the interactive branch
    takes the trimmed answers instead. It sets [last_modified] to the reading
    of the clock, and leaves [id] and [created] alone, and also [key_type],
    which is not computed again when the key material changes. The other
    records are left as they are. *)
Theorem editKey_overwrites_named_fields (st st1 : State) (id : string)
  (options : EditOptions) (answers : EditAnswers) (keys i : nat)
  (k : KeyRecord) :
  loadKeys st = (Ok keys, st1) →
  findIndex (has_id id) (array_at st1 keys) = Some i →
  array_at st1 keys !! i = Some k →
  ∃ st' k',
    editKey id options answers st = (Ok (), st')
    ∧ array_at st' keys = <[i := k']> (array_at st1 keys)
    ∧ k_id k' = k_id k
    ∧ k_created k' = k_created k
    ∧ k_key_type k' = k_key_type k
    ∧ k_last_modified k' = VStr (clock (oracle st1) (n_clock st1))
    ∧ if truthy_opt (opt_name options) || truthy_opt (opt_tag options)
         || truthy_opt (opt_content options)
      then
        k_name k' = match opt_name options with
                    | Some name => if String.eqb name EmptyString then k_name k
                                   else VStr name
                    | None => k_name k
                    end
        ∧ k_tag k' = match opt_tag options with
                     | Some tag => if String.eqb tag EmptyString then VNull
                                   else VStr tag
                     | None => k_tag k
                     end
        ∧ k_key k' = match opt_content options with
                     | Some content => if String.eqb content EmptyString then k_key k
                                       else VStr content
                     | None => k_key k
                     end
      else
        k_name k' = VStr (trim (ans_name answers))
        ∧ k_tag k' = (if String.eqb (trim (ans_tag answers)) EmptyString then VNull
                      else VStr (trim (ans_tag answers)))
        ∧ k_key k' = (if ans_updateContent answers
                      then VStr (trim (ans_content answers))
                      else k_key k).
Proof.
  intros Hload Hfind Hk.
  set (updates := edit_updates options answers).
  set (t := clock (oracle st1) (n_clock st1)).
  exists (snd (editKey id options answers st)), (apply_updates updates t k).
  assert (editKey id options answers st
          = (Ok (), snd (editKey id options answers st))
          ∧ array_at (snd (editKey id options answers st)) keys
            = <[i := apply_updates updates t k]> (array_at st1 keys))
    as [Hrun Harr].
  { unfold editKey, try_catch, bind. rewrite Hload.
    unfold deref. simpl. fold (array_at st1 keys). rewrite Hfind. simpl.
    fold updates t.
    set (st2 := set_heap _ (set_n_clock _ st1)).
    assert (array_at st2 keys
            = <[i := apply_updates updates t k]> (array_at st1 keys))
      as Harr.
    { rewrite (array_at_alter st1 st2 keys
                 (alter (apply_updates updates t) i)) by done.
      apply list_eq. intros j. rewrite list_lookup_alter, list_lookup_insert.
      destruct (decide (i = j)) as [<-|Hne].
      - rewrite Hk. simpl. apply lookup_lt_Some in Hk.
        by rewrite decide_True by done.
      - rewrite decide_False; [done | by intros [? _]]. }
    destruct (saveKeys keys st2) as [[[]|e] st3] eqn:Hsave;
      apply saveKeys_outcome in Hsave as (Hh & _); simpl;
      (split; [done|]); unfold array_at in *; simpl; by rewrite Hh. }
  split_and!; try done.
  unfold updates, edit_updates, js_or, truthy, truthy_opt.
  destruct options as [[name|] [tag|] [content|]]; simpl;
    repeat match goal with
           | |- context [String.eqb ?s EmptyString] => destruct (String.eqb s EmptyString)
           end;
    simpl; try done;
    destruct (ans_updateContent answers); done.
Qed.

End EditProofs.

(** ** Import from a file *)

Lemma strict_eq_spec (a b : jsval) : strict_eq a b = true ↔ a = b.
Proof. unfold strict_eq. apply bool_decide_eq_true. Qed.

Lemma isDuplicate_spec (arr : list KeyRecord) (keyData : KeyRecord) :
  isDuplicate arr keyData = true
  ↔ ∃ existing, existing ∈ arr ∧ matches existing keyData.
Proof.
  unfold isDuplicate, matches. rewrite existsb_exists. split.
  - intros (existing & Hin & Heq). exists existing.
    split; [by apply list_elem_of_In|].
    apply orb_true_iff in Heq as [Heq|Heq]; apply strict_eq_spec in Heq; auto.
  - intros (existing & Hin & Heq). exists existing.
    split; [by apply list_elem_of_In|].
    apply orb_true_iff. rewrite !strict_eq_spec. done.
Qed.

Lemma isDuplicate_false_spec (arr : list KeyRecord) (keyData : KeyRecord) :
  isDuplicate arr keyData = false
  ↔ ∀ existing, existing ∈ arr → ¬ matches existing keyData.
Proof.
  split.
  - intros Hfalse existing Hin Hm.
    assert (isDuplicate arr keyData = true) by (apply isDuplicate_spec; eauto).
    congruence.
  - intros Hnone. destruct (isDuplicate arr keyData) eqn:Hdup; [|done].
    apply isDuplicate_spec in Hdup as (existing & Hin & Hm).
    by destruct (Hnone existing Hin).
Qed.

Section ImportFileProofs.
Context `{Runtime}.

(** The loop of [importFromFile] follows [import_steps] and touches only
    the array and the counters of the generator of ids and of the clock. *)
Lemma importFromFile_loop_steps (ref : nat) (keys : list KeyRecord) :
  ∀ (i0 d0 : nat) (st st' : State) (arr : list KeyRecord) (i d : nat),
    heap st !! ref = Some arr →
    importFromFile_loop ref keys i0 d0 st = (Ok (i, d), st') →
    ∃ arr' i1 d1,
      heap st' !! ref = Some arr' ∧ i = i0 + i1 ∧ d = d0 + d1
      ∧ import_steps (oracle st) (n_uuid st) (n_clock st) arr keys
          (n_uuid st') (n_clock st') arr' i1 d1
      ∧ trace st' = trace st ∧ keysCache st' = keysCache st
      ∧ oracle st' = oracle st ∧ fs st' = fs st.
Proof.
  induction keys as [|keyData keys IH]; intros i0 d0 st st' arr i d Harr.
  - simpl. unfold ret. inv_run. exists arr, 0, 0.
    split_and!; try done; try lia. constructor.
  - cbn [importFromFile_loop]. unfold bind at 1. unfold deref at 1.
    rewrite Harr. change (default [] (Some arr)) with arr.
    destruct (isDuplicate arr keyData) eqn:Hdup; cbn [negb].
    + intros Hrun.
      destruct (IH _ _ _ _ _ _ _ Harr Hrun)
        as (arr' & i1 & d1 & Harr' & -> & -> & Hsteps & Htr & Hc & Ho & Hfs).
      exists arr', i1, (S d1). split_and!; try done; try lia.
      apply import_steps_duplicate; [by apply isDuplicate_spec | done].
    + pose proof (proj1 (isDuplicate_false_spec _ _) Hdup) as Hnone.
      unfold bind at 1. unfold generateId at 1.
      set (st1 := set_n_uuid (S (n_uuid st)) st).
      unfold bind at 1.
      destruct ((if truthy (k_key_type keyData) then ret (k_key_type keyData)
                 else detectKeyType_of (k_key keyData)) st1)
        as [[key_type|e] st2] eqn:Htype; [|inv_run].
      assert (st2 = st1
              ∧ if truthy (k_key_type keyData)
                then key_type = k_key_type keyData
                else ∃ s, k_key keyData = VStr s
                          ∧ key_type = VStr (detectKeyType s))
        as [-> Hkt].
      { destruct (truthy (k_key_type keyData)).
        - unfold ret in Htype. by inversion Htype.
        - unfold detectKeyType_of in Htype.
          destruct (k_key keyData) as [| |s]; try done.
          unfold ret in Htype. inversion Htype. eauto. }
      unfold bind at 1.
      destruct ((if truthy (k_created keyData) then ret (k_created keyData)
                 else let! t := now in ret (VStr t)) st1)
        as [[created|e] st3] eqn:Hcreated.
      2: { destruct (truthy (k_created keyData)); done. }
      assert (∃ nc1,
                st3 = set_n_clock nc1 st1
                ∧ if truthy (k_created keyData)
                  then created = k_created keyData ∧ nc1 = n_clock st
                  else created = VStr (clock (oracle st) (n_clock st))
                       ∧ nc1 = S (n_clock st))
        as (nc1 & -> & Hcr).
      { destruct (truthy (k_created keyData)).
        - unfold ret in Hcreated. inversion Hcreated; subst.
          exists (n_clock st). by destruct st.
        - unfold bind, now, ret in Hcreated. inversion Hcreated; subst.
          by exists (S (n_clock st)). }
      unfold bind at 1. unfold now at 1. cbn [n_clock set_n_clock oracle].
      unfold bind at 1. unfold push at 1.
      set (newKey := mkKeyRecord _ _ _ _ _ _ _).
      set (st4 := set_heap _ _).
      intros Hrun.
      assert (heap st4 !! ref = Some (arr ++ [newKey])) as Harr4.
      { unfold st4. simpl. by rewrite list_lookup_alter_eq, Harr. }
      destruct (IH _ _ _ _ _ _ _ Harr4 Hrun)
        as (arr' & i1 & d1 & Harr' & -> & -> & Hsteps & Htr & Hc & Ho & Hfs).
      exists arr', (S i1), d1. split_and!; try done; try lia.
      by apply (import_steps_new _ _ _ _ _ _ _ _ _ _ _ newKey nc1).
Qed.





End ImportFileProofs.

(** ** Import from a directory and from a scan *)

Section ImportScanProofs.
Context `{Runtime}.

Lemma readable_in_cons (st : State) (dirPath file : string)
  (files : list string) :
  readable_in st dirPath (file :: files)
  = match readable_file st (path_join dirPath file) with
    | Some content => (file, content) :: readable_in st dirPath files
    | None => readable_in st dirPath files
    end.
Proof.
  unfold readable_in. simpl.
  by destruct (readable_file st (path_join dirPath file)).
Qed.

Lemma fs_readFile_spec (path : string) (st : State) :
  fs_readFile path st
  = (match readable_file st path with
     | Some content => Ok content
     | None => Throw (EIO path)
     end,
     set_trace (trace st ++ [IoReadFile path]) st).
Proof.
  unfold fs_readFile, readable_file.
  destruct (fs st !! path) as [[content|entries]|]; [|done|done].
  by case_bool_decide.
Qed.

(** The loop of [importFromDirectory] appends one record for each file that
    can be read, whatever the array holds. *)
Lemma importFromDirectory_loop_appends (dirPath : string) (keys : nat)
  (pubFiles : list string) :
  ∀ (n0 : nat) (st : State) (arr : list KeyRecord),
    heap st !! keys = Some arr →
    ∃ st' added,
      importFromDirectory_loop dirPath keys pubFiles n0 st
      = (Ok (n0 + length added), st')
      ∧ heap st' !! keys = Some (arr ++ added)
      ∧ map key_facts added
        = map (λ fc, (VStr fc.1, VStr (trim fc.2), VStr (detectKeyType fc.2)))
              (readable_in st dirPath pubFiles)
      ∧ fs st' = fs st ∧ unreadable st' = unreadable st.
Proof.
  induction pubFiles as [|file pubFiles IH]; intros n0 st arr Harr.
  - exists st, []. simpl. unfold ret. rewrite app_nil_r, Nat.add_0_r. done.
  - cbn [importFromDirectory_loop]. unfold bind at 1. unfold try_catch.
    unfold bind at 1. rewrite fs_readFile_spec, readable_in_cons.
    set (st1 := set_trace _ st).
    destruct (readable_file st (path_join dirPath file)) as [content|].
    + unfold bind, generateId, now, push, ret. simpl.
      set (newKey := mkKeyRecord _ _ _ _ _ _ _).
      set (st4 := set_heap _ _).
      assert (heap st4 !! keys = Some (arr ++ [newKey])) as Harr4.
      { unfold st4. simpl. by rewrite list_lookup_alter_eq, Harr. }
      destruct (IH (S n0) st4 _ Harr4)
        as (st' & added & Hrun & Harr' & Hfacts & Hfs & Hun).
      exists st', (newKey :: added). split_and!.
      * rewrite Hrun. simpl. do 2 f_equal. lia.
      * by rewrite Harr', <- app_assoc.
      * simpl. by rewrite Hfacts.
      * by rewrite Hfs.
      * by rewrite Hun.
    + unfold bind, emit, ret. simpl.
      set (st2 := set_trace _ st1).
      assert (heap st2 !! keys = Some arr) as Harr2 by done.
      destruct (IH n0 st2 _ Harr2)
        as (st' & added & Hrun & Harr' & Hfacts & Hfs & Hun).
      exists st', added. by split_and!.
Qed.

(** The loop of [importFromScan] appends one record for each selected
    key, whatever the array holds. *)
Lemma importFromScan_loop_appends (keys : nat)
  (selectedKeys : list ScannedKey) :
  ∀ (n0 : nat) (st : State) (arr : list KeyRecord),
    heap st !! keys = Some arr →
    ∃ st' added,
      importFromScan_loop keys selectedKeys n0 st
      = (Ok (n0 + length added), st')
      ∧ heap st' !! keys = Some (arr ++ added)
      ∧ map key_facts added
        = map (λ s, (VStr (s_name s), VStr (s_content s), VStr (s_type s)))
              selectedKeys.
Proof.
  induction selectedKeys as [|selectedKey selectedKeys IH];
    intros n0 st arr Harr.
  - exists st, []. simpl. unfold ret. rewrite app_nil_r, Nat.add_0_r. done.
  - cbn [importFromScan_loop].
    unfold bind, generateId, now, push. simpl.
    set (newKey := mkKeyRecord _ _ _ _ _ _ _).
    set (st4 := set_heap _ _).
    assert (heap st4 !! keys = Some (arr ++ [newKey])) as Harr4.
    { unfold st4. simpl. by rewrite list_lookup_alter_eq, Harr. }
    destruct (IH (S n0) st4 _ Harr4) as (st' & added & Hrun & Harr' & Hfacts).
    exists st', (newKey :: added). split_and!.
    + rewrite Hrun. simpl. do 2 f_equal. lia.
    + by rewrite Harr', <- app_assoc.
    + simpl. by rewrite Hfacts.
Qed.

Lemma importFromDirectory_run (st st0 st1 : State) (dirPath : string)
  (files : list string) (keys : nat) (arr0 : list KeyRecord) :
  fs_readdir dirPath st = (Ok files, st0) →
  List.filter (λ file, endsWith file ".pub") files ≠ [] →
  loadKeys st0 = (Ok keys, st1) →
  heap st1 !! keys = Some arr0 →
  ∃ added r st',
    importFromDirectory dirPath st = (r, st')
    ∧ array_at st' keys = arr0 ++ added
    ∧ map key_facts added
      = map (λ fc, (VStr fc.1, VStr (trim fc.2), VStr (detectKeyType fc.2)))
            (readable_in st1 dirPath
               (List.filter (λ file, endsWith file ".pub") files))
    ∧ (r = Ok () → last (trace st') = Some (LogImported (length added))).
Proof.
  intros Hdir Hpub Hload Harr0.
  unfold importFromDirectory. unfold bind at 1. rewrite Hdir.
  destruct (List.filter _ files) as [|file pubFiles] eqn:Hfilter; [done|].
  unfold bind at 1. rewrite Hload. unfold bind at 1.
  destruct (importFromDirectory_loop_appends dirPath keys
              (file :: pubFiles) 0 st1 arr0 Harr0)
    as (st2 & added & Hrun & Harr2 & Hfacts & _).
  rewrite Hrun. exists added. unfold bind.
  destruct (saveKeys keys st2) as [[[]|e] st3] eqn:Hsave;
    apply saveKeys_outcome in Hsave as (Hh3 & _); simpl.
  - eexists _, _. split_and!; try done.
    + unfold array_at. simpl. by rewrite Hh3, Harr2.
    + intros _. simpl. apply last_snoc.
  - eexists _, _. split_and!; try done.
    unfold array_at. by rewrite Hh3, Harr2.
Qed.

Lemma importFromScan_run (st st0 st1 : State) (ticks : list bool)
  (scannedKeys : list ScannedKey) (keys : nat) (arr0 : list KeyRecord) :
  scanCommonLocations st = (Ok scannedKeys, st0) →
  ticked_choices scannedKeys ticks ≠ [] →
  loadKeys st0 = (Ok keys, st1) →
  heap st1 !! keys = Some arr0 →
  ∃ added r st',
    importFromScan ticks st = (r, st')
    ∧ array_at st' keys = arr0 ++ added
    ∧ map key_facts added
      = map (λ s, (VStr (s_name s), VStr (s_content s), VStr (s_type s)))
            (ticked_choices scannedKeys ticks)
    ∧ (r = Ok () → last (trace st') = Some (LogImported (length added))).
Proof.
  intros Hscan Hsel Hload Harr0.
  unfold importFromScan. unfold bind at 1. rewrite Hscan.
  destruct scannedKeys as [|scanned scannedKeys']; [done|].
  destruct (ticked_choices _ ticks) as [|selectedKey selectedKeys]
    eqn:Hticked; [done|].
  unfold bind at 1. rewrite Hload. unfold bind at 1.
  destruct (importFromScan_loop_appends keys
              (selectedKey :: selectedKeys) 0 st1 arr0 Harr0)
    as (st2 & added & Hrun & Harr2 & Hfacts).
  rewrite Hrun. exists added. unfold bind.
  destruct (saveKeys keys st2) as [[[]|e] st3] eqn:Hsave;
    apply saveKeys_outcome in Hsave as (Hh3 & _); simpl.
  - eexists _, _. split_and!; try done.
    + unfold array_at. simpl. by rewrite Hh3, Harr2.
    + intros _. simpl. apply last_snoc.
  - eexists _, _. split_and!; try done.
    unfold array_at. by rewrite Hh3, Harr2.
Qed.

(** C10. The directory import and the scan import apply no duplicate rule.
    Whatever records the loaded collection [arr0] holds, and so even when
    one of them has the same name or the same key material as a candidate:
    [importFromDirectory] appends one record for each [.pub] file of the
    directory that can be read, in order, named after the file, with the
    trimmed content as key material; [importFromScan] appends one record
    for each selected key; and the number printed as imported is the
    number of records appended. *)
Theorem directory_and_scan_import_every_candidate :
  (∀ (st st0 st1 : State) (dirPath : string) (files : list string)
     (keys : nat) (arr0 : list KeyRecord),
     fs_readdir dirPath st = (Ok files, st0) →
     List.filter (λ file, endsWith file ".pub") files ≠ [] →
     loadKeys st0 = (Ok keys, st1) →
     heap st1 !! keys = Some arr0 →
     ∃ added,
       array_at (importFromDirectory dirPath st).2 keys = arr0 ++ added
       ∧ map key_facts added
         = map (λ fc, (VStr fc.1, VStr (trim fc.2),
                       VStr (detectKeyType fc.2)))
               (readable_in st1 dirPath
                  (List.filter (λ file, endsWith file ".pub") files))
       ∧ ∀ st', importFromDirectory dirPath st = (Ok (), st') →
                last (trace st') = Some (LogImported (length added)))
  ∧ (∀ (st st0 st1 : State) (ticks : list bool)
       (scannedKeys : list ScannedKey) (keys : nat) (arr0 : list KeyRecord),
       scanCommonLocations st = (Ok scannedKeys, st0) →
       ticked_choices scannedKeys ticks ≠ [] →
       loadKeys st0 = (Ok keys, st1) →
       heap st1 !! keys = Some arr0 →
       ∃ added,
         array_at (importFromScan ticks st).2 keys = arr0 ++ added
         ∧ map key_facts added
           = map (λ s, (VStr (s_name s), VStr (s_content s),
                        VStr (s_type s)))
                 (ticked_choices scannedKeys ticks)
         ∧ ∀ st', importFromScan ticks st = (Ok (), st') →
                  last (trace st') = Some (LogImported (length added))).
Proof.
  split.
  - intros st st0 st1 dirPath files keys arr0 Hdir Hpub Hload Harr0.
    destruct (importFromDirectory_run _ _ _ _ _ _ _ Hdir Hpub Hload Harr0)
      as (added & r & st' & Hrun & Harr & Hfacts & Hlog).
    exists added. rewrite Hrun. split_and!; try done.
    intros st''. inv_run. by apply Hlog.
  - intros st st0 st1 ticks scannedKeys keys arr0 Hscan Hsel Hload Harr0.
    destruct (importFromScan_run _ _ _ _ _ _ _ Hscan Hsel Hload Harr0)
      as (added & r & st' & Hrun & Harr & Hfacts & Hlog).
    exists added. rewrite Hrun. split_and!; try done.
    intros st''. inv_run. by apply Hlog.
Qed.

End ImportScanProofs.

(** ** KeyDerivation *)

Lemma last_char_append (p q : string) :
  q ≠ EmptyString → last_char (p +:+ q) = last_char q.
Proof.
  intros Hq. induction p as [|a p IH]; [done|].
  change (last_char (String a (p +:+ q)) = last_char q).
  destruct (p +:+ q) as [|b r] eqn:Heq.
  - destruct p; [|discriminate]. by destruct Hq.
  - by rewrite <- IH.
Qed.

(** The two derivations never hash the same string: the strings appended to
    a password and to a machine id end differently. *)
Lemma derivation_inputs_differ (password machineId : string) :
  password +:+ "ssh-kim-password-salt" ≠ machineId +:+ "ssh-kim-machine-key".
Proof.
  intros Heq. apply (f_equal last_char) in Heq.
  rewrite !last_char_append in Heq by done. discriminate Heq.
Qed.

Section DerivationProofs.
Context `{RuntimeLaws}.

(** Both derivations produce 32 bytes. *)
Lemma derived_keys_length (password machineId : string) :
  length (deriveKeyFromPassword password) = 32
  ∧ length (machineKeyOf machineId) = 32.
Proof. split; apply sha256_length. Qed.

End DerivationProofs.

(** ** The statements on examples *)

(** [loadKeys] on a new manager whose store file does not exist yet, on a
    manager that has a cache, and on a manager whose data directory cannot
    be created. *)
Lemma loadKeys_degrades_to_empty_witness :
  let R := table_runtime [] [] in
  (keysCache (@demo_state R) = None
   ∧ ∃ st', @loadKeys R demo_state = (Ok 0, st')
            ∧ keysCache st' = Some 0
            ∧ array_at st' 0 = [])
  ∧ (let st := with_loaded [github_key] (@demo_state R) in
     @loadKeys R st = (Ok 0, st))
  ∧ (∃ st', @getKeysFilePath R readonly_state
            = (Throw (EIO "/work/data"), st')).
Proof.
  intros R. split; [|split].
  - split; [reflexivity|].
    destruct (@loadKeys_degrades_to_empty R demo_state) as (_ & Hdisk & _).
    destruct (Hdisk "/work/data/ssh_keys.enc" _ eq_refl eq_refl)
      as (st' & Hload & Hcache & _ & Habsent & _).
    exists st'. split; [exact Hload|]. split; [exact Hcache|].
    apply Habsent. reflexivity.
  - intros st.
    destruct (@loadKeys_degrades_to_empty R st) as (Hcached & _).
    apply Hcached. reflexivity.
  - destruct (@loadKeys_degrades_to_empty R readonly_state)
      as (_ & _ & Hthrow).
    exists (@loadKeys R readonly_state).2.
    apply (Hthrow (EIO "/work/data") (@loadKeys R readonly_state).2).
    vm_compute. reflexivity.
Defined.

(** C2, as stated, fails: without cache and without custom path, when the
    data directory is missing and cannot be created, [loadKeys] raises what
    [fs.mkdirpSync] raises, since the path is resolved outside the [try]. *)
Lemma loadKeys_raises_when_path_unresolved :
  let R := table_runtime [] [] in
  ∃ st', @loadKeys R readonly_state = (Throw (EIO "/work/data"), st')
         ∧ keysCache st' = None.
Proof.
  intros R. exists (@loadKeys R readonly_state).2.
  split; vm_compute; reflexivity.
Qed.

(** A save that succeeds, then a load. *)
Lemma loadKeys_after_saveKeys_witness :
  let R := table_runtime [] [] in
  let st := with_loaded [github_key] (@demo_state R) in
  ∃ st', @saveKeys R 0 st = (Ok (), st')
         ∧ @loadKeys R st' = (Ok 0, st')
         ∧ array_at st' 0 = [github_key].
Proof.
  intros R st. exists (@saveKeys R 0 st).2.
  split; [vm_compute; reflexivity|].
  apply (@loadKeys_after_saveKeys R 0 st). vm_compute. reflexivity.
Defined.

(** A save whose write fails. *)
Lemma saveKeys_failure_keeps_cache_witness :
  let R := table_runtime [] [] in
  let st := set_heap [[github_key]] (@unwritable_state R) in
  ∃ st', @saveKeys R 0 st = (Throw (EIO "/work/data/ssh_keys.enc"), st')
         ∧ keysCache st' = None ∧ heap st' = [[github_key]].
Proof.
  intros R st. exists (@saveKeys R 0 st).2.
  split; [vm_compute; reflexivity|].
  apply (@saveKeys_failure_keeps_cache R 0 st _
           (Throw (EIO "/work/data/ssh_keys.enc"))).
  vm_compute. reflexivity.
Defined.

(** An edit and a deletion of an id that no record holds, and two
    deletions of the id of the one record of the collection. *)
Lemma absent_id_reported_not_raised_witness :
  let R := table_runtime [] [] in
  let st := with_loaded [github_key] (@demo_state R) in
  let reported := set_trace (trace st ++ [LogNotFound "no-such-id"]) st in
  (@editKey R "no-such-id" (mkEditOptions (Some "renamed") None None)
     (mkEditAnswers EmptyString EmptyString false EmptyString) st
   = (Ok (), reported)
   ∧ @deleteKey R "no-such-id" true false st = (Ok (), reported))
  ∧ ∃ st',
      @deleteKey R "id-github" true false st = (Ok (), st')
      ∧ @deleteKey R "id-github" true false st'
        = (Ok (), set_trace (trace st' ++ [LogNotFound "id-github"]) st').
Proof.
  intros R st reported. split.
  - destruct (@absent_id_reported_not_raised R st st "no-such-id" 0 eq_refl)
      as (_ & Habsent & _).
    destruct (Habsent eq_refl) as [Hedit Hdelete].
    split; [apply Hedit | apply Hdelete].
  - destruct (@absent_id_reported_not_raised R st st "id-github" 0 eq_refl)
      as (_ & _ & Htwice).
    destruct (Htwice 0 true false eq_refl) as (st' & Hfirst & Hsecond).
    + intros [|j] k Hk Hid; [reflexivity | discriminate Hk].
    + reflexivity.
    + exists st'. split; [exact Hfirst | apply Hsecond].
Defined.

(** C5, as stated, fails: on an id that no record holds, [editKey] and
    [deleteKey] return normally after printing that the key was not found,
    and so does the second of two deletions of the same id; nothing is
    raised. *)
Lemma absent_id_does_not_raise :
  let R := table_runtime [] [] in
  let st := with_loaded [github_key] (@demo_state R) in
  findIndex (has_id "no-such-id") (array_at st 0) = None
  ∧ (@editKey R "no-such-id" (mkEditOptions (Some "renamed") None None)
       (mkEditAnswers EmptyString EmptyString false EmptyString) st).1 = Ok ()
  ∧ (@deleteKey R "no-such-id" true false st).1 = Ok ()
  ∧ (let st' := (@deleteKey R "id-github" true false st).2 in
     array_at st' 0 = []
     ∧ @deleteKey R "id-github" true false st'
       = (Ok (), set_trace (trace st' ++ [LogNotFound "id-github"]) st')).
Proof. intros R st. cbv zeta. split_and!; vm_compute; reflexivity. Qed.

(** An edit of the tag of a record. *)
Lemma editKey_overwrites_named_fields_witness :
  let R := table_runtime [] [] in
  let st := with_loaded [github_key] (@demo_state R) in
  ∃ st' k',
    @editKey R "id-github" (mkEditOptions None (Some "work") None)
      (mkEditAnswers EmptyString EmptyString false EmptyString) st
    = (Ok (), st')
    ∧ array_at st' 0 = [k']
    ∧ k_id k' = VStr "id-github"
    ∧ k_created k' = VStr "2024-01-01T00:00:00.000Z"
    ∧ k_key_type k' = VStr "Ed25519"
    ∧ k_last_modified k' = VStr "T0"
    ∧ k_name k' = VStr "GitHub"
    ∧ k_tag k' = VStr "work"
    ∧ k_key k' = VStr "ssh-ed25519 AAAAC3NzaC1lZDI1NTE5 dev@devbox".
Proof.
  intros R st.
  destruct (@editKey_overwrites_named_fields R st st "id-github"
              (mkEditOptions None (Some "work") None)
              (mkEditAnswers EmptyString EmptyString false EmptyString) 0 0 github_key
              eq_refl eq_refl eq_refl)
    as (st' & k' & Hrun & Harr & Hid & Hcreated & Htype & Hmod & Hname
        & Htag & Hkey).
  exists st', k'. split_and!; assumption.
Defined.



(** A directory import and a scan import into a store that already holds
    the key they bring: the record is appended again. *)
Lemma directory_and_scan_import_every_candidate_witness :
  let R := table_runtime [] [] in
  let st := with_loaded [github_key] (@files_state R) in
  (∃ added,
     array_at (@importFromDirectory R "/keys" st).2 0 = github_key :: added
     ∧ map key_facts added
       = [(VStr "GitHub.pub", k_key github_key, VStr "Ed25519");
          (VStr "id_rsa.pub", VStr "ssh-rsa AAAAB3NzaC1yc2E dev@devbox",
           VStr "RSA")])
  ∧ (∃ added,
       array_at (@importFromScan R [true] st).2 0 = github_key :: added
       ∧ map key_facts added
         = [(VStr "GitHub.pub", k_key github_key, VStr "Ed25519")]).
Proof.
  intros R st.
  destruct (@directory_and_scan_import_every_candidate R) as [Hdir Hscan].
  split.
  - destruct (Hdir st (@fs_readdir "/keys" st).2 (@fs_readdir "/keys" st).2
                "/keys"
                ["GitHub.pub"; "id_broken.pub"; "notes.txt"; "id_rsa.pub"]
                0 [github_key])
      as (added & Harr & Hfacts & _);
      [vm_compute; reflexivity | vm_compute; discriminate
      | vm_compute; reflexivity | vm_compute; reflexivity |].
    exists added. split; [exact Harr | exact Hfacts].
  - destruct (Hscan st (@scanCommonLocations R st).2
                (@scanCommonLocations R st).2 [true]
                [{| s_name := "GitHub.pub";
                    s_path := "/home/dev/.ssh/GitHub.pub";
                    s_content := "ssh-ed25519 AAAAC3NzaC1lZDI1NTE5 dev@devbox";
                    s_type := "Ed25519" |}]
                0 [github_key])
      as (added & Harr & Hfacts & _);
      [vm_compute; reflexivity | vm_compute; discriminate
      | vm_compute; reflexivity | vm_compute; reflexivity |].
    exists added. split; [exact Harr | exact Hfacts].
Defined.

(** Importing the same record twice in succession: the first pass imports
    it, the second pass skips it as a duplicate and leaves the collection as
    it was. *)
Example importFromFile_same_record_twice :
  let R := import_runtime in
  let st1 := (@importFromFile R "/imports/one.json" None files_state).2 in
  let st2 := (@importFromFile R "/imports/one.json" None st1).2 in
  last (trace st1) = Some (LogImported 1)
  ∧ length (array_at st1 0) = 1
  ∧ drop (length (trace st2) - 2) (trace st2)
    = [LogImported 0; LogSkippedDuplicates 1]
  ∧ array_at st2 0 = array_at st1 0.
Proof. cbv zeta. split_and!; vm_compute; reflexivity. Qed.

(** A new manager has no cache, so its cache is valid. *)
Lemma new_SSHKeyManager_cache_valid `{Runtime}
  (keysFilePath encryptionPassword : option string) (h : Host)
  (files : gmap string fnode) (noread nowrite : gset string) (o : Oracle) :
  cache_valid
    (new_SSHKeyManager keysFilePath encryptionPassword h files noread nowrite o).
Proof. intros ref Hcache. discriminate Hcache. Qed.

(** What [saveKeys] guarantees is about its own assignment of the cache.
    Its callers change the cached array in place before they call it: when
    the write then fails, the array of the cache is already ahead of the
    file. Here a deletion whose save fails: the error is printed, no file
    exists, and the cached collection has lost the record. *)
Example deleteKey_failed_save_leaves_array_changed :
  let R := table_runtime [] [] in
  let st := with_loaded [github_key] (@unwritable_state R) in
  let st' := (@deleteKey R "id-github" true false st).2 in
  last (trace st')
  = Some (LogError "Error deleting key:" (EIO "/work/data/ssh_keys.enc"))
  ∧ fs st' !! "/work/data/ssh_keys.enc" = None
  ∧ keysCache st' = keysCache st
  ∧ array_at st 0 = [github_key]
  ∧ array_at st' 0 = [].
Proof. cbv zeta. split_and!; vm_compute; reflexivity. Qed.

(** * Further properties *)

(** ** More on the envelope *)

Lemma string_length_append (s t : string) :
  String.length (s +:+ t) = String.length s + String.length t.
Proof.
  induction s as [|a s IH]; [done|].
  change (S (String.length (s +:+ t)) = S (String.length s + String.length t)).
  by rewrite IH.
Qed.

Lemma hex_encode_length (b : bytes) :
  String.length (hex_encode b) = 2 * length b.
Proof. induction b as [|a b IH]; [done|]. simpl. rewrite IH. lia. Qed.

Lemma string_length_of_list (l : bytes) :
  String.length (String.string_of_list_ascii l) = length l.
Proof. induction l as [|a l IH]; [done|]. simpl. by rewrite IH. Qed.

Lemma list_length_of_string (s : string) :
  length (String.list_ascii_of_string s) = String.length s.
Proof. induction s as [|a s IH]; [done|]. simpl. by rewrite IH. Qed.

Lemma pkcs7_pad_exact_length (l : bytes) :
  length (pkcs7_pad l) = 16 * (length l / 16 + 1).
Proof.
  unfold pkcs7_pad. rewrite length_app, length_replicate.
  pose proof (Nat.mod_upper_bound (length l) 16 ltac:(lia)).
  pose proof (Nat.div_mod_eq (length l) 16). lia.
Qed.

Lemma pkcs7_unpad_shorter (l p : bytes) :
  pkcs7_unpad l = Some p → length p < length l.
Proof.
  unfold pkcs7_unpad. destruct (last l) as [b|]; [|done].
  destruct (_ && _) eqn:Hchecks; [|done]. intros [= <-].
  apply andb_true_iff in Hchecks as [Hchecks _].
  apply andb_true_iff in Hchecks as [Hchecks Hle].
  apply andb_true_iff in Hchecks as [Hone _].
  apply Nat.leb_le in Hone, Hle. rewrite length_take. lia.
Qed.

Lemma xor_bytes_length_le (x y : bytes) :
  length (xor_bytes x y) ≤ length y.
Proof.
  revert y. induction x as [|a x IH]; intros [|b y]; simpl; try lia.
  specialize (IH y). lia.
Qed.

Section EnvelopeMore.
Context `{Runtime}.

Lemma cbc_decrypt_length_le (key prev : bytes) (blocks : list bytes) :
  length prev = 16 →
  Forall (λ c, length c = 16) blocks →
  length (concat (cbc_decrypt key prev blocks)) ≤ 16 * length blocks.
Proof.
  intros Hprev Hall. revert prev Hprev.
  induction Hall as [|c blocks Hc _ IH]; intros prev Hprev; [done|].
  simpl. rewrite length_app.
  pose proof (xor_bytes_length_le (aes_decrypt_block key c) prev).
  specialize (IH c Hc). lia.
Qed.

Lemma cbc_encrypt_length (key prev : bytes) (blocks : list bytes) :
  length (cbc_encrypt key prev blocks) = length blocks.
Proof.
  revert prev. induction blocks as [|b blocks IH]; intros prev; [done|].
  simpl. by rewrite IH.
Qed.

(** X3. [decryptData] returns only on an envelope of the right shape: the
    key has 32 bytes, the text has at least two fields between colons (what
    follows the second field is ignored), the first field decodes to 16
    bytes, the second to a positive number of whole 16-byte blocks; and the
    plaintext is shorter than the ciphertext, by the padding. On any other
    text it throws. The state is left as it is in every case. *)
Theorem decryptData_only_on_envelopes (st st' : State)
  (encryptedData : string) (r : result string) :
  decryptData encryptedData st = (r, st') →
  st' = st
  ∧ ∀ data, r = Ok data →
      length (getEncryptionKey st) = 32
      ∧ ∃ ivHex encrypted rest,
          js_split ":" encryptedData = ivHex :: encrypted :: rest
          ∧ length (hex_decode ivHex) = 16
          ∧ hex_decode encrypted ≠ []
          ∧ length (hex_decode encrypted) mod 16 = 0
          ∧ String.length data < length (hex_decode encrypted).
Proof.
  unfold decryptData. inv_run. split; [done|]. intros data.
  unfold decrypt_envelope, decipher_utf8.
  case_bool_decide as Hkey; [|done]. case_bool_decide as Hiv; [|done].
  cbn [andb].
  destruct (js_split ":" encryptedData) as [|ivHex [|encrypted rest]] eqn:Hs;
    try done.
  change ((ivHex :: encrypted :: rest) !! 1) with (Some encrypted).
  change (default EmptyString ((ivHex :: encrypted :: rest) !! 0)) with ivHex
    in *.
  cbn beta iota.
  case_bool_decide as Hne; [|done]. case_bool_decide as Hmod; [|done].
  cbn [andb].
  destruct (pkcs7_unpad _) as [pt|] eqn:Hunpad; [|done].
  intros [= <-]. split; [done|].
  exists ivHex, encrypted, rest. split_and!; try done.
  apply pkcs7_unpad_shorter in Hunpad.
  rewrite string_length_of_list.
  set (ct := hex_decode encrypted) in *.
  pose proof (chunks_Forall_length (length ct) ct Hmod) as Hblocks.
  pose proof (cbc_decrypt_length_le (getEncryptionKey st') (hex_decode ivHex)
                _ Hiv Hblocks) as Hle.
  rewrite <- concat_blocks_length in Hle by done.
  rewrite chunks_concat in Hle by lia. lia.
Qed.

End EnvelopeMore.

Section EnvelopeShape.
Context `{RuntimeLaws}.

(** X4. Under a 32-byte key, [encryptData] draws one initialisation
    vector and returns two fields separated by one colon: the 32 hexadecimal
    digits of the vector, then the ciphertext, which has one more 16-byte
    block than the plaintext has whole blocks; so the length of the envelope
    depends on the length of the plaintext only. *)
Theorem encryptData_envelope_shape (st : State) (data : string) :
  length (getEncryptionKey st) = 32 →
  length (random_iv (oracle st) (n_iv st)) = 16 →
  ∃ envelope ct,
    encryptData data st = (Ok envelope, set_n_iv (S (n_iv st)) st)
    ∧ js_split ":" envelope
      = [hex_encode (random_iv (oracle st) (n_iv st)); hex_encode ct]
    ∧ length ct = 16 * (String.length data / 16 + 1)
    ∧ String.length envelope = 33 + 32 * (String.length data / 16 + 1).
Proof.
  intros Hkey Hiv.
  set (iv := random_iv (oracle st) (n_iv st)) in *.
  set (padded := pkcs7_pad (String.list_ascii_of_string data)).
  set (blocks := chunks 16 (length padded) padded).
  set (ct := concat (cbc_encrypt (getEncryptionKey st) iv blocks)).
  assert (Forall (λ b, length b = 16) blocks) as Hblocks
    by apply chunks_Forall_length, pkcs7_pad_length.
  destruct (cbc_encrypt_blocks (getEncryptionKey st) iv blocks Hkey Hiv
              Hblocks) as [Hcblocks Hclen].
  assert (length ct = 16 * (String.length data / 16 + 1)) as Hct.
  { unfold ct. rewrite concat_blocks_length, Hclen by done.
    rewrite <- concat_blocks_length by done.
    unfold blocks. rewrite chunks_concat by lia.
    unfold padded. by rewrite pkcs7_pad_exact_length, list_length_of_string. }
  exists (hex_encode iv +:+ ":" +:+ hex_encode ct), ct. split_and!.
  - unfold encryptData, bind, randomBytes16, lift_result, encrypt_envelope,
      cipher_hex. fold iv.
    by rewrite !bool_decide_eq_true_2 by done.
  - apply js_split_envelope.
  - done.
  - rewrite !string_length_append, !hex_encode_length, Hiv, Hct. simpl. lia.
Qed.

End EnvelopeShape.

Section LoadTwice.
Context `{Runtime}.


End LoadTwice.

(** ** More on the store *)

Section StoreMore.
Context `{Runtime}.

(** The path of the store depends on the configuration, the working
    directory and whether the data directory exists. *)
Lemma getKeysFilePath_inv (st st' : State) (filePath : string) :
  getKeysFilePath st = (Ok filePath, st') →
  (truthy_opt (cfg_keysFilePath st) = true
   ∧ cfg_keysFilePath st = Some filePath ∧ st' = st)
  ∨ (truthy_opt (cfg_keysFilePath st) = false
     ∧ filePath = path_join (path_join (cwd (host st)) "data") "ssh_keys.enc"
     ∧ is_Some (fs st' !! path_join (cwd (host st)) "data")
     ∧ fs st ⊆ fs st').
Proof.
  intros Hpath. pose proof (getKeysFilePath_fs _ _ _ Hpath) as Hsub.
  revert Hpath. unfold getKeysFilePath.
  destruct (truthy_opt (cfg_keysFilePath st)) eqn:Hcustom.
  - inv_run. left. split_and!; try done.
    destruct (cfg_keysFilePath st'); [done | discriminate Hcustom].
  - unfold bind, fs_existsSync, fs_mkdirpSync, ret. simpl.
    case_bool_decide as Hfound; simpl.
    + inv_run. right. split_and!; done.
    + case_bool_decide; simpl; inv_run. right. split_and!; try done.
      simpl. rewrite lookup_insert_eq. by eexists.
Qed.

(** On a manager with the same configuration, resolving the path again
    gives the same path once the data directory is there. *)
Lemma getKeysFilePath_again (st st2 : State) (filePath : string) :
  cfg_keysFilePath st2 = cfg_keysFilePath st →
  host st2 = host st →
  (truthy_opt (cfg_keysFilePath st) = true
   ∧ cfg_keysFilePath st = Some filePath)
  ∨ (truthy_opt (cfg_keysFilePath st) = false
     ∧ filePath = path_join (path_join (cwd (host st)) "data") "ssh_keys.enc"
     ∧ is_Some (fs st2 !! path_join (cwd (host st)) "data")) →
  ∃ st2', getKeysFilePath st2 = (Ok filePath, st2')
          ∧ fs st2' = fs st2 ∧ unreadable st2' = unreadable st2
          ∧ getEncryptionKey st2' = getEncryptionKey st2
          ∧ heap st2' = heap st2.
Proof.
  intros Hcfg Hhost [[Hcustom Hsome] | (Hcustom & -> & Hdir)];
    unfold getKeysFilePath; rewrite Hcfg, Hcustom.
  - exists st2. rewrite Hsome. done.
  - unfold bind, fs_existsSync, ret. simpl. rewrite Hhost.
    rewrite bool_decide_eq_true_2 by done. simpl. eexists. done.
Qed.

(** What a successful [saveKeys] did. *)
Lemma saveKeys_ok_inv (keys : nat) (st st' : State) :
  saveKeys keys st = (Ok (), st') →
  ∃ filePath st1 envelope,
    getKeysFilePath st = (Ok filePath, st1)
    ∧ encrypt_envelope (getEncryptionKey st)
        (random_iv (oracle st) (n_iv st))
        (JSON_stringify (array_at st keys)) = Ok envelope
    ∧ fs st' = <[filePath := File envelope]> (fs st1)
    ∧ (∀ entries, fs st1 !! filePath ≠ Some (Dir entries)).
Proof.
  unfold saveKeys. unfold bind at 1.
  destruct (getKeysFilePath st) as [[filePath|e1] st1] eqn:Hpath; [|done].
  pose proof (getKeysFilePath_frame _ _ _ Hpath)
    as (Hc & Hh & Ho & Hiv & _ & _ & Hk & _).
  unfold bind, deref, encryptData, bind, randomBytes16, lift_result.
  rewrite Hk, Ho, Hiv, Hh. fold (array_at st keys).
  destruct (encrypt_envelope _ _ _) as [envelope|e2] eqn:Henc; simpl;
    [|done].
  unfold fs_writeFile. simpl.
  destruct (fs st1 !! filePath) as [[content|entries]|] eqn:Hnode;
    try done; case_bool_decide; try done; inv_run;
    exists filePath, st1, envelope; split_and!; try done;
    intros entries'; congruence.
Qed.

End StoreMore.

Section PersistenceProofs.
Context `{RuntimeLaws}.

(** X2. What [saveKeys] wrote is what a manager without cache loads: on
    the same files, with the same configuration and the same key, as a later
    process has them, [loadKeys] returns an array with the records that were
    saved, provided [JSON.parse] reads back what [JSON.stringify] wrote. *)
Theorem saved_store_loads_back (keys : nat) (st st' st2 : State) :
  saveKeys keys st = (Ok (), st') →
  JSON_parse (JSON_stringify (array_at st keys)) = Some (array_at st keys) →
  length (getEncryptionKey st) = 32 →
  length (random_iv (oracle st) (n_iv st)) = 16 →
  keysCache st2 = None →
  fs st2 = fs st' →
  cfg_keysFilePath st2 = cfg_keysFilePath st →
  host st2 = host st →
  getEncryptionKey st2 = getEncryptionKey st →
  unreadable st2 = ∅ →
  ∃ st3,
    loadKeys st2 = (Ok (length (heap st2)), st3)
    ∧ array_at st3 (length (heap st2)) = array_at st keys.
Proof.
  intros Hsave Hjson Hkey Hiv Hcache Hfs Hcfg Hhost Hkey2 Hread.
  destruct (saveKeys_ok_inv _ _ _ Hsave)
    as (filePath & st1 & envelope & Hpath & Henc & Hfs' & Hnodir).
  destruct (decrypt_encrypt_envelope _ _ (JSON_stringify (array_at st keys))
              Hkey Hiv) as (envelope' & Henc' & Hdec).
  rewrite Henc in Henc'. injection Henc' as <-.
  assert (∃ st2', getKeysFilePath st2 = (Ok filePath, st2')
                  ∧ fs st2' = fs st2 ∧ unreadable st2' = unreadable st2
                  ∧ getEncryptionKey st2' = getEncryptionKey st2
                  ∧ heap st2' = heap st2)
    as (st2' & Hpath2 & Hfs2 & Hun2 & Hk2 & Hh2).
  { apply (getKeysFilePath_again st); [done | done |].
    destruct (getKeysFilePath_inv _ _ _ Hpath)
      as [(Hcustom & Hsome & _) | (Hcustom & Hfile & [node Hdir] & _)].
    - left. done.
    - right. split_and!; try done.
      rewrite Hfs, Hfs', lookup_insert. case_decide; by eexists. }
  destruct (loadKeys_from_disk st2 st2' filePath Hcache Hpath2)
    as (st3 & Hload & _ & Hheap & _).
  exists st3. split; [done|].
  unfold array_at at 1. rewrite Hheap.
  rewrite lookup_app_r, Nat.sub_diag by done. simpl.
  unfold disk_collection.
  rewrite Hfs2, Hfs, Hfs', lookup_insert_eq, Hun2, Hread.
  rewrite bool_decide_eq_false_2 by set_solver.
  by rewrite Hk2, Hkey2, Hdec, Hjson.
Qed.


End PersistenceProofs.

(** ** Errors of the command methods *)

Lemma try_catch_returns {A} (body : M A) (handler : exn → M A) (st : State) :
  (∀ e st1, ∃ a st', handler e st1 = (Ok a, st')) →
  ∃ a st', try_catch body handler st = (Ok a, st').
Proof.
  intros Hhandler. unfold try_catch.
  destruct (body st) as [[a|e] st1]; [by eexists _, _ | apply Hhandler].
Qed.

Lemma findIndex_first {A} (p : A → bool) (l : list A) (i : nat) :
  findIndex p l = Some i →
  ∀ j x, j < i → l !! j = Some x → p x = false.
Proof.
  revert i. induction l as [|y l IH]; intros i; simpl; [done|].
  destruct (p y) eqn:Hp.
  - intros [= <-] j x Hlt. lia.
  - destruct (findIndex p l) as [i'|] eqn:Hfind; simpl; [|done].
    intros [= <-] [|j] x Hlt; simpl.
    + by intros [= <-].
    + apply (IH i' eq_refl). lia.
Qed.

Section CommandErrors.
Context `{Runtime} `{ExportRuntime}.

(** X5. The command methods catch what is thrown inside them: [editKey],
    [deleteKey], [addKey], [copyKey], [exportKeys], [importKeys],
    [importFromFile] and [scanKeys] always return, whatever the state of
    the manager and of the file system. *)
Theorem command_methods_never_raise (st : State) :
  (∀ id options answers,
     ∃ st', editKey id options answers st = (Ok (), st'))
  ∧ (∀ id force confirm, ∃ st', deleteKey id force confirm st = (Ok (), st'))
  ∧ (∀ options answers, ∃ r st', addKey options answers st = (Ok r, st'))
  ∧ (∀ id clipboard_ok, ∃ r st', copyKey id clipboard_ok st = (Ok r, st'))
  ∧ (∀ options answer, ∃ r st', exportKeys options answer st = (Ok r, st'))
  ∧ (∀ options answers, ∃ st', importKeys options answers st = (Ok (), st'))
  ∧ (∀ filePath password,
       ∃ st', importFromFile filePath password st = (Ok (), st'))
  ∧ (∃ r st', scanKeys st = (Ok r, st')).
Proof.
  split_and!; intros.
  - unfold editKey.
    match goal with
    | |- ∃ st', try_catch ?b ?h st = _ =>
        destruct (try_catch_returns b h st) as ([] & st' & Hrun);
          [intros e st1; by eexists _, _ | by exists st']
    end.
  - unfold deleteKey.
    match goal with
    | |- ∃ st', try_catch ?b ?h st = _ =>
        destruct (try_catch_returns b h st) as ([] & st' & Hrun);
          [intros e st1; by eexists _, _ | by exists st']
    end.
  - unfold addKey. apply try_catch_returns. intros e st1. by eexists _, _.
  - unfold copyKey. apply try_catch_returns. intros e st1. by eexists _, _.
  - unfold exportKeys. apply try_catch_returns. intros e st1. by eexists _, _.
  - unfold importKeys.
    match goal with
    | |- ∃ st', try_catch ?b ?h st = _ =>
        destruct (try_catch_returns b h st) as ([] & st' & Hrun);
          [intros e st1; by eexists _, _ | by exists st']
    end.
  - unfold importFromFile.
    match goal with
    | |- ∃ st', try_catch ?b ?h st = _ =>
        destruct (try_catch_returns b h st) as ([] & st' & Hrun);
          [intros e st1; by eexists _, _ | by exists st']
    end.
  - unfold scanKeys. apply try_catch_returns. intros e st1. by eexists _, _.
Qed.

(** X14. [importFromDirectory] has no [try] of its own: when the directory
    cannot be listed it raises what [fs.readdir] raises, before the store is
    loaded, so that only the trace changes; called through [importKeys], the
    same failure is printed instead of raised. *)
Theorem importFromDirectory_raises_on_unreadable_directory (st : State)
  (dirPath : string) :
  (∀ entries, fs st !! dirPath = Some (Dir entries) → dirPath ∈ unreadable st) →
  dirPath ≠ EmptyString →
  let st0 := set_trace (trace st ++ [IoReaddir dirPath]) st in
  importFromDirectory dirPath st = (Throw (EIO dirPath), st0)
  ∧ ∀ password answers,
      importKeys (mkImportOptions None (Some dirPath) password) answers st
      = (Ok (),
         set_trace (trace st0 ++ [LogError "Error importing keys:"
                                    (EIO dirPath)]) st0).
Proof.
  intros Hbad Hne st0.
  assert (fs_readdir dirPath st = (Throw (EIO dirPath), st0)) as Hdir.
  { unfold fs_readdir. fold st0.
    destruct (fs st !! dirPath) as [[content|entries]|] eqn:Hnode; try done.
    by rewrite bool_decide_eq_true_2 by eauto. }
  assert (importFromDirectory dirPath st = (Throw (EIO dirPath), st0)) as Hrun.
  { unfold importFromDirectory, bind. by rewrite Hdir. }
  split; [done|]. intros password answers.
  unfold importKeys, try_catch. simpl.
  assert (String.eqb dirPath EmptyString = false) as ->
    by (by apply String.eqb_neq).
  simpl. by rewrite Hrun.
Qed.

(** X6. A deletion that goes ahead (forced, or confirmed at the prompt)
    removes one record, the first one that has the id: the records before
    it have another id, and the array is what it was without that one
    record, in the same order. This holds whether or not the save that
    follows succeeds. *)
Theorem deleteKey_removes_first_match (st st1 : State) (id : string)
  (keys i : nat) (force confirm : bool) :
  loadKeys st = (Ok keys, st1) →
  findIndex (has_id id) (array_at st1 keys) = Some i →
  force || confirm = true →
  ∃ st' k,
    deleteKey id force confirm st = (Ok (), st')
    ∧ array_at st1 keys !! i = Some k
    ∧ k_id k = VStr id
    ∧ (∀ j k', j < i → array_at st1 keys !! j = Some k' → k_id k' ≠ VStr id)
    ∧ array_at st' keys
      = take i (array_at st1 keys) ++ drop (S i) (array_at st1 keys)
    ∧ S (length (array_at st' keys)) = length (array_at st1 keys).
Proof.
  intros Hload Hfind Hgo.
  destruct (deleteKey_present st st1 id keys i force confirm Hload Hfind Hgo)
    as (st' & Hrun & _ & Harr).
  destruct (findIndex_Some _ _ _ Hfind) as (k & Hk & Hid).
  exists st', k. split_and!; try done.
  - unfold has_id in Hid. by apply strict_eq_spec in Hid.
  - intros j k' Hlt Hk' Heq.
    pose proof (findIndex_first _ _ _ Hfind j k' Hlt Hk') as Hno.
    unfold has_id in Hno. rewrite Heq in Hno.
    assert (strict_eq (VStr id) (VStr id) = true) by (by apply strict_eq_spec).
    congruence.
  - by rewrite Harr, delete_take_drop.
  - rewrite Harr, length_delete by eauto.
    apply lookup_lt_Some in Hk. lia.
Qed.

(** X7. A deletion that is neither forced nor confirmed is cancelled: the
    method prints that and nothing else happens after the load; the array
    keeps all its records and no file is written. *)
Theorem deleteKey_cancelled (st st1 : State) (id : string) (keys i : nat) :
  loadKeys st = (Ok keys, st1) →
  findIndex (has_id id) (array_at st1 keys) = Some i →
  deleteKey id false false st
  = (Ok (), set_trace (trace st1 ++ [LogCancelled]) st1).
Proof.
  intros Hload Hfind. unfold deleteKey, try_catch, bind. rewrite Hload.
  unfold deref. simpl. fold (array_at st1 keys). by rewrite Hfind.
Qed.

(** X9. When the file to import cannot be read or decrypted, or is not a
    JSON document, [importFromFile] prints the error and stops before the
    store is loaded: only the trace changes, by the read and the printed
    line. *)
Theorem importFromFile_fails_before_load (st st0 : State)
  (filePath : string) (password : option string) (r : result string) :
  read_import_content filePath password st = (r, st0) →
  match r with
  | Ok content => JSON_parse_import content = None
  | Throw _ => True
  end →
  ∃ e,
    importFromFile filePath password st
    = (Ok (),
       set_trace (trace st ++ [IoReadFile filePath;
                               LogError "Error importing from file:" e]) st).
Proof.
  intros Hread Hbad.
  assert (st0 = set_trace (trace st ++ [IoReadFile filePath]) st) as ->.
  { revert Hread.
    unfold read_import_content, bind, fs_readFile, lift_result.
    destruct (truthy_opt password); simpl;
      destruct (fs st !! filePath) as [[content|entries]|]; simpl;
      repeat (case_bool_decide; simpl); by inv_run. }
  unfold importFromFile, try_catch. unfold bind at 1. rewrite Hread.
  destruct r as [content|e].
  - exists ESyntax. unfold bind. rewrite Hbad. unfold throw, emit. simpl.
    by rewrite <- app_assoc.
  - exists e. unfold emit. simpl. by rewrite <- app_assoc.
Qed.

End CommandErrors.

(** ** More on the import of a file *)

Lemma matches_sym (a b : KeyRecord) : matches a b → matches b a.
Proof. unfold matches. intros [Hk|Hn]; [left|right]; done. Qed.

Lemma no_match_pairs_snoc (l : list KeyRecord) (x : KeyRecord) :
  no_match_pairs l →
  (∀ existing, existing ∈ l → ¬ matches existing x) →
  no_match_pairs (l ++ [x]).
Proof.
  intros Hl Hx i j a b Ha Hb Hm.
  apply lookup_snoc_Some in Ha as [[Hi Ha]|[Hi <-]];
    apply lookup_snoc_Some in Hb as [[Hj Hb]|[Hj <-]].
  - by apply (Hl i j a b).
  - exfalso. apply (Hx a); [by eapply list_elem_of_lookup_2 | done].
  - exfalso. apply (Hx b); [by eapply list_elem_of_lookup_2|].
    by apply matches_sym.
  - lia.
Qed.

Section ImportFileMore.
Context `{Runtime}.

(** What the loop of [importFromFile] does to the array, whether it comes
    to its end or throws on the way. *)
Lemma importFromFile_loop_appends (ref : nat) (keys : list KeyRecord) :
  ∀ (i0 d0 : nat) (st st' : State) (arr : list KeyRecord)
    (r : result (nat * nat)),
    heap st !! ref = Some arr →
    importFromFile_loop ref keys i0 d0 st = (r, st') →
    ∃ added,
      heap st' !! ref = Some (arr ++ added)
      ∧ (no_match_pairs arr → no_match_pairs (arr ++ added))
      ∧ sublist (map name_and_key added) (map name_and_key keys)
      ∧ map k_id added
        = map (λ n, VStr (random_uuid (oracle st) n))
              (seq (n_uuid st) (length added))
      ∧ trace st' = trace st ∧ fs st' = fs st
      ∧ keysCache st' = keysCache st
      ∧ match r with
        | Ok (i, d) =>
            i = i0 + length added ∧ i + d = i0 + d0 + length keys
        | Throw e =>
            e = ETypeError ∧ length added < length keys
            ∧ ∃ keyData, keyData ∈ keys ∧ untyped_record keyData
        end.
Proof.
  induction keys as [|keyData keys IH]; intros i0 d0 st st' arr r Harr.
  - simpl. unfold ret. inv_run. exists []. rewrite app_nil_r.
    split_and!; try done; simpl; lia.
  - cbn [importFromFile_loop]. unfold bind at 1. unfold deref at 1.
    rewrite Harr. change (default [] (Some arr)) with arr.
    destruct (isDuplicate arr keyData) eqn:Hdup; cbn [negb].
    + intros Hrun.
      destruct (IH _ _ _ _ _ _ Harr Hrun)
        as (added & Harr' & Hinv & Hsub & Hids & Htr & Hfs & Hc & Hr).
      exists added. split_and!; try done.
      * simpl. by apply sublist_cons.
      * destruct r as [[i d]|e].
        -- simpl. lia.
        -- destruct Hr as (-> & Hlen & bad & Hbad & Hun).
           split_and!; [done|simpl; lia|].
           exists bad. split; [by apply list_elem_of_further|done].
    + pose proof (proj1 (isDuplicate_false_spec _ _) Hdup) as Hnone.
      unfold bind at 1. unfold generateId at 1.
      set (st1 := set_n_uuid (S (n_uuid st)) st).
      unfold bind at 1.
      destruct ((if truthy (k_key_type keyData) then ret (k_key_type keyData)
                 else detectKeyType_of (k_key keyData)) st1)
        as [[key_type|e] st2] eqn:Htype.
      2: { assert (e = ETypeError ∧ untyped_record keyData) as [-> Hun].
           { unfold untyped_record.
             destruct (truthy (k_key_type keyData)); [done|].
             unfold detectKeyType_of in Htype.
             destruct (k_key keyData) as [| |s]; try done;
               unfold throw in Htype; by inversion Htype. }
           inv_run. exists []. rewrite app_nil_r.
           assert (heap st' !! ref = Some arr ∧ trace st' = trace st
                   ∧ fs st' = fs st ∧ keysCache st' = keysCache st)
             as (Hh & Ht & Hf & Hc).
           { destruct (truthy (k_key_type keyData)); [done|].
             unfold detectKeyType_of in Htype.
             destruct (k_key keyData) as [| |s]; try done;
               unfold throw in Htype; inversion Htype; by subst. }
           split_and!; try done; [apply sublist_nil_l | simpl; lia |].
           exists keyData. split; [apply list_elem_of_here | done]. }
      assert (st2 = st1) as ->.
      { destruct (truthy (k_key_type keyData)).
        - unfold ret in Htype. by inversion Htype.
        - unfold detectKeyType_of in Htype.
          destruct (k_key keyData) as [| |s]; try done.
          unfold ret in Htype. by inversion Htype. }
      unfold bind at 1.
      destruct ((if truthy (k_created keyData) then ret (k_created keyData)
                 else let! t := now in ret (VStr t)) st1)
        as [[created|e] st3] eqn:Hcreated.
      2: { destruct (truthy (k_created keyData)); done. }
      assert (heap st3 = heap st ∧ trace st3 = trace st ∧ fs st3 = fs st
              ∧ keysCache st3 = keysCache st ∧ oracle st3 = oracle st
              ∧ n_uuid st3 = S (n_uuid st))
        as (Hh3 & Ht3 & Hf3 & Hc3 & Ho3 & Hu3).
      { destruct (truthy (k_created keyData));
          [unfold ret in Hcreated | unfold bind, now, ret in Hcreated];
          inversion Hcreated; subst; done. }
      unfold bind at 1. unfold now at 1.
      unfold bind at 1. unfold push at 1.
      set (newKey := mkKeyRecord _ _ _ _ _ _ _).
      set (st4 := set_heap _ _).
      intros Hrun.
      assert (heap st4 !! ref = Some (arr ++ [newKey])) as Harr4.
      { unfold st4. simpl. by rewrite Hh3, list_lookup_alter_eq, Harr. }
      destruct (IH _ _ _ _ _ _ Harr4 Hrun)
        as (added & Harr' & Hinv & Hsub & Hids & Htr & Hfs & Hc & Hr).
      exists (newKey :: added). split_and!.
      * by rewrite Harr', <- app_assoc.
      * intros Hno.
        replace (arr ++ newKey :: added) with ((arr ++ [newKey]) ++ added)
          by (by rewrite <- app_assoc).
        apply Hinv, no_match_pairs_snoc; [done|].
        intros existing Hin Hm. apply (Hnone existing Hin).
        destruct Hm as [Hk|Hn]; [by left | by right].
      * simpl. by apply sublist_skip.
      * simpl. rewrite Hids. simpl. by rewrite Ho3, Hu3.
      * by rewrite Htr.
      * by rewrite Hfs.
      * by rewrite Hc.
      * destruct r as [[i d]|e].
        -- simpl. lia.
        -- destruct Hr as (-> & Hlen & bad & Hbad & Hun).
           split_and!; [done|simpl; lia|].
           exists bad. split; [by apply list_elem_of_further|done].
Qed.

(** The run of [importFromFile] once its file is read and parsed and the
    store is loaded. *)
Lemma importFromFile_run (st st0 st1 st2 : State) (filePath : string)
  (password : option string) (content : string) (data : ImportDoc)
  (ref : nat) (r : result (nat * nat)) :
  read_import_content filePath password st = (Ok content, st0) →
  JSON_parse_import content = Some data →
  loadKeys st0 = (Ok ref, st1) →
  importFromFile_loop ref (doc_keys data) 0 0 st1 = (r, st2) →
  ∃ st',
    importFromFile filePath password st = (Ok (), st')
    ∧ heap st' = heap st2
    ∧ match r with
      | Throw e =>
          st' = set_trace (trace st2 ++ [LogError "Error importing from file:"
                                           e]) st2
      | Ok (i, d) =>
          (∃ e, last (trace st')
                = Some (LogError "Error importing from file:" e))
          ∨ ∃ evs,
              trace st'
              = evs ++ LogImported i
                       :: (if (0 <? d)%nat then [LogSkippedDuplicates d]
                           else [])
      end.
Proof.
  intros Hread Hparse Hload Hloop.
  unfold importFromFile, try_catch. unfold bind at 1. rewrite Hread.
  unfold bind at 1. rewrite Hparse. unfold ret at 1.
  unfold bind at 1. rewrite Hload. unfold bind at 1. rewrite Hloop.
  destruct r as [[i d]|e]; [|by eexists].
  unfold bind at 1.
  destruct (saveKeys ref st2) as [[[]|e] st3] eqn:Hsave;
    apply saveKeys_outcome in Hsave as (Hh3 & _).
  - unfold bind, emit, ret. cbn [fst snd].
    destruct (0 <? d)%nat; eexists; (split; [done|]); (split; [done|]);
      right; simpl.
    + exists (trace st3). by rewrite <- app_assoc.
    + by exists (trace st3).
  - eexists. split; [done|]. split; [done|]. left. eexists. apply last_snoc.
Qed.

(** X10. An import from a file accounts for every record of the document.
    The records of the store are kept as they are, in place; what is
    appended follows the order of the document and carries ids drawn one
    after the other from the generator; and when the counts are printed,
    the number printed as imported is the number of records appended, the
    number printed as skipped is the number of the other records of the
    document, and the line about duplicates is printed only when there are
    some. *)
Theorem importFromFile_accounts_for_every_record (st st0 st1 : State)
  (filePath : string) (password : option string) (content : string)
  (data : ImportDoc) (ref : nat) (arr0 : list KeyRecord) :
  read_import_content filePath password st = (Ok content, st0) →
  JSON_parse_import content = Some data →
  loadKeys st0 = (Ok ref, st1) →
  heap st1 !! ref = Some arr0 →
  ∃ st' added,
    importFromFile filePath password st = (Ok (), st')
    ∧ array_at st' ref = arr0 ++ added
    ∧ sublist (map name_and_key added) (map name_and_key (doc_keys data))
    ∧ map k_id added
      = map (λ n, VStr (random_uuid (oracle st1) n))
            (seq (n_uuid st1) (length added))
    ∧ ((∃ e, last (trace st')
             = Some (LogError "Error importing from file:" e))
       ∨ ∃ evs d,
           length added + d = length (doc_keys data)
           ∧ trace st'
             = evs ++ LogImported (length added)
                      :: (if (0 <? d)%nat then [LogSkippedDuplicates d]
                          else [])).
Proof.
  intros Hread Hparse Hload Harr0.
  destruct (importFromFile_loop ref (doc_keys data) 0 0 st1)
    as [r st2] eqn:Hloop.
  destruct (importFromFile_loop_appends _ _ _ _ _ _ _ _ Harr0 Hloop)
    as (added & Harr2 & _ & Hsub & Hids & _ & _ & _ & Hr).
  destruct (importFromFile_run _ _ _ _ _ _ _ _ _ _ Hread Hparse Hload Hloop)
    as (st' & Hrun & Hheap & Hout).
  exists st', added. split_and!; try done.
  - unfold array_at. by rewrite Hheap, Harr2.
  - destruct r as [[i d]|e].
    + destruct Hr as [-> Hsum]. destruct Hout as [Herr|[evs Htrace]];
        [by left|]. right. exists evs, d. split; [lia|done].
    + left. exists e. rewrite Hout. apply last_snoc.
Qed.

(** X11. An import from a file keeps the records of the store distinct:
    when no two records of the loaded store have the same name or the same
    key material, the same holds of the store after the import, whether the
    import came to its end, stopped on a record or failed to save. *)
Theorem importFromFile_keeps_records_distinct (st st0 st1 : State)
  (filePath : string) (password : option string) (content : string)
  (data : ImportDoc) (ref : nat) (arr0 : list KeyRecord) :
  read_import_content filePath password st = (Ok content, st0) →
  JSON_parse_import content = Some data →
  loadKeys st0 = (Ok ref, st1) →
  heap st1 !! ref = Some arr0 →
  no_match_pairs arr0 →
  no_match_pairs (array_at (importFromFile filePath password st).2 ref).
Proof.
  intros Hread Hparse Hload Harr0 Hno.
  destruct (importFromFile_loop ref (doc_keys data) 0 0 st1)
    as [r st2] eqn:Hloop.
  destruct (importFromFile_loop_appends _ _ _ _ _ _ _ _ Harr0 Hloop)
    as (added & Harr2 & Hinv & _).
  destruct (importFromFile_run _ _ _ _ _ _ _ _ _ _ Hread Hparse Hload Hloop)
    as (st' & Hrun & Hheap & _).
  rewrite Hrun. unfold array_at. simpl. rewrite Hheap, Harr2. by apply Hinv.
Qed.


End ImportFileMore.

(** ** Scans *)

Lemma same_but_trace_refl (st : State) : same_but_trace st st.
Proof. exists []. rewrite app_nil_r. by destruct st. Qed.

Lemma same_but_trace_trans (st1 st2 st3 : State) :
  same_but_trace st1 st2 → same_but_trace st2 st3 → same_but_trace st1 st3.
Proof.
  intros [evs1 ->] [evs2 ->]. exists (evs1 ++ evs2). simpl.
  by rewrite app_assoc.
Qed.

Lemma same_but_trace_emit (st : State) (evs : list event) :
  same_but_trace st (set_trace (trace st ++ evs) st).
Proof. by exists evs. Qed.

Section ScanProofs.
Context `{Runtime}.

Lemma readable_in_same (st st' : State) (dirPath : string)
  (files : list string) :
  same_but_trace st st' →
  readable_in st' dirPath files = readable_in st dirPath files.
Proof. by intros [evs ->]. Qed.

Lemma location_keys_same (st st' : State) :
  same_but_trace st st' → location_keys st' = location_keys st.
Proof. by intros [evs ->]. Qed.

Lemma scannable_same (st st' : State) (location : string) :
  same_but_trace st st' → scannable st location → scannable st' location.
Proof. by intros [evs ->]. Qed.

(** The inner loop never throws: a file that cannot be read is skipped. *)
Lemma scan_files_run (location : string) (files : list string) :
  ∀ (foundKeys : list ScannedKey) (st : State),
    ∃ st',
      scan_files location files foundKeys st
      = (Ok (foundKeys
             ++ (scanned_entry location
                   <$> readable_in st location
                         (List.filter (λ file, endsWith file ".pub") files))),
         st')
      ∧ same_but_trace st st'.
Proof.
  induction files as [|file files IH]; intros foundKeys st.
  - exists st. simpl. unfold ret. rewrite app_nil_r.
    split; [done | apply same_but_trace_refl].
  - cbn [scan_files List.filter].
    destruct (endsWith file ".pub"); [|apply IH].
    unfold bind at 1. unfold try_catch. unfold bind at 1.
    rewrite fs_readFile_spec, readable_in_cons.
    set (st1 := set_trace _ st).
    assert (same_but_trace st st1) as Hst1 by apply same_but_trace_emit.
    destruct (readable_file st (path_join location file)) as [content|].
    + unfold ret at 1.
      destruct (IH (foundKeys
                    ++ [{| s_name := file;
                           s_path := path_join location file;
                           s_content := trim content;
                           s_type := detectKeyType content |}]) st1)
        as (st' & Hrun & Hsame).
      exists st'. rewrite Hrun, (readable_in_same st st1) by done.
      split; [|by eapply same_but_trace_trans].
      by rewrite <- app_assoc.
    + unfold ret at 1.
      destruct (IH foundKeys st1) as (st' & Hrun & Hsame).
      exists st'. rewrite Hrun, (readable_in_same st st1) by done.
      split; [done | by eapply same_but_trace_trans].
Qed.

(** The outer loop over locations that can be gone through. *)
Lemma scan_locations_app (pre rest : list string) :
  ∀ (foundKeys : list ScannedKey) (st : State),
    Forall (scannable st) pre →
    ∃ st1,
      same_but_trace st st1
      ∧ scan_locations (pre ++ rest) foundKeys st
        = scan_locations rest
            (foundKeys ++ concat (location_keys st <$> pre)) st1.
Proof.
  induction pre as [|location pre IH]; intros foundKeys st Hall.
  - exists st. simpl. rewrite app_nil_r.
    split; [apply same_but_trace_refl | done].
  - apply Forall_cons in Hall as [Hloc Hall].
    cbn [scan_locations app]. unfold bind at 1. unfold fs_existsSync at 1.
    set (st1 := set_trace _ st).
    assert (same_but_trace st st1) as Hst1 by apply same_but_trace_emit.
    unfold scannable in Hloc. rewrite fmap_cons. cbn [concat].
    unfold location_keys at 1.
    destruct (fs st !! location) as [[content|entries]|] eqn:Hnode.
    + done.
    + rewrite bool_decide_eq_true_2 by eauto.
      unfold bind at 1. unfold fs_readdir at 1.
      change (fs st1) with (fs st). rewrite Hnode.
      change (unreadable st1) with (unreadable st).
      rewrite bool_decide_eq_false_2 by done.
      set (st2 := set_trace _ st1).
      assert (same_but_trace st st2) as Hst2.
      { eapply same_but_trace_trans; [done|apply same_but_trace_emit]. }
      unfold bind at 1.
      destruct (scan_files_run location entries foundKeys st2)
        as (st3 & Hrun & Hsame3).
      rewrite Hrun.
      assert (same_but_trace st st3) as Hst3
        by (by eapply same_but_trace_trans).
      destruct (IH (foundKeys
                    ++ (scanned_entry location
                          <$> readable_in st2 location
                                (List.filter (λ file, endsWith file ".pub")
                                   entries))) st3)
        as (st' & Hsame' & Hrun').
      { eapply Forall_impl; [done|]. intros l. by apply scannable_same. }
      exists st'. split; [by eapply same_but_trace_trans|].
      rewrite Hrun', (location_keys_same st st3) by done.
      by rewrite (readable_in_same st st2), <- app_assoc by done.
    + rewrite bool_decide_eq_false_2 by (by intros [? ?]).
      destruct (IH foundKeys st1) as (st' & Hsame' & Hrun').
      { eapply Forall_impl; [done|]. intros l. by apply scannable_same. }
      exists st'. split; [by eapply same_but_trace_trans|].
      by rewrite Hrun', (location_keys_same st st1) by done.
Qed.

(** A location that exists and cannot be listed stops the scan. *)
Lemma scan_locations_stops (bad : string) (post : list string)
  (foundKeys : list ScannedKey) (st : State) :
  ¬ scannable st bad →
  ∃ st',
    scan_locations (bad :: post) foundKeys st = (Throw (EIO bad), st')
    ∧ same_but_trace st st'.
Proof.
  intros Hbad. cbn [scan_locations].
  unfold bind at 1. unfold fs_existsSync at 1.
  set (st1 := set_trace _ st).
  assert (same_but_trace st (set_trace (trace st1 ++ [IoReaddir bad]) st1))
    as Hsame.
  { eapply same_but_trace_trans; apply same_but_trace_emit. }
  unfold scannable in Hbad.
  destruct (fs st !! bad) as [[content|entries]|] eqn:Hnode; [| |done].
  - rewrite bool_decide_eq_true_2 by eauto.
    unfold bind at 1. unfold fs_readdir at 1.
    change (fs st1) with (fs st). rewrite Hnode. by eexists.
  - rewrite bool_decide_eq_true_2 by eauto.
    unfold bind at 1. unfold fs_readdir at 1.
    change (fs st1) with (fs st). rewrite Hnode.
    change (unreadable st1) with (unreadable st).
    rewrite bool_decide_eq_true_2 by (by apply dec_stable). by eexists.
Qed.

Lemma getCommonSSHLocations_state (st st0 : State)
  (r : result (list string)) :
  getCommonSSHLocations st = (r, st0) → st0 = st.
Proof.
  unfold getCommonSSHLocations.
  destruct (String.eqb (platform (host st)) "win32"); [|by inv_run].
  destruct (env_APPDATA (host st)), (env_LOCALAPPDATA (host st)); by inv_run.
Qed.

(** X13. A scan whose locations each either do not exist or are
    directories that can be listed finds, location after location and in
    the order of each directory, the entries named [*.pub] that can be read
    as files, with their content trimmed and their type detected on the
    untrimmed content; entries that cannot be read are passed over
    silently. The scan changes nothing but the trace, and [scanKeys] reports
    the same keys. *)
Theorem scanCommonLocations_finds_readable_pub_files (st st0 : State)
  (locations : list string) :
  getCommonSSHLocations st = (Ok locations, st0) →
  Forall (scannable st) locations →
  let found := concat (location_keys st <$> locations) in
  ∃ st',
    scanCommonLocations st = (Ok found, st')
    ∧ same_but_trace st st'
    ∧ scanKeys st
      = (Ok (match found with
             | [] => ScanNothing
             | _ :: _ => ScanFound found
             end), st').
Proof.
  intros Hloc Hall found.
  pose proof (getCommonSSHLocations_state _ _ _ Hloc) as ->.
  destruct (scan_locations_app locations [] [] st Hall) as (st' & Hsame & Hrun).
  rewrite app_nil_r in Hrun. simpl in Hrun. unfold ret in Hrun.
  exists st'. split_and!; [|done|].
  - unfold scanCommonLocations, bind. by rewrite Hloc, Hrun.
  - unfold scanKeys, try_catch, bind. rewrite Hloc, Hrun. fold found.
    by destruct found.
Qed.

(** X15. A location that exists and cannot be listed, because it is a file
    or because the directory cannot be read, stops the scan, unlike a file
    that cannot be read inside a location: [scanCommonLocations] raises
    what [fs.readdir] raises and the keys found so far are lost.
    [importFromScan] has no [try] and raises it too; [scanKeys] prints
    it. *)
Theorem scan_stops_on_unlistable_location (st st0 : State)
  (pre post : list string) (bad : string) :
  getCommonSSHLocations st = (Ok (pre ++ bad :: post), st0) →
  Forall (scannable st) pre →
  ¬ scannable st bad →
  ∃ st',
    scanCommonLocations st = (Throw (EIO bad), st')
    ∧ same_but_trace st st'
    ∧ (∀ ticks, importFromScan ticks st = (Throw (EIO bad), st'))
    ∧ scanKeys st
      = (Ok (ScanFailed (EIO bad)),
         set_trace (trace st' ++ [LogError "Error scanning keys:" (EIO bad)])
           st').
Proof.
  intros Hloc Hpre Hbad.
  pose proof (getCommonSSHLocations_state _ _ _ Hloc) as ->.
  destruct (scan_locations_app pre (bad :: post) [] st Hpre)
    as (st1 & Hsame1 & Hrun1).
  destruct (scan_locations_stops bad post
              ([] ++ concat (location_keys st <$> pre)) st1)
    as (st' & Hrun & Hsame).
  { intros Hs. apply Hbad. destruct Hsame1 as [evs ->]. done. }
  rewrite Hrun in Hrun1.
  assert (scanCommonLocations st = (Throw (EIO bad), st')) as Hscan.
  { unfold scanCommonLocations, bind. by rewrite Hloc, Hrun1. }
  exists st'. split_and!; [done|by eapply same_but_trace_trans| |].
  - intros ticks. unfold importFromScan, bind. by rewrite Hscan.
  - unfold scanKeys, try_catch, bind. by rewrite Hloc, Hrun1.
Qed.

End ScanProofs.

(** ** Adding a key *)

Lemma findIndex_app_fresh {A} (p : A → bool) (l : list A) (x : A) :
  (∀ y, y ∈ l → p y = false) → p x = true →
  findIndex p (l ++ [x]) = Some (length l).
Proof.
  intros Hl Hx. induction l as [|y l IH]; simpl.
  - by rewrite Hx.
  - rewrite (Hl y) by apply list_elem_of_here.
    rewrite IH; [done|]. intros z Hz. by apply Hl, list_elem_of_further.
Qed.

Section AddProofs.
Context `{Runtime}.

(** A scan changes nothing but the trace, whatever its outcome. *)
Lemma scan_locations_frame (locations : list string) :
  ∀ (foundKeys : list ScannedKey) (st st' : State)
    (r : result (list ScannedKey)),
    scan_locations locations foundKeys st = (r, st') →
    same_but_trace st st'.
Proof.
  induction locations as [|location locations IH];
    intros foundKeys st st' r.
  - simpl. unfold ret. inv_run. apply same_but_trace_refl.
  - cbn [scan_locations]. unfold bind at 1. unfold fs_existsSync at 1.
    set (st1 := set_trace _ st).
    assert (same_but_trace st st1) as Hst1 by apply same_but_trace_emit.
    destruct (bool_decide _).
    + unfold bind at 1.
      destruct (fs_readdir location st1) as [[files|e] st2] eqn:Hdir.
      all: assert (same_but_trace st1 st2) as Hst2
             by (unfold fs_readdir in Hdir;
                 destruct (fs st1 !! location) as [[?|?]|];
                 repeat case_bool_decide; inversion Hdir;
                 apply same_but_trace_emit).
      2: { inv_run. by eapply same_but_trace_trans. }
      unfold bind at 1.
      destruct (scan_files_run location files foundKeys st2)
        as (st3 & -> & Hst3).
      intros Hrun. apply IH in Hrun.
      eapply same_but_trace_trans; [done|].
      eapply same_but_trace_trans; [done|].
      by eapply same_but_trace_trans.
    + intros Hrun. apply IH in Hrun. by eapply same_but_trace_trans.
Qed.

(** Asking for the name, the tag and the content changes nothing but the
    trace. *)
Lemma addKey_input_frame (options : AddOptions) (answers : AddAnswers)
  (st st0 : State) (r : result (option (string * option string * string))) :
  addKey_input options answers st = (r, st0) → same_but_trace st st0.
Proof.
  unfold addKey_input.
  destruct (negb _ || negb _); [|unfold ret; inv_run; apply same_but_trace_refl].
  destruct (aa_source answers) as [content|filePath|choice].
  - unfold ret. inv_run. apply same_but_trace_refl.
  - unfold bind. rewrite fs_readFile_spec.
    destruct (readable_file st filePath); unfold ret; inv_run;
      apply same_but_trace_emit.
  - unfold bind, scanCommonLocations, bind.
    destruct (getCommonSSHLocations st) as [[locations|e] st1] eqn:Hloc;
      pose proof (getCommonSSHLocations_state _ _ _ Hloc) as ->;
      [|inv_run; apply same_but_trace_refl].
    destruct (scan_locations locations [] st) as [[scannedKeys|e] st2] eqn:Hscan;
      apply scan_locations_frame in Hscan; [|by inv_run].
    destruct scannedKeys as [|s scannedKeys].
    + unfold emit, ret. inv_run.
      eapply same_but_trace_trans; [done|apply same_but_trace_emit].
    + destruct ((s :: scannedKeys) !! choice); unfold ret, throw; by inv_run.
Qed.

(** The run of [addKey] once it has a content that is not blank and the
    store is loaded: the record is appended, then the store is saved. *)
Lemma addKey_run (st st0 st3 : State) (options : AddOptions)
  (answers : AddAnswers) (name : string) (tag : option string)
  (keyContent : string) (keys : nat) (arr0 : list KeyRecord) :
  addKey_input options answers st = (Ok (Some (name, tag, keyContent)), st0) →
  keyContent ≠ EmptyString →
  trim keyContent ≠ EmptyString →
  loadKeys (set_n_uuid (S (n_uuid st0)) (set_n_clock (S (n_clock st0)) st0))
  = (Ok keys, st3) →
  heap st3 !! keys = Some arr0 →
  let newKey := added_record name tag keyContent
                  (random_uuid (oracle st0) (n_uuid st0))
                  (clock (oracle st0) (n_clock st0)) in
  ∃ st4,
    heap st4 !! keys = Some (arr0 ++ [newKey])
    ∧ st4 = set_heap (alter (λ arr, arr ++ [newKey]) keys (heap st3)) st3
    ∧ addKey options answers st
      = match saveKeys keys st4 with
        | (Ok _, st5) => (Ok (AddAdded newKey), st5)
        | (Throw e, st5) =>
            (Ok (AddFailed e),
             set_trace (trace st5 ++ [LogError "Error adding key:" e]) st5)
        end.
Proof.
  intros Hinput Hne Htrim Hload Harr0 newKey.
  eexists. split; [|split; [reflexivity|]].
  { simpl. by rewrite list_lookup_alter_eq, Harr0. }
  unfold addKey, try_catch. unfold bind at 1. rewrite Hinput.
  assert (String.eqb keyContent EmptyString = false) as ->
    by (by apply String.eqb_neq).
  assert (String.eqb (trim keyContent) EmptyString = false) as ->
    by (by apply String.eqb_neq).
  cbn [orb]. unfold bind at 1. unfold now at 1.
  unfold bind at 1. unfold generateId at 1.
  unfold bind at 1.
  change (loadKeys _) with
    (loadKeys (set_n_uuid (S (n_uuid st0))
                 (set_n_clock (S (n_clock st0)) st0))).
  rewrite Hload. unfold bind at 1. unfold push at 1.
  unfold bind at 1. fold newKey.
  change (added_record _ _ _ _ _) with newKey.
  by destruct (saveKeys keys _) as [[[]|e] st5].
Qed.

Lemma addKey_blank_run (st st0 : State) (options : AddOptions)
  (answers : AddAnswers) (name : string) (tag : option string)
  (keyContent : string) :
  addKey_input options answers st = (Ok (Some (name, tag, keyContent)), st0) →
  keyContent = EmptyString ∨ trim keyContent = EmptyString →
  addKey options answers st = (Ok AddContentRequired, st0).
Proof.
  intros Hinput Hblank.
  unfold addKey, try_catch. unfold bind at 1. rewrite Hinput.
  assert (String.eqb keyContent EmptyString
          || String.eqb (trim keyContent) EmptyString = true) as ->; [|done].
  apply orb_true_iff.
  destruct Hblank as [->| ->]; [left|right]; apply String.eqb_refl.
Qed.


(** X17. [addKey] refuses a content that is empty or blank, whether it
    comes from the options, from the editor, from a file or from a scan: it
    reports that the content is required, and nothing has changed but the
    trace of what was read; no id is drawn and the store is not loaded. *)
Theorem addKey_blank_content_is_refused (st st0 : State)
  (options : AddOptions) (answers : AddAnswers) (name : string)
  (tag : option string) (keyContent : string) :
  addKey_input options answers st = (Ok (Some (name, tag, keyContent)), st0) →
  keyContent = EmptyString ∨ trim keyContent = EmptyString →
  addKey options answers st = (Ok AddContentRequired, st0)
  ∧ same_but_trace st st0.
Proof.
  intros Hinput Hblank.
  split; [by eapply addKey_blank_run | by eapply addKey_input_frame].
Qed.

(** X18. Adding a key and then deleting the id that was given to it brings
    the store back to the records it had, provided the id drawn from the
    generator was not the id of a record of the store: [deleteKey] removes
    the first record that has the id, which is then the new one. *)
Theorem deleteKey_undoes_addKey (st st0 st3 st' : State)
  (options : AddOptions) (answers : AddAnswers) (name : string)
  (tag : option string) (keyContent : string) (keys : nat)
  (arr0 : list KeyRecord) (newKey : KeyRecord) (confirm : bool) :
  addKey_input options answers st = (Ok (Some (name, tag, keyContent)), st0) →
  loadKeys (set_n_uuid (S (n_uuid st0)) (set_n_clock (S (n_clock st0)) st0))
  = (Ok keys, st3) →
  heap st3 !! keys = Some arr0 →
  addKey options answers st = (Ok (AddAdded newKey), st') →
  (∀ k, k ∈ arr0 → k_id k ≠ VStr (random_uuid (oracle st0) (n_uuid st0))) →
  k_id newKey = VStr (random_uuid (oracle st0) (n_uuid st0))
  ∧ array_at st' keys = arr0 ++ [newKey]
  ∧ ∃ st'',
      deleteKey (random_uuid (oracle st0) (n_uuid st0)) true confirm st'
      = (Ok (), st'')
      ∧ array_at st'' keys = arr0.
Proof.
  intros Hinput Hload Harr0 Hadd Hfresh.
  destruct (decide (keyContent = EmptyString)) as [Hblank|Hne].
  { rewrite (addKey_blank_run _ _ _ _ _ _ _ Hinput (or_introl Hblank)) in Hadd.
    discriminate Hadd. }
  destruct (decide (trim keyContent = EmptyString)) as [Hblank|Htrim].
  { rewrite (addKey_blank_run _ _ _ _ _ _ _ Hinput (or_intror Hblank)) in Hadd.
    discriminate Hadd. }
  destruct (addKey_run _ _ _ _ _ _ _ _ _ _ Hinput Hne Htrim Hload Harr0)
    as (st4 & Harr4 & Hst4 & Hrun).
  rewrite Hrun in Hadd.
  destruct (saveKeys keys st4) as [[[]|e] st5] eqn:Hsave; [|discriminate Hadd].
  inversion Hadd; subst newKey st5. clear Hadd.
  pose proof (saveKeys_outcome _ _ _ _ Hsave) as (Hh5 & _ & _ & _ & Hc5 & _).
  assert (array_at st' keys
          = arr0 ++ [added_record name tag keyContent
                       (random_uuid (oracle st0) (n_uuid st0))
                       (clock (oracle st0) (n_clock st0))]) as Harr'.
  { unfold array_at. by rewrite Hh5, Harr4. }
  split_and!; [done|done|].
  assert (loadKeys st' = (Ok keys, st')) as Hload'.
  { unfold loadKeys. by rewrite Hc5. }
  destruct (deleteKey_present st' st' (random_uuid (oracle st0) (n_uuid st0))
              keys (length arr0) true confirm Hload')
    as (st'' & Hdel & _ & Harr''); [|done|].
  { rewrite Harr'. apply findIndex_app_fresh.
    - intros k Hk. unfold has_id.
      destruct (strict_eq (k_id k) _) eqn:Heq; [|done].
      apply strict_eq_spec in Heq. by destruct (Hfresh k Hk).
    - unfold has_id. by apply strict_eq_spec. }
  exists st''. split; [done|].
  rewrite Harr'', Harr'. clear.
  induction arr0 as [|k arr0 IH]; [done|]. simpl. by rewrite IH.
Qed.

End AddProofs.

(** ** A store that cannot be read *)

Lemma same_setup_refl (st : State) : same_setup st st.
Proof. by repeat split. Qed.

Lemma same_setup_trans (st1 st2 st3 : State) :
  same_setup st1 st2 → same_setup st2 st3 → same_setup st1 st3.
Proof.
  unfold same_setup. intros H12 H23. destruct_and!.
  split_and!; congruence.
Qed.

Section UnreadableStore.
Context `{Runtime}.

Lemma getKeysFilePath_setup (st st' : State) (r : result string) :
  getKeysFilePath st = (r, st') → same_setup st st'.
Proof.
  unfold getKeysFilePath. destruct (truthy_opt (cfg_keysFilePath st)).
  - inv_run. apply same_setup_refl.
  - unfold bind, fs_existsSync, fs_mkdirpSync, ret. simpl.
    repeat (case_bool_decide; simpl); inv_run; by repeat split.
Qed.

(** [loadKeys] leaves the setup as it is, and the files as the resolution
    of the path left them. *)
Lemma loadKeys_setup (st st1 : State) (r : result nat) :
  loadKeys st = (r, st1) →
  same_setup st st1
  ∧ ∀ r0 st0, keysCache st = None → getKeysFilePath st = (r0, st0) →
              fs st1 = fs st0.
Proof.
  unfold loadKeys. destruct (keysCache st) as [ref|] eqn:Hcache.
  { inv_run. split; [apply same_setup_refl | done]. }
  unfold bind.
  destruct (getKeysFilePath st) as [[filePath|e] st0] eqn:Hpath;
    pose proof (getKeysFilePath_setup _ _ _ Hpath) as Hsetup.
  2: { inv_run. split; [done|]. intros r0 st0 _. by inv_run. }
  intros Hrun.
  assert (same_setup st0 st1 ∧ fs st1 = fs st0) as [Hs Hfs].
  { revert Hrun. unfold fs_existsSync. simpl. case_bool_decide; simpl.
    - unfold try_catch, bind, fs_readFile. simpl.
      destruct (fs st0 !! filePath) as [[encryptedData|entries]|]; simpl.
      + case_bool_decide; simpl; [inv_run; by repeat split|].
        unfold decryptData. simpl.
        destruct (decrypt_envelope _ encryptedData) as [decryptedData|e];
          simpl; [|inv_run; by repeat split].
        unfold parse_store.
        destruct (JSON_parse decryptedData) as [parsed|]; simpl;
          inv_run; by repeat split.
      + inv_run; by repeat split.
      + inv_run; by repeat split.
    - inv_run; by repeat split. }
  split; [by eapply same_setup_trans|].
  intros r0 st0' _. by inv_run.
Qed.

(** X8. A store that exists and cannot be read, decrypted or parsed is
    replaced by the next save. [loadKeys] prints the error and returns an
    empty array; whatever the caller then puts in that array, and nothing
    else, is what a [saveKeys] that succeeds writes in the place of the old
    file. *)
Theorem unreadable_store_is_replaced (st st0 st1 st2 st3 : State)
  (filePath old : string) (keys : nat) :
  keysCache st = None →
  getKeysFilePath st = (Ok filePath, st0) →
  fs st0 !! filePath = Some (File old) →
  disk_collection st0 filePath = None →
  loadKeys st = (Ok keys, st1) →
  same_setup st1 st2 →
  fs st2 = fs st1 →
  saveKeys keys st2 = (Ok (), st3) →
  array_at st1 keys = []
  ∧ (∃ e, last (trace st1) = Some (LogError "Error loading keys:" e))
  ∧ fs st1 !! filePath = Some (File old)
  ∧ ∃ envelope,
      fs st3 !! filePath = Some (File envelope)
      ∧ encrypt_envelope (getEncryptionKey st2)
          (random_iv (oracle st2) (n_iv st2))
          (JSON_stringify (array_at st2 keys)) = Ok envelope.
Proof.
  intros Hcache Hpath Hold Hbad Hload Hsetup Hfs Hsave.
  destruct (loadKeys_from_disk _ _ _ Hcache Hpath)
    as (st1' & Hload' & _ & Hheap & Herr).
  rewrite Hload in Hload'. inversion Hload'; subst keys st1'. clear Hload'.
  destruct (loadKeys_setup _ _ _ Hload) as [Hsetup1 Hfs1].
  specialize (Hfs1 _ _ Hcache Hpath).
  split_and!.
  - unfold array_at.
    by rewrite Hheap, lookup_app_r, Nat.sub_diag, Hbad by done.
  - apply Herr; [by eexists | done].
  - by rewrite Hfs1.
  - destruct (saveKeys_ok_inv _ _ _ Hsave)
      as (filePath' & st2' & envelope & Hpath' & Henc & Hfs3 & _).
    pose proof (same_setup_trans _ _ _ Hsetup1 Hsetup) as Hs.
    destruct Hs as (Hcfg & _ & _ & _ & Hhost & _).
    destruct (getKeysFilePath_again st st2 filePath Hcfg Hhost)
      as (st2'' & Hagain & _).
    { destruct (getKeysFilePath_inv _ _ _ Hpath)
        as [(Hcustom & Hsome & _) | (Hcustom & -> & Hdir & _)];
        [by left | right].
      split_and!; try done. by rewrite Hfs, Hfs1. }
    rewrite Hpath' in Hagain. inversion Hagain; subst filePath' st2''.
    exists envelope. split; [|done]. by rewrite Hfs3, lookup_insert_eq.
Qed.

End UnreadableStore.

(** ** Exports *)

(** The end of [exportKeys]: the write of the file. *)
Ltac export_write sel :=
  unfold bind at 1; unfold fs_writeFile at 1; simpl;
  destruct (fs _ !! _) as [[?|?]|]; try (by inv_run);
  case_bool_decide; try (by inv_run); inv_run;
  eexists sel, _, _; by split_and!.

(** The steps of [exportKeys] once the records are selected: the path, the
    date, the envelope when there is a password, the write. *)
Ltac export_steps sel :=
  destruct (truthy_opt (exp_file _));
  [ unfold ret at 1; unfold bind at 1; unfold now at 1
  | unfold bind at 1; unfold now at 1; unfold ret at 1;
    unfold bind at 1; unfold now at 1 ];
  (destruct (truthy_opt (exp_password _));
   [ unfold bind at 1; unfold randomBytes16 at 1;
     unfold bind at 1; unfold lift_result at 1;
     destruct (encrypt_envelope _ _ _) as [content|e] eqn:Henc;
     [|by inv_run];
     export_write sel
   | export_write sel ]).

Section ExportProofs.
Context `{Runtime} `{ExportRuntime}.

(** What an export that succeeded did. *)
Lemma exportKeys_exported_inv (st st1 st' : State) (options : ExportOptions)
  (answer_filePath : string) (keys count : nat) (outputPath : string)
  (encrypted : bool) :
  loadKeys st = (Ok keys, st1) →
  exportKeys options answer_filePath st
  = (Ok (Exported count outputPath encrypted), st') →
  ∃ sel exported_at content,
    export_selection options (array_at st1 keys) = Some sel
    ∧ sel ≠ []
    ∧ count = length sel
    ∧ outputPath = export_path options answer_filePath
    ∧ encrypted = truthy_opt (exp_password options)
    ∧ (if encrypted
       then encrypt_envelope
              (deriveKeyFromPassword
                 (default EmptyString (exp_password options)))
              (random_iv (oracle st1) (n_iv st1))
              (JSON_stringify_export exported_at count sel) = Ok content
       else content = JSON_stringify_export exported_at count sel)
    ∧ fs st' = <[outputPath := File content]> (fs st1)
    ∧ heap st' = heap st1 ∧ keysCache st' = keysCache st1
    ∧ unreadable st' = unreadable st1
    ∧ n_uuid st' = n_uuid st1 ∧ oracle st' = oracle st1.
Proof.
  intros Hload. unfold exportKeys, try_catch. unfold bind at 1.
  rewrite Hload. unfold bind at 1. unfold deref at 1.
  fold (array_at st1 keys).
  destruct (array_at st1 keys) as [|k0 arr'] eqn:Harr; [by inv_run|].
  unfold export_selection, export_path.
  set (arr := k0 :: arr') in *.
  unfold bind at 1.
  destruct (truthy_opt (exp_id options)).
  - destruct (List.find _ arr) as [key|] eqn:Hfind; [|by inv_run].
    unfold ret at 1. unfold bind at 1. export_steps [key].
  - unfold ret at 1. unfold bind at 1. export_steps arr.
Qed.

Lemma find_first {A} (p : A → bool) (l : list A) (x : A) :
  List.find p l = Some x →
  ∃ i, l !! i = Some x ∧ p x = true ∧ findIndex p l = Some i.
Proof.
  induction l as [|y l IH]; simpl; [done|].
  destruct (p y) eqn:Hp.
  - intros [= <-]. by exists 0.
  - intros Hfind. destruct (IH Hfind) as (i & Hi & Hx & Hidx).
    exists (S i). by rewrite Hidx.
Qed.

(** X19. An export that succeeds writes one file and leaves the store as
    it is. The file holds the document of the selected records, with their
    key material: all the records of the store, or, when an id is given,
    the first record that has the id and no other. Without a password the
    document is written as it is, in the clear; with a password it is
    written as an envelope under the key derived from that password, not
    under the key of the manager. *)
Theorem exportKeys_writes_selection (st st1 st' : State)
  (options : ExportOptions) (answer_filePath : string) (keys count : nat)
  (outputPath : string) (encrypted : bool) :
  loadKeys st = (Ok keys, st1) →
  exportKeys options answer_filePath st
  = (Ok (Exported count outputPath encrypted), st') →
  ∃ sel exported_at content,
    (match exp_id options with
     | Some id =>
         if String.eqb id EmptyString then sel = array_at st1 keys
         else ∃ i key, sel = [key] ∧ array_at st1 keys !! i = Some key
                       ∧ k_id key = VStr id
                       ∧ findIndex (has_id id) (array_at st1 keys) = Some i
     | None => sel = array_at st1 keys
     end)
    ∧ count = length sel
    ∧ 0 < count
    ∧ (match exp_password options with
       | Some password =>
           if String.eqb password EmptyString
           then content = JSON_stringify_export exported_at count sel
           else encrypt_envelope (deriveKeyFromPassword password)
                  (random_iv (oracle st1) (n_iv st1))
                  (JSON_stringify_export exported_at count sel) = Ok content
       | None => content = JSON_stringify_export exported_at count sel
       end)
    ∧ fs st' = <[outputPath := File content]> (fs st1)
    ∧ array_at st' keys = array_at st1 keys
    ∧ keysCache st' = keysCache st1.
Proof.
  intros Hload Hrun.
  destruct (exportKeys_exported_inv _ _ _ _ _ _ _ _ _ Hload Hrun)
    as (sel & exported_at & content & Hsel & Hne & -> & -> & -> & Hcontent
        & Hfs & Hheap & Hcache & _).
  exists sel, exported_at, content. split_and!; try done.
  - revert Hsel. unfold export_selection, truthy_opt.
    destruct (exp_id options) as [id|]; [|by intros [= <-]].
    unfold truthy. destruct (String.eqb id EmptyString); simpl;
      [by intros [= <-]|].
    destruct (List.find _ _) as [key|] eqn:Hfind; [|done].
    intros [= <-]. destruct (find_first _ _ _ Hfind) as (i & Hi & Hid & Hidx).
    exists i, key. split_and!; try done.
    unfold has_id in Hid. by apply strict_eq_spec in Hid.
  - destruct sel; [done | simpl; lia].
  - revert Hcontent. unfold truthy_opt.
    destruct (exp_password options) as [password|]; [|done].
    unfold truthy. by destruct (String.eqb password EmptyString).
  - unfold array_at. by rewrite Hheap.
Qed.

End ExportProofs.

Section ExportRoundTrip.
Context `{RuntimeLaws} `{ExportRuntime}.

(** X20. What [exportKeys] wrote, [importFromFile] reads back, on any
    manager that has the file and is given the same password or none: the
    content it gets to parse is the document of the selected records, as
    [JSON.stringify] produced it. The key of the manager that exported and
    the key of the manager that imports play no part. *)
Theorem exported_file_reads_back (st st1 st' st2 : State)
  (options : ExportOptions) (answer_filePath : string) (keys count : nat)
  (outputPath : string) (encrypted : bool) :
  loadKeys st = (Ok keys, st1) →
  exportKeys options answer_filePath st
  = (Ok (Exported count outputPath encrypted), st') →
  length (random_iv (oracle st1) (n_iv st1)) = 16 →
  fs st2 !! outputPath = fs st' !! outputPath →
  outputPath ∉ unreadable st2 →
  ∃ sel exported_at,
    export_selection options (array_at st1 keys) = Some sel
    ∧ count = length sel
    ∧ read_import_content outputPath (exp_password options) st2
      = (Ok (JSON_stringify_export exported_at count sel),
         set_trace (trace st2 ++ [IoReadFile outputPath]) st2).
Proof.
  intros Hload Hrun Hiv Hfile Hreadable.
  destruct (exportKeys_exported_inv _ _ _ _ _ _ _ _ _ Hload Hrun)
    as (sel & exported_at & content & Hsel & Hne & -> & -> & -> & Hcontent
        & Hfs & _).
  exists sel, exported_at. split_and!; try done.
  assert (readable_file st2 (export_path options answer_filePath)
          = Some content) as Hread.
  { unfold readable_file.
    rewrite Hfile, Hfs, lookup_insert_eq.
    by rewrite bool_decide_eq_false_2 by done. }
  unfold read_import_content.
  destruct (truthy_opt (exp_password options)).
  - unfold bind. rewrite fs_readFile_spec, Hread. unfold lift_result.
    destruct (decrypt_encrypt_envelope
                (deriveKeyFromPassword
                   (default EmptyString (exp_password options)))
                (random_iv (oracle st1) (n_iv st1))
                (JSON_stringify_export exported_at (length sel) sel))
      as (envelope & Henc & Hdec); [apply sha256_length | done |].
    rewrite Hcontent in Henc. inversion Henc; subst envelope.
    by rewrite Hdec.
  - rewrite fs_readFile_spec, Hread. by rewrite Hcontent.
Qed.

End ExportRoundTrip.

(** ** Importing the same file again *)

Lemma import_steps_all_matched (o : Oracle) (nu nc : nat)
  (arr keys : list KeyRecord) (nu' nc' : nat) (arr' : list KeyRecord)
  (i d : nat) :
  import_steps o nu nc arr keys nu' nc' arr' i d →
  (∃ added, arr' = arr ++ added)
  ∧ ∀ keyData, keyData ∈ keys →
      ∃ existing, existing ∈ arr' ∧ matches existing keyData.
Proof.
  induction 1 as [nu nc arr
                 |nu nc arr keyData keys nu' nc' arr' i d Hdup Hsteps IH
                 |nu nc arr keyData keys nu' nc' arr' i d newKey nc1
                    Hnew Hid Hname Hkey Htag Htype Hcreated Hmod Hsteps IH].
  - split; [exists []; by rewrite app_nil_r|]. intros keyData Hin.
    by apply elem_of_nil in Hin.
  - destruct IH as [[added ->] Hall]. split; [by exists added|].
    intros k [->|Hin]%elem_of_cons; [|by apply Hall].
    destruct Hdup as (existing & Hin & Hm). exists existing.
    split; [|done]. apply elem_of_app. by left.
  - destruct IH as [[added ->] Hall]. split.
    { exists (newKey :: added). by rewrite <- app_assoc. }
    intros k [->|Hin]%elem_of_cons; [|by apply Hall].
    exists newKey. split; [|by left].
    apply elem_of_app. left. apply elem_of_app. right.
    apply list_elem_of_here.
Qed.

Section ImportAgain.
Context `{Runtime}.

(** On a document whose records all match a record of the array, the loop
    imports nothing and changes nothing. *)
Lemma importFromFile_loop_all_duplicates (ref : nat)
  (keys : list KeyRecord) :
  ∀ (i0 d0 : nat) (st : State) (arr : list KeyRecord),
    heap st !! ref = Some arr →
    (∀ keyData, keyData ∈ keys →
       ∃ existing, existing ∈ arr ∧ matches existing keyData) →
    importFromFile_loop ref keys i0 d0 st = (Ok (i0, d0 + length keys), st).
Proof.
  induction keys as [|keyData keys IH]; intros i0 d0 st arr Harr Hall.
  - simpl. unfold ret. by rewrite Nat.add_0_r.
  - cbn [importFromFile_loop]. unfold bind at 1. unfold deref at 1.
    rewrite Harr. change (default [] (Some arr)) with arr.
    assert (isDuplicate arr keyData = true) as ->.
    { apply isDuplicate_spec, Hall, list_elem_of_here. }
    cbn [negb]. rewrite (IH _ _ _ arr Harr).
    + simpl. do 3 f_equal. lia.
    + intros k Hk. by apply Hall, list_elem_of_further.
Qed.

Lemma read_import_content_spec (filePath : string) (password : option string)
  (st : State) :
  read_import_content filePath password st
  = (match readable_file st filePath with
     | Some content =>
         if truthy_opt password
         then decrypt_envelope
                (deriveKeyFromPassword (default EmptyString password)) content
         else Ok content
     | None => Throw (EIO filePath)
     end,
     set_trace (trace st ++ [IoReadFile filePath]) st).
Proof.
  unfold read_import_content.
  destruct (truthy_opt password).
  - unfold bind. rewrite fs_readFile_spec.
    by destruct (readable_file st filePath).
  - rewrite fs_readFile_spec. by destruct (readable_file st filePath).
Qed.

(** After [importFromFile] the cache refers to the array that was
    loaded. *)
Lemma importFromFile_run_cache (st st0 st1 st2 st' : State)
  (filePath : string) (password : option string) (content : string)
  (data : ImportDoc) (ref : nat) (arr0 : list KeyRecord)
  (r : result (nat * nat)) :
  read_import_content filePath password st = (Ok content, st0) →
  JSON_parse_import content = Some data →
  loadKeys st0 = (Ok ref, st1) →
  heap st1 !! ref = Some arr0 →
  importFromFile_loop ref (doc_keys data) 0 0 st1 = (r, st2) →
  importFromFile filePath password st = (Ok (), st') →
  keysCache st' = Some ref.
Proof.
  intros Hread Hparse Hload Harr0 Hloop.
  destruct (importFromFile_loop_appends _ _ _ _ _ _ _ _ Harr0 Hloop)
    as (added & _ & _ & _ & _ & _ & _ & Hc2 & _).
  rewrite (loadKeys_ok_cache _ _ _ Hload) in Hc2.
  unfold importFromFile, try_catch. unfold bind at 1. rewrite Hread.
  unfold bind at 1. rewrite Hparse. unfold ret at 1.
  unfold bind at 1. rewrite Hload. unfold bind at 1. rewrite Hloop.
  destruct r as [[i d]|e]; [|by inv_run].
  unfold bind at 1.
  destruct (saveKeys ref st2) as [[[]|e] st3] eqn:Hsave;
    apply saveKeys_outcome in Hsave as (_ & _ & _ & _ & Hc3).
  - destruct Hc3 as [Hc3 _]. unfold bind, emit, ret. cbn [fst snd].
    destruct (0 <? d)%nat; by inv_run.
  - inv_run. simpl. by rewrite Hc3.
Qed.

(** X21. Importing the same file a second time imports nothing: once an
    import has gone through the document, every record of the document has
    the name or the key material of a record of the store, either one that
    was there or the one appended for it, so that the second pass counts
    every record as a duplicate and leaves the array as it is. *)
Theorem importFromFile_again_imports_nothing (st st0 st1 st2 : State)
  (filePath : string) (password : option string) (content : string)
  (data : ImportDoc) (ref : nat) (arr0 : list KeyRecord)
  (counts : nat * nat) :
  read_import_content filePath password st = (Ok content, st0) →
  JSON_parse_import content = Some data →
  loadKeys st0 = (Ok ref, st1) →
  heap st1 !! ref = Some arr0 →
  importFromFile_loop ref (doc_keys data) 0 0 st1 = (Ok counts, st2) →
  let st' := (importFromFile filePath password st).2 in
  readable_file st' filePath = readable_file st filePath →
  ∃ st'',
    importFromFile filePath password st' = (Ok (), st'')
    ∧ array_at st'' ref = array_at st' ref
    ∧ ((∃ e, last (trace st'')
             = Some (LogError "Error importing from file:" e))
       ∨ ∃ evs,
           trace st''
           = evs ++ LogImported 0
                    :: (if (0 <? length (doc_keys data))%nat
                        then [LogSkippedDuplicates (length (doc_keys data))]
                        else [])).
Proof.
  intros Hread Hparse Hload Harr0 Hloop st' Hfile.
  destruct (importFromFile_run _ _ _ _ _ _ _ _ _ _ Hread Hparse Hload Hloop)
    as (st1' & Hrun & Hheap & _).
  pose proof (importFromFile_run_cache _ _ _ _ _ _ _ _ _ _ _ _
                Hread Hparse Hload Harr0 Hloop Hrun) as Hcache.
  assert (st' = st1') as Est by (unfold st'; by rewrite Hrun).
  clearbody st'. subst st1'.
  destruct (importFromFile_loop_steps _ _ _ _ _ _ _ _ _ Harr0
              (eq_trans Hloop (f_equal (λ c, (Ok c, st2))
                                 (surjective_pairing counts))))
    as (arr1 & i1 & d1 & Harr1 & _ & _ & Hsteps & _).
  destruct (import_steps_all_matched _ _ _ _ _ _ _ _ _ _ Hsteps)
    as [_ Hall].
  set (st0' := set_trace (trace st' ++ [IoReadFile filePath]) st').
  assert (read_import_content filePath password st' = (Ok content, st0'))
    as Hread'.
  { rewrite read_import_content_spec, Hfile.
    rewrite read_import_content_spec in Hread.
    by inversion Hread. }
  assert (loadKeys st0' = (Ok ref, st0')) as Hload'.
  { unfold loadKeys. simpl. by rewrite Hcache. }
  assert (heap st0' !! ref = Some arr1) as Harr1'.
  { simpl. by rewrite Hheap. }
  pose proof (importFromFile_loop_all_duplicates ref (doc_keys data) 0 0
                st0' arr1 Harr1' Hall) as Hloop'.
  destruct (importFromFile_run _ _ _ _ _ _ _ _ _ _
              Hread' Hparse Hload' Hloop')
    as (st'' & Hrun' & Hheap' & Hout).
  exists st''. split_and!; [done| |done].
  unfold array_at. by rewrite Hheap'.
Qed.

End ImportAgain.

(** ** The configuration *)

Section ConfigProofs.
Context `{Runtime}.




End ConfigProofs.

Section KeyLength.
Context `{RuntimeLaws}.

(** X23. The key of a manager has 32 bytes, as the cipher requires: this
    holds of the manager that the constructor builds, whatever the
    configuration and the host, and of any manager whose keys follow its
    configuration; an empty password in the configuration counts as none
    and leaves the machine key in use. *)
Theorem manager_key_has_32_bytes (st : State) :
  (key_follows_config st → length (getEncryptionKey st) = 32)
  ∧ (∀ keysFilePath encryptionPassword h files noread nowrite o,
       let st0 := new_SSHKeyManager keysFilePath encryptionPassword h files
                    noread nowrite o in
       key_follows_config st0
       ∧ length (getEncryptionKey st0) = 32
       ∧ (truthy_opt encryptionPassword = false →
          getEncryptionKey st0 = getMachineKey h)
       ∧ (∀ password, encryptionPassword = Some password →
                      password ≠ EmptyString →
                      getEncryptionKey st0 = deriveKeyFromPassword password)).
Proof.
  assert (∀ st, key_follows_config st → length (getEncryptionKey st) = 32)
    as Hlen.
  { intros st0 [Hmk Hpk]. unfold getEncryptionKey. rewrite Hmk, Hpk.
    destruct (truthy_opt _); [|apply sha256_length].
    destruct (cfg_encryptionPassword st0); simpl; apply sha256_length. }
  split; [apply Hlen|].
  intros keysFilePath encryptionPassword h files noread nowrite o st0.
  assert (key_follows_config st0) as Hinv by done.
  split_and!; [done | by apply Hlen | |].
  - intros Hfalsy. unfold st0, getEncryptionKey, new_SSHKeyManager. simpl.
    by rewrite Hfalsy.
  - intros password -> Hne. unfold st0, getEncryptionKey, new_SSHKeyManager.
    simpl. unfold truthy.
    by rewrite (proj2 (String.eqb_neq password EmptyString) Hne).
Qed.

End KeyLength.

(** ** Listing *)

Lemma filter_throwing_total (callback : KeyRecord → result bool)
  (p : KeyRecord → bool) (arr : list KeyRecord) :
  (∀ key, key ∈ arr → callback key = Ok (p key)) →
  filter_throwing callback arr = Ok (List.filter p arr).
Proof.
  induction arr as [|key arr IH]; intros Hall; simpl; [done|].
  rewrite (Hall key) by apply list_elem_of_here.
  rewrite IH; [done|]. intros k Hk. by apply Hall, list_elem_of_further.
Qed.

Lemma filter_throwing_returns (callback : KeyRecord → result bool)
  (arr kept : list KeyRecord) :
  filter_throwing callback arr = Ok kept →
  ∀ key, key ∈ arr → ∃ keep, callback key = Ok keep.
Proof.
  revert kept. induction arr as [|k arr IH]; intros kept; simpl.
  - intros _ key Hin. by apply elem_of_nil in Hin.
  - destruct (callback k) as [keep|e] eqn:Hk; [|done].
    destruct (filter_throwing callback arr) as [kept'|e] eqn:Hrest; [|done].
    intros _ key [->|Hin]%elem_of_cons; [by exists keep|].
    by apply (IH kept').
Qed.

Lemma filter_filter_and {A} (p q : A → bool) (l : list A) :
  List.filter q (List.filter p l) = List.filter (λ x, p x && q x) l.
Proof.
  induction l as [|x l IH]; simpl; [done|].
  destruct (p x); simpl; [|done]. destruct (q x); by rewrite IH.
Qed.

Lemma filter_sublist {A} (p : A → bool) (l : list A) :
  sublist (List.filter p l) l.
Proof.
  induction l as [|x l IH]; simpl; [constructor|].
  destruct (p x); by constructor.
Qed.

Lemma filter_all {A} (p : A → bool) (l : list A) :
  (∀ x, x ∈ l → p x = true) → List.filter p l = l.
Proof.
  induction l as [|x l IH]; intros Hall; simpl; [done|].
  rewrite (Hall x) by apply list_elem_of_here.
  rewrite IH; [done|]. intros y Hy. by apply Hall, list_elem_of_further.
Qed.

Lemma elem_of_filter {A} (p : A → bool) (l : list A) (x : A) :
  x ∈ List.filter p l → x ∈ l ∧ p x = true.
Proof.
  induction l as [|y l IH]; simpl; [by intros ?%elem_of_nil|].
  destruct (p y) eqn:Hp.
  - intros [->|Hin]%elem_of_cons; [split; [apply list_elem_of_here|done]|].
    destruct (IH Hin). split; [by apply list_elem_of_further|done].
  - intros Hin. destruct (IH Hin).
    split; [by apply list_elem_of_further|done].
Qed.

Section ListProofs.
Context `{Runtime} `{TextRuntime}.

(** X24. On a store whose records have a string as name, as type and as
    key, [listKeys] shows the records that meet all the criteria given, in
    the order of the store, and reports that none matches when there is
    none: the search term occurs in the lowered name, tag or type; the
    lowered tag is the lowered tag asked for; the lowered type is the
    lowered type asked for. Without criteria it shows the whole store.
    Nothing changes but what [loadKeys] changes. *)
Theorem listKeys_shows_wanted_records (st st1 : State) (options : ListOptions)
  (keys : nat) :
  loadKeys st = (Ok keys, st1) →
  Forall well_formed (array_at st1 keys) →
  listKeys options st
  = (Ok (match array_at st1 keys with
         | [] => ListEmpty
         | _ :: _ =>
             match List.filter (wanted options) (array_at st1 keys) with
             | [] => ListNoMatch
             | shown => Listed shown
             end
         end), st1).
Proof.
  intros Hload Hwf. unfold listKeys, try_catch. unfold bind at 1.
  rewrite Hload. unfold bind at 1. unfold deref at 1.
  fold (array_at st1 keys).
  destruct (array_at st1 keys) as [|k0 arr'] eqn:Harr; [done|].
  set (arr := k0 :: arr') in *.
  rewrite Forall_forall in Hwf.
  set (p1 := λ key : KeyRecord,
         if truthy_opt (lo_search options) then
           let term := toLowerCase (default EmptyString (lo_search options)) in
           includes (toLowerCase (text_of (k_name key))) term
           || (negb (String.eqb (tag_text key) EmptyString)
               && includes (toLowerCase (tag_text key)) term)
           || includes (toLowerCase (text_of (k_key_type key))) term
         else true).
  set (p2 := λ key : KeyRecord,
         if truthy_opt (lo_tag options) then
           negb (String.eqb (tag_text key) EmptyString)
           && String.eqb (toLowerCase (tag_text key))
                (toLowerCase (default EmptyString (lo_tag options)))
         else true).
  set (p3 := λ key : KeyRecord,
         if truthy_opt (lo_type options) then
           String.eqb (toLowerCase (text_of (k_key_type key)))
             (toLowerCase (default EmptyString (lo_type options)))
         else true).
  assert (List.filter (wanted options) arr
          = List.filter p3 (List.filter p2 (List.filter p1 arr))) as ->.
  { rewrite !filter_filter_and. apply List.filter_ext. intros key.
    unfold wanted, p1, p2, p3. by rewrite andb_assoc. }
  unfold bind at 1.
  assert ((if truthy_opt (lo_search options)
           then lift_result
                  (filter_throwing
                     (search_callback
                        (toLowerCase (default EmptyString (lo_search options))))
                     arr)
           else ret arr) st1 = (Ok (List.filter p1 arr), st1)) as ->.
  { unfold p1. destruct (truthy_opt (lo_search options)).
    - unfold lift_result. rewrite (filter_throwing_total _ p1); [done|].
      intros key Hin. destruct (Hwf key Hin) as ([n Hn] & [t Ht] & _).
      unfold search_callback, p1, tag_text, truthy. rewrite Hn, Ht. simpl.
      destruct (includes (toLowerCase n) _); [done|]. simpl.
      destruct (k_tag key) as [| |tag]; simpl; try done.
      by destruct (negb (String.eqb tag EmptyString) && includes _ _).
    - unfold ret. by rewrite (filter_all (λ _, true)). }
  assert ((if truthy_opt (lo_tag options)
           then List.filter
                  (tag_callback (default EmptyString (lo_tag options)))
                  (List.filter p1 arr)
           else List.filter p1 arr) = List.filter p2 (List.filter p1 arr))
    as ->.
  { unfold p2. destruct (truthy_opt (lo_tag options)).
    - apply List.filter_ext. intros key.
      unfold tag_callback, tag_text, truthy.
      by destruct (k_tag key) as [| |tag].
    - by rewrite (filter_all (λ _, true)). }
  unfold bind at 1.
  assert ((if truthy_opt (lo_type options)
           then lift_result
                  (filter_throwing
                     (type_callback (default EmptyString (lo_type options)))
                     (List.filter p2 (List.filter p1 arr)))
           else ret (List.filter p2 (List.filter p1 arr))) st1
          = (Ok (List.filter p3 (List.filter p2 (List.filter p1 arr))), st1))
    as ->.
  { unfold p3. destruct (truthy_opt (lo_type options)).
    - unfold lift_result. rewrite (filter_throwing_total _ p3); [done|].
      intros key Hin.
      apply elem_of_filter in Hin as [Hin _].
      apply elem_of_filter in Hin as [Hin _].
      destruct (Hwf key Hin) as (_ & [t Ht] & _).
      unfold type_callback, p3. by rewrite Ht.
    - unfold ret. by rewrite (filter_all (λ _, true)). }
  destruct (List.filter p3 _) as [|k1 shown] eqn:Hshown; [done|].
  unfold bind, lift_result.
  rewrite (filter_throwing_total _ (λ _, true)).
  - by rewrite (filter_all (λ _, true)).
  - intros key Hin. rewrite <- Hshown in Hin.
    apply elem_of_filter in Hin as [Hin _].
    apply elem_of_filter in Hin as [Hin _].
    apply elem_of_filter in Hin as [Hin _].
    destruct (Hwf key Hin) as (_ & _ & [s Hs]).
    unfold display_callback. by rewrite Hs.
Qed.

Lemma filter_throwing_sublist (callback : KeyRecord → result bool)
  (arr kept : list KeyRecord) :
  filter_throwing callback arr = Ok kept → sublist kept arr.
Proof.
  revert kept. induction arr as [|k arr IH]; intros kept; simpl.
  - intros [= <-]. constructor.
  - destruct (callback k) as [keep|e]; [|done].
    destruct (filter_throwing callback arr) as [kept'|e]; [|done].
    intros [= <-]. destruct keep; constructor; by apply IH.
Qed.

(** X25. A listing that is shown went through every record: what is shown
    is a part of the store, in its order, and each record shown has a
    string as key; and when a search term was given, every record of the
    store, shown or not, has a string as name. So one record without a
    name, as an import can leave, makes every search end on the error
    instead of a listing. *)
Theorem listKeys_shown_needs_strings (st st1 st' : State)
  (options : ListOptions) (keys : nat) (shown : list KeyRecord) :
  loadKeys st = (Ok keys, st1) →
  listKeys options st = (Ok (Listed shown), st') →
  st' = st1
  ∧ sublist shown (array_at st1 keys)
  ∧ (∀ key, key ∈ shown → ∃ s, k_key key = VStr s)
  ∧ (truthy_opt (lo_search options) = true →
     ∀ key, key ∈ array_at st1 keys → ∃ s, k_name key = VStr s).
Proof.
  intros Hload. unfold listKeys, try_catch. unfold bind at 1.
  rewrite Hload. unfold bind at 1. unfold deref at 1.
  fold (array_at st1 keys).
  destruct (array_at st1 keys) as [|k0 arr'] eqn:Harr; [by inv_run|].
  set (arr := k0 :: arr') in *. clearbody arr.
  unfold bind at 1.
  destruct ((if truthy_opt (lo_search options)
             then lift_result
                    (filter_throwing
                       (search_callback
                          (toLowerCase
                             (default EmptyString (lo_search options))))
                       arr)
             else ret arr) st1) as [[searched|e] st2] eqn:Hsearch;
    [|by inv_run].
  assert (st2 = st1 ∧ sublist searched arr
          ∧ (truthy_opt (lo_search options) = true →
             ∀ key, key ∈ arr → ∃ s, k_name key = VStr s))
    as (-> & Hsub1 & Hnames).
  { destruct (truthy_opt (lo_search options)).
    - unfold lift_result in Hsearch. injection Hsearch as Hf Hst.
      split_and!; [done|by eapply filter_throwing_sublist|].
      intros _ key Hin.
      destruct (filter_throwing_returns _ _ _ Hf key Hin) as [keep Hkeep].
      unfold search_callback in Hkeep.
      destruct (k_name key) as [| |s]; try done. by exists s.
    - unfold ret in Hsearch. inversion Hsearch. by split_and!. }
  set (tagged := if truthy_opt (lo_tag options)
                 then List.filter _ searched else searched).
  assert (sublist tagged searched) as Hsub2.
  { unfold tagged. destruct (truthy_opt (lo_tag options)); [|done].
    apply filter_sublist. }
  unfold bind at 1.
  destruct ((if truthy_opt (lo_type options)
             then lift_result
                    (filter_throwing
                       (type_callback (default EmptyString (lo_type options)))
                       tagged)
             else ret tagged) st1) as [[filteredKeys|e] st3] eqn:Htype;
    [|by inv_run].
  assert (st3 = st1 ∧ sublist filteredKeys tagged) as (-> & Hsub3).
  { destruct (truthy_opt (lo_type options)).
    - unfold lift_result in Htype. injection Htype as Hf Hst.
      split; [done|by eapply filter_throwing_sublist].
    - unfold ret in Htype. inversion Htype. by split. }
  destruct filteredKeys as [|k1 rest] eqn:Hfiltered; [by inv_run|].
  unfold bind, lift_result.
  destruct (filter_throwing display_callback (k1 :: rest))
    as [shown'|e] eqn:Hdisplay; [|by inv_run].
  unfold ret. inv_run. split_and!; [done| |  |done].
  - etrans; [by eapply filter_throwing_sublist|].
    etrans; [done|]. by etrans.
  - intros key Hin.
    pose proof (filter_throwing_sublist _ _ _ Hdisplay) as Hsub4.
    assert (key ∈ k1 :: rest) as Hin'.
    { by eapply elem_of_sublist. }
    destruct (filter_throwing_returns _ _ _ Hdisplay key Hin')
      as [keep Hkeep].
    unfold display_callback in Hkeep.
    destruct (k_key key) as [| |s]; try done. by exists s.
Qed.

End ListProofs.

(** ** The further properties on examples *)

(** A run whose result is known, with the state it leaves. *)
Lemma run_eq {A} (m : result A * State) (r : result A) :
  m.1 = r → m = (r, m.2).
Proof. destruct m as [r' st]. simpl. by intros ->. Qed.

(** A manager that has a cache returns it. *)
Lemma loadKeys_cached `{Runtime} (st : State) (ref : nat) :
  keysCache st = Some ref → loadKeys st = (Ok ref, st).
Proof. intros Hcache. unfold loadKeys. by rewrite Hcache. Qed.

(** Replacing the heap changes neither the setup nor the files. *)
Lemma set_heap_same_setup (h : list (list KeyRecord)) (st : State) :
  same_setup st (set_heap h st).
Proof. by repeat split. Qed.

Lemma set_heap_fs (h : list (list KeyRecord)) (st : State) :
  fs (set_heap h st) = fs st.
Proof. reflexivity. Qed.


(** A save by a manager that holds one record, then a load by a new
    manager on the files that the first one left. *)
Lemma saved_store_loads_back_witness :
  let R := github_runtime in
  let st := with_loaded [github_key] (@demo_state R) in
  let st' := (@saveKeys R 0 st).2 in
  let st2 := @new_SSHKeyManager R None None demo_host (fs st') ∅ ∅ demo_oracle in
  ∃ st3, @loadKeys R st2 = (Ok 0, st3) ∧ array_at st3 0 = [github_key].
Proof.
  intros R st st' st2.
  apply (@saved_store_loads_back R (table_runtime_laws [] [github_key])
           0 st st' st2).
  - apply (run_eq (@saveKeys R 0 st)). vm_compute. reflexivity.
  - vm_compute. reflexivity.
  - vm_compute. reflexivity.
  - vm_compute. reflexivity.
  - reflexivity.
  - reflexivity.
  - reflexivity.
  - reflexivity.
  - vm_compute. reflexivity.
  - reflexivity.
Defined.

(** A text that is no envelope, and an envelope made by [encryptData]. *)
Lemma decryptData_only_on_envelopes_witness :
  let R := table_runtime [] [] in
  let st := @demo_state R in
  let envelope :=
    "00000000000000000000000000000000:0c001a0e00737878632660626626666a" in
  (∀ data, @decryptData R "no envelope" st ≠ (Ok data, st))
  ∧ (@decryptData R envelope st).1 = Ok "hello"
  ∧ ∃ ivHex encrypted rest,
      js_split ":" envelope = ivHex :: encrypted :: rest
      ∧ length (hex_decode encrypted) mod 16 = 0.
Proof.
  intros R st envelope. split; [|split].
  - intros data Hrun.
    destruct (@decryptData_only_on_envelopes R st st "no envelope" (Ok data)
                Hrun) as [_ Hshape].
    destruct (Hshape data eq_refl)
      as (_ & ivHex & encrypted & rest & Hsplit & _).
    vm_compute in Hsplit. discriminate Hsplit.
  - vm_compute. reflexivity.
  - destruct (@decryptData_only_on_envelopes R st
                (@decryptData R envelope st).2 envelope (Ok "hello"))
      as [_ Hshape].
    { apply (run_eq (@decryptData R envelope st)). vm_compute. reflexivity. }
    destruct (Hshape "hello" eq_refl)
      as (_ & ivHex & encrypted & rest & Hsplit & _ & _ & Hmod & _).
    exists ivHex, encrypted, rest. split; [exact Hsplit | exact Hmod].
Defined.

(** The envelope of a five-byte text has 65 characters. *)
Lemma encryptData_envelope_shape_witness :
  let R := table_runtime [] [] in
  let st := @demo_state R in
  ∃ envelope,
    @encryptData R "hello" st = (Ok envelope, set_n_iv 1 st)
    ∧ String.length envelope = 65.
Proof.
  intros R st.
  destruct (@encryptData_envelope_shape R (table_runtime_laws [] []) st
              "hello") as (envelope & ct & Hrun & _ & _ & Hlen);
    [vm_compute; reflexivity | vm_compute; reflexivity |].
  exists envelope. split; [exact Hrun | exact Hlen].
Defined.

(** A forced deletion in a store of three records. *)
Lemma deleteKey_removes_first_match_witness :
  let R := table_runtime [] [] in
  let st := with_loaded [laptop_rsa; github_key; laptop_ed25519]
              (@demo_state R) in
  ∃ st', @deleteKey R "id-github" true false st = (Ok (), st')
         ∧ array_at st' 0 = [laptop_rsa; laptop_ed25519].
Proof.
  intros R st.
  destruct (@deleteKey_removes_first_match R st st "id-github" 0 1 true false)
    as (st' & k & Hrun & _ & _ & _ & Harr & _);
    [ apply loadKeys_cached; reflexivity | vm_compute; reflexivity
    | reflexivity | ].
  exists st'. split; [exact Hrun|].
  rewrite Harr. vm_compute. reflexivity.
Defined.

(** A deletion that is not confirmed. *)
Lemma deleteKey_cancelled_witness :
  let R := table_runtime [] [] in
  let st := with_loaded [github_key] (@demo_state R) in
  @deleteKey R "id-github" false false st
  = (Ok (), set_trace (trace st ++ [LogCancelled]) st).
Proof.
  intros R st. apply (@deleteKey_cancelled R st st "id-github" 0 0);
    [apply loadKeys_cached; reflexivity | vm_compute; reflexivity].
Defined.

(** A store file that is no envelope: the load starts from an empty
    array, and the save of the one record put in it replaces the file. *)
Lemma unreadable_store_is_replaced_witness :
  let R := table_runtime [] [] in
  let st := @garbage_state R in
  let st1 := (@loadKeys R st).2 in
  let st2 := set_heap [[github_key]] st1 in
  let st3 := (@saveKeys R 0 st2).2 in
  array_at st1 0 = []
  ∧ fs st1 !! "/work/data/ssh_keys.enc" = Some (File "not an envelope")
  ∧ ∃ envelope,
      fs st3 !! "/work/data/ssh_keys.enc" = Some (File envelope)
      ∧ encrypt_envelope (getEncryptionKey st2)
          (random_iv (oracle st2) (n_iv st2))
          (JSON_stringify (array_at st2 0)) = Ok envelope.
Proof.
  intros R st st1 st2 st3.
  destruct (@unreadable_store_is_replaced R st (@getKeysFilePath R st).2
              st1 st2 st3 "/work/data/ssh_keys.enc" "not an envelope" 0)
    as (Hempty & _ & Hold & Hnew).
  - reflexivity.
  - apply (run_eq (@getKeysFilePath R st)). vm_compute. reflexivity.
  - vm_compute. reflexivity.
  - vm_compute. reflexivity.
  - apply (run_eq (@loadKeys R st)). vm_compute. reflexivity.
  - apply set_heap_same_setup.
  - apply set_heap_fs.
  - apply (run_eq (@saveKeys R 0 st2)). vm_compute. reflexivity.
  - split; [exact Hempty | split; [exact Hold | exact Hnew]].
Defined.

(** An import of a file that does not exist. *)
Lemma importFromFile_fails_before_load_witness :
  let R := import_runtime in
  let st := @files_state R in
  ∃ e,
    @importFromFile R "/imports/missing.json" None st
    = (Ok (),
       set_trace (trace st ++ [IoReadFile "/imports/missing.json";
                               LogError "Error importing from file:" e]) st).
Proof.
  intros R st.
  apply (@importFromFile_fails_before_load R st
           (@read_import_content R "/imports/missing.json" None st).2
           "/imports/missing.json" None
           (Throw (EIO "/imports/missing.json")));
    [ apply (run_eq (@read_import_content R "/imports/missing.json" None st));
      vm_compute; reflexivity
    | exact I ].
Defined.

(** An import of the export document of two records named laptop into an
    empty store: one record is appended, the other is counted. *)
Lemma importFromFile_accounts_for_every_record_witness :
  let R := import_runtime in
  let st := @files_state R in
  ∃ st' added,
    @importFromFile R "/imports/keys.json" None st = (Ok (), st')
    ∧ array_at st' 0 = added
    ∧ sublist (map name_and_key added)
        (map name_and_key [laptop_rsa; laptop_ed25519]).
Proof.
  intros R st.
  set (st0 := (@read_import_content R "/imports/keys.json" None st).2).
  destruct (@importFromFile_accounts_for_every_record R st st0
              (@loadKeys R st0).2
              "/imports/keys.json" None "export-of-two-laptop-keys"
              (ExportDocument [laptop_rsa; laptop_ed25519]) 0 [])
    as (st' & added & Hrun & Harr & Hsub & _).
  - apply (run_eq (@read_import_content R "/imports/keys.json" None st)).
    vm_compute. reflexivity.
  - vm_compute. reflexivity.
  - apply (run_eq (@loadKeys R st0)). vm_compute. reflexivity.
  - vm_compute. reflexivity.
  - exists st', added. split; [exact Hrun | split; [exact Harr | exact Hsub]].
Defined.

(** The same import: the store it leaves has no two records with the same
    name or the same key. *)
Lemma importFromFile_keeps_records_distinct_witness :
  let R := import_runtime in
  let st := @files_state R in
  no_match_pairs (array_at (@importFromFile R "/imports/keys.json" None st).2 0).
Proof.
  intros R st.
  set (st0 := (@read_import_content R "/imports/keys.json" None st).2).
  apply (@importFromFile_keeps_records_distinct R st st0
           (@loadKeys R st0).2
           "/imports/keys.json" None "export-of-two-laptop-keys"
           (ExportDocument [laptop_rsa; laptop_ed25519]) 0 []).
  - apply (run_eq (@read_import_content R "/imports/keys.json" None st)).
    vm_compute. reflexivity.
  - vm_compute. reflexivity.
  - apply (run_eq (@loadKeys R st0)). vm_compute. reflexivity.
  - vm_compute. reflexivity.
  - intros i j a b Ha. discriminate Ha.
Defined.


(** A scan of the host of the examples: one key, in [.ssh]. *)
Lemma scanCommonLocations_finds_readable_pub_files_witness :
  let R := table_runtime [] [] in
  let st := @files_state R in
  ∃ st',
    @scanCommonLocations R st
    = (Ok [{| s_name := "GitHub.pub";
              s_path := "/home/dev/.ssh/GitHub.pub";
              s_content := "ssh-ed25519 AAAAC3NzaC1lZDI1NTE5 dev@devbox";
              s_type := "Ed25519" |}], st')
    ∧ same_but_trace st st'.
Proof.
  intros R st.
  destruct (@scanCommonLocations_finds_readable_pub_files R st
              (@getCommonSSHLocations R st).2
              ["/home/dev/.ssh"; "/home/dev/ssh"; "/home/dev/Documents/ssh"])
    as (st' & Hrun & Hsame & _).
  - apply (run_eq (@getCommonSSHLocations R st)). vm_compute. reflexivity.
  - repeat (apply Forall_cons; split); [| | |apply Forall_nil_2];
      vm_compute; try exact I; intros Hin; discriminate Hin.
  - exists st'. split; [|exact Hsame].
    rewrite Hrun. apply (f_equal (λ found, (Ok found, st'))).
    vm_compute. reflexivity.
Defined.

(** An import from a directory that does not exist, alone and through
    [importKeys]. *)
Lemma importFromDirectory_raises_on_unreadable_directory_witness :
  let R := table_runtime [] [] in
  let st := @files_state R in
  let st0 := set_trace (trace st ++ [IoReaddir "/nowhere"]) st in
  @importFromDirectory R "/nowhere" st = (Throw (EIO "/nowhere"), st0)
  ∧ @importKeys R (mkImportOptions None (Some "/nowhere") None)
      (mkImportAnswers ImportTypeFile EmptyString []) st
    = (Ok (),
       set_trace (trace st0 ++ [LogError "Error importing keys:"
                                  (EIO "/nowhere")]) st0).
Proof.
  intros R st st0.
  destruct (@importFromDirectory_raises_on_unreadable_directory R st
              "/nowhere") as [Hraise Hprint].
  - intros entries Hnode. vm_compute in Hnode. discriminate Hnode.
  - discriminate.
  - split; [exact Hraise | apply Hprint].
Defined.

(** A scan on a host where [ssh] in the home directory is a file. *)
Lemma scan_stops_on_unlistable_location_witness :
  let R := table_runtime [] [] in
  let st := @blocked_state R in
  ∃ st',
    @scanCommonLocations R st = (Throw (EIO "/home/dev/ssh"), st')
    ∧ @importFromScan R [true] st = (Throw (EIO "/home/dev/ssh"), st')
    ∧ (@scanKeys R st).1 = Ok (ScanFailed (EIO "/home/dev/ssh")).
Proof.
  intros R st.
  destruct (@scan_stops_on_unlistable_location R st
              (@getCommonSSHLocations R st).2
              ["/home/dev/.ssh"] ["/home/dev/Documents/ssh"] "/home/dev/ssh")
    as (st' & Hscan & _ & Himport & Hkeys).
  - apply (run_eq (@getCommonSSHLocations R st)). vm_compute. reflexivity.
  - apply Forall_cons; split; [|apply Forall_nil_2].
    vm_compute. intros Hin. discriminate Hin.
  - intros Hs. vm_compute in Hs. exact Hs.
  - exists st'. split; [exact Hscan|]. split; [apply Himport|].
    rewrite Hkeys. reflexivity.
Defined.


(** Adding a key whose content is white space. *)
Lemma addKey_blank_content_is_refused_witness :
  let R := table_runtime [] [] in
  let st := with_loaded [github_key] (@demo_state R) in
  let options := mkAddOptions (Some "GitHub") None (Some "   ") in
  let answers := mkAddAnswers EmptyString EmptyString (AddManual EmptyString) in
  let st0 := (@addKey_input R options answers st).2 in
  @addKey R options answers st = (Ok AddContentRequired, st0)
  ∧ same_but_trace st st0.
Proof.
  intros R st options answers st0.
  apply (@addKey_blank_content_is_refused R st st0 options answers
           "GitHub" None "   ").
  - apply (run_eq (@addKey_input R options answers st)).
    vm_compute. reflexivity.
  - right. vm_compute. reflexivity.
Defined.

(** Adding a key, then deleting it. *)
Lemma deleteKey_undoes_addKey_witness :
  let R := table_runtime [] [] in
  let st := with_loaded [github_key] (@demo_state R) in
  let options := mkAddOptions (Some "laptop") None
                   (Some "ssh-rsa AAAAB3NzaC1yc2E dev@devbox") in
  let answers := mkAddAnswers EmptyString EmptyString (AddManual EmptyString) in
  let st' := (@addKey R options answers st).2 in
  length (array_at st' 0) = 2
  ∧ ∃ st'', @deleteKey R "uuid-0" true false st' = (Ok (), st'')
            ∧ array_at st'' 0 = [github_key].
Proof.
  intros R st options answers st'.
  set (st2 := set_n_uuid (S (n_uuid st)) (set_n_clock (S (n_clock st)) st)).
  destruct (@deleteKey_undoes_addKey R st (@addKey_input R options answers st).2
              st2 st' options answers "laptop" None
              "ssh-rsa AAAAB3NzaC1yc2E dev@devbox" 0 [github_key]
              {| k_id := VStr "uuid-0";
                 k_name := VStr "laptop";
                 k_tag := VNull;
                 k_key := VStr "ssh-rsa AAAAB3NzaC1yc2E dev@devbox";
                 k_key_type := VStr "RSA";
                 k_created := VStr "T0";
                 k_last_modified := VStr "T0" |}
              false)
    as (_ & Harr & st'' & Hdel & Hback).
  - apply (run_eq (@addKey_input R options answers st)).
    vm_compute. reflexivity.
  - apply loadKeys_cached. reflexivity.
  - vm_compute. reflexivity.
  - apply (run_eq (@addKey R options answers st)). vm_compute. reflexivity.
  - intros k Hk. apply list_elem_of_singleton in Hk. subst k. discriminate.
  - split; [by rewrite Harr|]. exists st''. split; [exact Hdel | exact Hback].
Defined.

(** An export of one record of a store of two, in the clear. *)
Lemma exportKeys_writes_selection_witness :
  let R := table_runtime [] [] in
  let st := with_loaded [github_key; laptop_rsa] (@demo_state R) in
  let options := mkExportOptions (Some "id-exported-1")
                   (Some "/out/one.json") None in
  let st' := (@exportKeys R demo_export options EmptyString st).2 in
  ∃ sel exported_at content,
    sel = [laptop_rsa]
    ∧ content = @JSON_stringify_export demo_export exported_at 1 sel
    ∧ fs st' = <["/out/one.json" := File content]> (fs st)
    ∧ array_at st' 0 = array_at st 0.
Proof.
  intros R st options st'.
  destruct (@exportKeys_writes_selection R demo_export st st st' options
              EmptyString 0 1 "/out/one.json" false)
    as (sel & exported_at & content & Hsel & Hcount & _ & Hcontent & Hfs
        & Harr & _).
  - apply loadKeys_cached. reflexivity.
  - apply (run_eq (@exportKeys R demo_export options EmptyString st)).
    vm_compute. reflexivity.
  - cbv beta iota zeta delta [exp_id exp_password options] in Hsel, Hcontent.
    change (String.eqb "id-exported-1" EmptyString) with false in Hsel.
    cbv iota in Hsel.
    destruct Hsel as (i & key & -> & Hi & _ & Hidx).
    assert (i = 1) as ->
      by (vm_compute in Hidx; by inversion Hidx).
    assert (key = laptop_rsa) as -> by (vm_compute in Hi; by inversion Hi).
    exists [laptop_rsa], exported_at, content.
    split; [reflexivity|]. split; [exact Hcontent|].
    split; [exact Hfs | exact Harr].
Defined.

(** An export under a password, read back on another host. *)
Lemma exported_file_reads_back_witness :
  let R := table_runtime [] [] in
  let st := with_loaded [github_key; laptop_rsa] (@demo_state R) in
  let options := mkExportOptions None (Some "/out/all.json")
                   (Some "hunter2!") in
  let st' := (@exportKeys R demo_export options EmptyString st).2 in
  let st2 := @new_SSHKeyManager R None None other_host (fs st') ∅ ∅
               demo_oracle in
  ∃ exported_at,
    (@read_import_content R "/out/all.json" (Some "hunter2!") st2).1
    = Ok (@JSON_stringify_export demo_export exported_at 2
           [github_key; laptop_rsa]).
Proof.
  intros R st options st' st2.
  destruct (@exported_file_reads_back R (table_runtime_laws [] [])
              demo_export st st st' st2 options EmptyString 0 2
              "/out/all.json" true)
    as (sel & exported_at & Hsel & _ & Hread).
  - apply loadKeys_cached. reflexivity.
  - apply (run_eq (@exportKeys R demo_export options EmptyString st)).
    vm_compute. reflexivity.
  - vm_compute. reflexivity.
  - reflexivity.
  - intros Hin. vm_compute in Hin. discriminate Hin.
  - vm_compute in Hsel. inversion Hsel; subst sel.
    exists exported_at.
    change (exp_password options) with (Some "hunter2!") in Hread.
    by rewrite Hread.
Defined.

(** Importing the export document of two records named laptop twice. *)
Lemma importFromFile_again_imports_nothing_witness :
  let R := import_runtime in
  let st := @files_state R in
  let st' := (@importFromFile R "/imports/keys.json" None st).2 in
  ∃ st'',
    @importFromFile R "/imports/keys.json" None st' = (Ok (), st'')
    ∧ array_at st'' 0 = array_at st' 0.
Proof.
  intros R st st'.
  set (st0 := (@read_import_content R "/imports/keys.json" None st).2).
  set (st1 := (@loadKeys R st0).2).
  destruct (@importFromFile_again_imports_nothing R st st0 st1
              (importFromFile_loop 0 [laptop_rsa; laptop_ed25519] 0 0 st1).2
              "/imports/keys.json" None "export-of-two-laptop-keys"
              (ExportDocument [laptop_rsa; laptop_ed25519]) 0 [] (1, 1))
    as (st'' & Hrun & Harr & _).
  - apply (run_eq (@read_import_content R "/imports/keys.json" None st)).
    vm_compute. reflexivity.
  - vm_compute. reflexivity.
  - apply (run_eq (@loadKeys R st0)). vm_compute. reflexivity.
  - vm_compute. reflexivity.
  - apply (run_eq (importFromFile_loop 0 [laptop_rsa; laptop_ed25519] 0 0
                     st1)).
    vm_compute. reflexivity.
  - vm_compute. reflexivity.
  - exists st''. split; [exact Hrun | exact Harr].
Defined.


(** The key of the manager of the examples, and of a manager configured
    with a password. *)
Lemma manager_key_has_32_bytes_witness :
  let R := table_runtime [] [] in
  length (getEncryptionKey (@demo_state R)) = 32
  ∧ getEncryptionKey
      (@new_SSHKeyManager R None (Some "hunter2!") demo_host ∅ ∅ ∅ demo_oracle)
    = deriveKeyFromPassword "hunter2!".
Proof.
  intros R.
  destruct (@manager_key_has_32_bytes R (table_runtime_laws [] [])
              (@demo_state R)) as [Hlen Hnew].
  split.
  - apply Hlen. split; vm_compute; reflexivity.
  - destruct (Hnew None (Some "hunter2!") demo_host ∅ ∅ ∅ demo_oracle)
      as (_ & _ & _ & Hpw).
    apply Hpw; [reflexivity | discriminate].
Defined.

(** A search for a type, in capitals, in a store of three records. *)
Lemma listKeys_shows_wanted_records_witness :
  let R := table_runtime [] [] in
  let st := with_loaded [github_key; laptop_rsa; laptop_ed25519]
              (@demo_state R) in
  @listKeys R demo_text (mkListOptions (Some "ED25519") None None) st
  = (Ok (Listed [github_key; laptop_ed25519]), st).
Proof.
  intros R st.
  rewrite (@listKeys_shows_wanted_records R demo_text st st
             (mkListOptions (Some "ED25519") None None) 0).
  - apply (f_equal (λ report : ListReport, (Ok report, st))).
    vm_compute. reflexivity.
  - apply loadKeys_cached. reflexivity.
  - unfold array_at. change (heap st !! 0)
      with (Some [github_key; laptop_rsa; laptop_ed25519]).
    repeat (apply Forall_cons; split); [| | |apply Forall_nil_2];
      (split; [|split]); eexists; reflexivity.
Defined.

(** The same search: what is shown is a part of the store. *)
Lemma listKeys_shown_needs_strings_witness :
  let R := table_runtime [] [] in
  let st := with_loaded [github_key; laptop_rsa; laptop_ed25519]
              (@demo_state R) in
  let options := mkListOptions (Some "ED25519") None None in
  sublist [github_key; laptop_ed25519] (array_at st 0)
  ∧ (@listKeys R demo_text options st).2 = st.
Proof.
  intros R st options.
  destruct (@listKeys_shown_needs_strings R demo_text st st
              (@listKeys R demo_text options st).2 options 0
              [github_key; laptop_ed25519])
    as (Hst & Hsub & _).
  - apply loadKeys_cached. reflexivity.
  - apply (run_eq (@listKeys R demo_text options st)). vm_compute. reflexivity.
  - split; [exact Hsub | exact Hst].
Defined.
